(** * wrap.py: an interactive shell around a subcommand-style CLI

    A shallow embedding of [src/wrap.py] and the properties of its
    command interpreter: variable substitution ([expand_vars]), the
    command dispatcher ([handle_command]) and the session loop
    ([run_repl]).

    Conventions of the embedding.
    - A Python [str] is a list of Unicode code points, each a number in [N].
      Literals are written [lit "..."].
    - A Python [dict] with string keys is an association list in insertion
      order: assigning to a key that is present keeps its position.
    - Output and calls to the operating system are recorded as a list of
      [event]s; what the operating system answers is read from an [OS]
      record of oracles over an abstract machine state. *)

From Stdlib Require Import Ascii String List NArith ZArith Bool Lia.
From Stdlib Require Import DecimalString.
From Stdlib Require DecimalZ.
Import ListNotations.

Local Open Scope list_scope.

(* ================================================================== *)
(** ** Python strings *)

Module Py.

Definition char := N.
Definition str := list char.

Definition chr (a : ascii) : char := N_of_ascii a.
Definition lit (s : string) : str := map N_of_ascii (list_ascii_of_string s).

Arguments chr a%_char : simpl never.
Arguments lit s%_string.

Definition in_range (lo hi c : N) : bool := N.leb lo c && N.leb c hi.

(** [c.isspace()]: the code points Python treats as whitespace
    (bidirectional class WS, B or S, or category Zs). *)
Definition isspace (c : char) : bool :=
  in_range 9 13 c || in_range 28 32 c || N.eqb c 133 || N.eqb c 160
  || N.eqb c 5760 || in_range 8192 8202 c || N.eqb c 8232 || N.eqb c 8233
  || N.eqb c 8239 || N.eqb c 8287 || N.eqb c 12288.

Fixpoint str_eqb (a b : str) : bool :=
  match a, b with
  | [], [] => true
  | x :: a', y :: b' => N.eqb x y && str_eqb a' b'
  | _, _ => false
  end.

(** [s.lstrip()], [s.rstrip()], [s.strip()] *)
Fixpoint lstrip (s : str) : str :=
  match s with
  | [] => []
  | c :: s' => if isspace c then lstrip s' else s
  end.

Definition rstrip (s : str) : str := rev (lstrip (rev s)).

Definition strip (s : str) : str := lstrip (rstrip s).

(** [s.startswith(p)], [s.endswith(p)] *)
Fixpoint startswith (p s : str) : bool :=
  match p, s with
  | [], _ => true
  | x :: p', y :: s' => N.eqb x y && startswith p' s'
  | _ :: _, [] => false
  end.

Definition endswith (p s : str) : bool := startswith (rev p) (rev s).

(** [c in s] for a one-character [c] *)
Definition contains (c : char) (s : str) : bool := existsb (N.eqb c) s.

(** The longest prefix whose characters satisfy [p], and what follows it. *)
Fixpoint span (p : char -> bool) (s : str) : str * str :=
  match s with
  | [] => ([], [])
  | c :: s' =>
      if p c then let (a, b) := span p s' in (c :: a, b) else ([], s)
  end.

(** [k, v = s.split(sep, 1)] for a one-character [sep] that occurs in [s]:
    the text before the first [sep] and the text after it. *)
Definition split1 (sep : char) (s : str) : str * str :=
  let (k, tl) := span (fun c => negb (N.eqb c sep)) s in (k, skipn 1 tl).

(** [os.path.basename(p)] on POSIX: what follows the last slash. *)
Definition basename (p : str) : str :=
  rev (fst (span (fun c => negb (N.eqb c (chr "/"))) (rev p))).

(** [str(z)] / [f"{z}"] for an integer. *)
Definition str_of_int (z : Z) : str := lit (NilZero.string_of_int (Z.to_int z)).

(** *** Dictionaries with string keys, in insertion order *)

Definition dict := list (str * str).

Fixpoint dict_get (k : str) (d : dict) : option str :=
  match d with
  | [] => None
  | (k', v) :: d' => if str_eqb k k' then Some v else dict_get k d'
  end.

(** [d[k] = v] *)
Fixpoint dict_set (k v : str) (d : dict) : dict :=
  match d with
  | [] => [(k, v)]
  | (k', v') :: d' =>
      if str_eqb k k' then (k', v) :: d' else (k', v') :: dict_set k v d'
  end.

Definition keys (d : dict) : list str := map fst d.

End Py.

Import Py.

(* ================================================================== *)
(** ** Substitution engine: [expand_vars] *)

Definition is_ident_start (c : char) : bool :=
  in_range 65 90 c || in_range 97 122 c || N.eqb c 95.

Definition is_ident_char (c : char) : bool :=
  is_ident_start c || in_range 48 57 c.

(** A whole string matching [[A-Za-z_][A-Za-z0-9_]*]. *)
Definition is_identifier (s : str) : bool :=
  match s with
  | [] => false
  | c :: s' => is_ident_start c && forallb is_ident_char s'
  end.

(** [m.group(0)] of a match whose [m.group(1)] is [key]. *)
Definition group0 (key : str) : str := lit "${" ++ key ++ lit "}".

(** One attempt of the pattern at the head of [s]: a dollar sign, an opening
    brace, the group [[A-Za-z_][A-Za-z0-9_]*] and a closing brace.  The result
    is the captured group and the text after the match.  The starred
    class is greedy and cannot give back characters to match the closing
    brace, a brace not being in the class. *)
Definition match_ref (s : str) : option (str * str) :=
  match s with
  | c1 :: c2 :: c :: s' =>
      if N.eqb c1 (chr "$") && N.eqb c2 (chr "{") && is_ident_start c then
        let (more, tail) := span is_ident_char s' in
        match tail with
        | c3 :: rest =>
            if N.eqb c3 (chr "}") then Some (c :: more, rest) else None
        | [] => None
        end
      else None
  | _ => None
  end.

(** [re.sub(pattern, repl, s)] for the pattern above: matches are looked for
    from left to right; a match is replaced by [repl] of its group and the
    scan resumes after it; elsewhere one character is copied.  Every step
    consumes input, so [length s] steps are enough ([re_sub_fuel]). *)
Fixpoint re_sub (fuel : nat) (repl : str -> str) (s : str) : str :=
  match fuel with
  | O => s
  | S fuel' =>
      match s with
      | [] => []
      | c :: s' =>
          match match_ref s with
          | Some (key, rest) => repl key ++ re_sub fuel' repl rest
          | None => c :: re_sub fuel' repl s'
          end
      end
  end.

Definition expand_vars (s : str) (vars_map : dict) : str :=
  let repl key :=
    match dict_get key vars_map with
    | Some v => v
    | None => group0 key
    end in
  re_sub (length s) repl s.

(** A string in which [${] occurs somewhere. *)
Fixpoint has_ref_opener (s : str) : bool :=
  match s with
  | [] => false
  | c :: s' => startswith (lit "${") s || has_ref_opener s'
  end.

(* ================================================================== *)
(** ** Tokenizer: [shlex.split]

    [handle_command] tokenizes with the standard library's [shlex.split(s)],
    that is a [shlex] lexer in POSIX mode with [whitespace_split] set, no
    comment characters and no punctuation characters.  [read_tokens] is the
    character loop of [shlex.read_token] under that configuration, iterated
    as [list(lex)] iterates it: where [read_token] leaves its loop the token
    is handed out and the loop is entered again with fresh [quoted],
    [escapedstate] and [token], the lexer keeping its [state]. *)

Module Shlex.

Inductive result (A : Type) : Type :=
| Ok (a : A)
| ValueError (msg : str).

Arguments Ok {A} a.
Arguments ValueError {A} msg.

(** The values of [self.state] (and of [escapedstate]). *)
Inductive lexstate : Type :=
| st_space               (* ' ' : between tokens *)
| st_word                (* 'a' : inside a word *)
| st_quote (q : char)    (* a quote character: inside that quotation *)
| st_escape.             (* the escape character: after a backslash *)

Definition dquote : char := 34%N.     (* the double quote character *)
Definition squote : char := chr "'".
Definition backslash : char := chr "\".

Definition in_whitespace (c : char) : bool :=
  N.eqb c (chr " ") || N.eqb c 9 || N.eqb c 13 || N.eqb c 10.
Definition in_quotes (c : char) : bool := N.eqb c squote || N.eqb c dquote.
Definition in_escape (c : char) : bool := N.eqb c backslash.
Definition in_escapedquotes (c : char) : bool := N.eqb c dquote.

Definition nonempty (s : str) : bool :=
  match s with [] => false | _ :: _ => true end.

(** The end of [read_token]: the token is returned, unless it is empty and
    was not quoted, which is the end-of-input marker [None] that stops the
    iteration.  [more] is what the following calls produce. *)
Definition emit (token : str) (quoted : bool) (more : result (list str))
  : result (list str) :=
  if negb quoted && negb (nonempty token) then Ok []
  else match more with
       | Ok l => Ok (token :: l)
       | ValueError msg => ValueError msg
       end.

Fixpoint read_tokens (state escapedstate : lexstate) (quoted : bool)
    (token : str) (input : str) : result (list str) :=
  match input with
  | [] =>
      (* [nextchar] is empty: end of input *)
      match state with
      | st_space | st_word =>
          (* state = None; break.  The next call returns the marker. *)
          emit token quoted (Ok [])
      | st_quote _ => ValueError (lit "No closing quotation")
      | st_escape => ValueError (lit "No escaped character")
      end
  | c :: rest =>
      match state with
      | st_space =>
          if in_whitespace c then
            if nonempty token || quoted then
              emit token quoted (read_tokens st_space st_space false [] rest)
            else read_tokens st_space escapedstate quoted token rest
          else if in_escape c then
            read_tokens st_escape st_word quoted token rest
          else if in_quotes c then
            read_tokens (st_quote c) escapedstate quoted token rest
          else
            (* a word character, or any other one under whitespace_split *)
            read_tokens st_word escapedstate quoted [c] rest
      | st_quote q =>
          (* quoted = True *)
          if N.eqb c q then read_tokens st_word escapedstate true token rest
          else if in_escape c && in_escapedquotes q then
            read_tokens st_escape (st_quote q) true token rest
          else read_tokens (st_quote q) escapedstate true (token ++ [c]) rest
      | st_escape =>
          let token' :=
            match escapedstate with
            | st_quote q =>
                if negb (N.eqb c backslash) && negb (N.eqb c q)
                then token ++ [backslash] else token
            | _ => token
            end in
          read_tokens escapedstate escapedstate quoted (token' ++ [c]) rest
      | st_word =>
          if in_whitespace c then
            (* state = ' ' *)
            if nonempty token || quoted then
              emit token quoted (read_tokens st_space st_space false [] rest)
            else read_tokens st_space escapedstate quoted token rest
          else if in_quotes c then
            read_tokens (st_quote c) escapedstate quoted token rest
          else if in_escape c then
            read_tokens st_escape st_word quoted token rest
          else read_tokens st_word escapedstate quoted (token ++ [c]) rest
      end
  end.

(** [shlex.split(s)] *)
Definition split (s : str) : result (list str) :=
  read_tokens st_space st_space false [] s.

End Shlex.

(* ================================================================== *)
(** ** The operating system and the trace of effects *)

(** How [subprocess.Popen(full)] followed by [proc.wait()] ends. *)
Inductive spawn_result : Type :=
| Exited (rc : Z)                  (* the child ran and exited with [rc] *)
| FileNotFoundError                (* raised by [Popen] *)
| OtherException (msg : str).      (* any other [Exception], with [str(e)] *)

Inductive event : Type :=
| Stdout (line : str)              (* [print(line)] *)
| Stderr (line : str)              (* [_print_err(line)] *)
| Prompt (text : str)              (* the prompt written by [input(text)] *)
| Shell (cmd : str)                (* [subprocess.call(cmd, shell=True)] *)
| Popen (argv : list str)          (* [subprocess.Popen(argv)] *)
| Chdir (path : str)               (* [os.chdir(path)] *)
| WriteHistory                     (* [readline.write_history_file] *)
| Traceback (exc : str).           (* the interpreter reports an exception
                                      that nothing caught *)

(** What a call that the source does not guard ends with: it returns a
    value, or it raises an exception, named here by the text the interpreter
    shows for it. *)
Inductive answer (A : Type) : Type :=
| Returns (a : A)
| Throws (exc : str).

Arguments Returns {A} a.
Arguments Throws {A} exc.

(** The services the program calls, over an abstract machine state.
    [chdir] answers [Some msg] when it raises, [msg] being [str(e)]: the
    source catches that exception.  [getcwd] ([os.getcwd]) and [call_shell]
    ([subprocess.call] with [shell=True]) are called without a guard, and
    their exceptions leave [handle_command].  [print] and the readline
    queries are taken to return. *)
Record OS : Type := {
  machine : Type;
  HAVE_READLINE : bool;
  get_history : machine -> list str;
  getcwd : machine -> answer str;
  chdir : str -> machine -> option str * machine;
  call_shell : str -> machine -> answer Z * machine;
  popen_wait : list str -> machine -> spawn_result * machine;
  line_read : str -> machine -> machine;   (* [input] returned this line *)
  startup : str -> machine -> machine      (* completion and history set-up *)
}.

(** [readline.get_history_item(i)], as [print] shows it. *)
Definition get_history_item (h : list str) (i : nat) : str :=
  match i with
  | O => lit "None"
  | S j => match nth_error h j with Some e => e | None => lit "None" end
  end.

(* ================================================================== *)
(** ** The dispatcher: [handle_command] *)

(** What [handle_command] ends with: it returns ["continue"], ["break"] or
    [None], or an exception leaves it. *)
Inductive outcome : Type :=
| Continue
| Break
| Normal                 (* None: continue normally after processing *)
| Escapes (exc : str).   (* an exception that [handle_command] does not catch *)

Record handled (os : OS) : Type := {
  result : outcome;
  trace : list event;
  vars_after : dict;
  machine_after : machine os
}.

Arguments result {os} h.
Arguments trace {os} h.
Arguments vars_after {os} h.
Arguments machine_after {os} h.

(** The lines printed by the [help] built-in. *)
Definition help_text : list event :=
  [ Stdout (lit ":help                - this help");
    Stdout (lit ":set k=v            - set vars, used as ${k}");
    Stdout (lit ":vars               - list current variables");
    Stdout (lit ":pwd                - print working directory");
    Stdout (lit ":cd <path>          - change directory");
    Stdout (lit ":history            - show history (readline)");
    Stdout (lit ":exit | :quit | :q  - exit") ].

Definition handle_command (os : OS) (raw : str) (base_cmd : str)
    (base_args : list str) (vars_map : dict) (m : machine os) : handled os :=
  let ret r evs := {| result := r; trace := evs;
                      vars_after := vars_map; machine_after := m |} in
  (* Built-ins start with ':' *)
  if startswith (lit ":") raw then
    let cmd := strip (skipn 1 raw) in
    if str_eqb cmd (lit "q") || str_eqb cmd (lit "quit")
       || str_eqb cmd (lit "exit") then ret Break []
    else if str_eqb cmd (lit "help") then ret Continue help_text
    else if startswith (lit "set ") cmd then
      let rest := strip (skipn 4 cmd) in
      if contains (chr "=") rest then
        let (k, v) := split1 (chr "=") rest in
        {| result := Continue; trace := [];
           vars_after := dict_set (strip k) (strip v) vars_map;
           machine_after := m |}
      else ret Continue [Stderr (lit "Usage: :set key=value")]
    else if str_eqb cmd (lit "vars") then
      ret Continue
          (map (fun kv => Stdout (fst kv ++ lit "=" ++ snd kv)) vars_map)
    else if str_eqb cmd (lit "pwd") then
      match getcwd os m with
      | Returns cwd => ret Continue [Stdout cwd]
      | Throws exc => ret (Escapes exc) []
      end
    else if startswith (lit "cd ") cmd then
      let newdir := strip (skipn 3 cmd) in
      match chdir os newdir m with
      | (None, m') =>
          {| result := Continue; trace := [Chdir newdir];
             vars_after := vars_map; machine_after := m' |}
      | (Some e, m') =>
          {| result := Continue;
             trace := [Chdir newdir; Stderr (lit "cd: " ++ e)];
             vars_after := vars_map; machine_after := m' |}
      end
    else if str_eqb cmd (lit "history") && HAVE_READLINE os then
      let h := get_history os m in
      ret Continue
          (map (fun i => Stdout (get_history_item h i)) (seq 1 (length h)))
    else ret Continue [Stderr (lit "Unknown built-in. Use :help")]
  (* Shell escape *)
  else if startswith (lit "!") raw then
    let shell_cmd := strip (skipn 1 raw) in
    if negb (Shlex.nonempty shell_cmd) then ret Continue []
    else
      match call_shell os shell_cmd m with
      | (Returns rc, m') =>
          {| result := Continue;
             trace := Shell shell_cmd ::
                      (if Z.eqb rc 0 then []
                       else [Stderr (lit "[shell] exited with code "
                                     ++ str_of_int rc)]);
             vars_after := vars_map; machine_after := m' |}
      | (Throws exc, m') =>
          {| result := Escapes exc; trace := [Shell shell_cmd];
             vars_after := vars_map; machine_after := m' |}
      end
  else
    (* Variable expansion *)
    let expanded := expand_vars raw vars_map in
    (* Tokenize respecting quotes *)
    match Shlex.split expanded with
    | Shlex.ValueError e => ret Continue [Stderr (lit "parse error: " ++ e)]
    | Shlex.Ok args =>
        let full := [base_cmd] ++ base_args ++ args in
        match popen_wait os full m with
        | (Exited rc, m') =>
            {| result := Normal;
               trace := Popen full ::
                        (if Z.eqb rc 0 then []
                         else [Stderr (lit "[" ++ basename base_cmd
                                       ++ lit "] exited with code "
                                       ++ str_of_int rc)]);
               vars_after := vars_map; machine_after := m' |}
        | (FileNotFoundError, m') =>
            {| result := Break;
               trace := [Popen full;
                         Stderr (lit "Command not found: " ++ base_cmd)];
               vars_after := vars_map; machine_after := m' |}
        | (OtherException e, m') =>
            {| result := Normal; trace := [Popen full; Stderr e];
               vars_after := vars_map; machine_after := m' |}
        end
    end.

(* ================================================================== *)
(** ** The session loop: [run_repl] *)

Definition PROMPT_COLOR : str := 27%N :: lit "[1;36m".
Definition RESET : str := 27%N :: lit "[0m".

Definition save_history (os : OS) : list event :=
  if HAVE_READLINE os then [WriteHistory] else [].

(** The inner [while True] of [run_repl]: standard input is the list of the
    lines still to come, and [input] raises [EOFError] when it is empty.
    The answer is the trace, the machine, and either [None] for [EOFError]
    or the collected [line_parts] with the lines left unread. *)
Fixpoint read_line_parts (os : OS) (prompt cont_prompt : str)
    (line_parts : list str) (stdin : list str) (m : machine os)
  : list event * machine os * option (list str * list str) :=
  let shown :=
    match line_parts with [] => prompt | _ :: _ => cont_prompt end in
  match stdin with
  | [] => ([Prompt shown], m, None)
  | line :: stdin' =>
      let m' := line_read os line m in
      if endswith (lit "\") line then
        let '(evs, m'', r) :=
          read_line_parts os prompt cont_prompt
                          (line_parts ++ [removelast line]) stdin' m' in
        (Prompt shown :: evs, m'', r)
      else ([Prompt shown], m', Some (line_parts ++ [line], stdin'))
  end.

(** The [try] block at the head of the outer loop: the logical line [raw],
    or [None] at the end of input. *)
Definition read_raw (os : OS) (prompt cont_prompt : str) (stdin : list str)
    (m : machine os)
  : list event * machine os * option (str * list str) :=
  match read_line_parts os prompt cont_prompt [] stdin m with
  | (evs, m', Some (line_parts, stdin')) =>
      (evs, m', Some (strip (concat line_parts), stdin'))
  | (evs, m', None) => (evs, m', None)
  end.

(** The outer [while True].  Every turn reads at least one line or ends the
    loop, so [S (length stdin)] turns are enough ([repl_loop_fuel]).  The
    answer is the trace, the store, the machine, and the exception that left
    the loop, if one did: the loop has no handler for what [handle_command]
    lets out. *)
Fixpoint repl_loop (fuel : nat) (os : OS) (base_cmd : str)
    (base_args : list str) (prompt cont_prompt : str) (vars_map : dict)
    (stdin : list str) (m : machine os)
  : list event * dict * machine os * option str :=
  match fuel with
  | O => ([], vars_map, m, None)
  | S fuel' =>
      match read_raw os prompt cont_prompt stdin m with
      | (evs, m', None) => (evs ++ [Stdout []], vars_map, m', None)
      | (evs, m', Some (raw, stdin')) =>
          if negb (Shlex.nonempty raw) then
            let '(evs', vars', m'', exc) :=
              repl_loop fuel' os base_cmd base_args prompt cont_prompt
                        vars_map stdin' m' in
            (evs ++ evs', vars', m'', exc)
          else
            let r := handle_command os raw base_cmd base_args vars_map m' in
            match result r with
            | Break => (evs ++ trace r, vars_after r, machine_after r, None)
            | Escapes exc =>
                (evs ++ trace r, vars_after r, machine_after r, Some exc)
            | _ =>
                let '(evs', vars', m'', exc) :=
                  repl_loop fuel' os base_cmd base_args prompt cont_prompt
                            (vars_after r) stdin' (machine_after r) in
                (evs ++ trace r ++ evs', vars', m'', exc)
            end
      end
  end.

(** [run_repl]: the [finally] clause saves the history on every way out of
    the loop, an exception included, which then goes on to the caller. *)
Definition run_repl (os : OS) (base_cmd : str) (base_args : list str)
    (stdin : list str) (m : machine os)
  : list event * dict * machine os * option str :=
  let prompt :=
    PROMPT_COLOR ++ basename base_cmd ++ lit ">" ++ RESET ++ lit " " in
  let cont_prompt := lit "..> " in
  let '(evs, vars_map, m', exc) :=
    repl_loop (S (length stdin)) os base_cmd base_args prompt cont_prompt
              [] stdin (startup os base_cmd m) in
  (evs ++ save_history os, vars_map, m', exc).

(* ================================================================== *)
(** ** Vocabulary of the statements *)

(** What [repl] in [expand_vars] answers for a key. *)
Definition lookup_or_literal (vars_map : dict) (key : str) : str :=
  match dict_get key vars_map with
  | Some v => v
  | None => group0 key
  end.

(** The integer that a decimal numeral denotes: digits, after a minus sign
    or not.  [digits_value acc s] reads the digits [s] after digits worth
    [acc]. *)
Fixpoint digits_value (acc : Z) (s : str) : option Z :=
  match s with
  | [] => Some acc
  | c :: s' =>
      if in_range 48 57 c then digits_value (10 * acc + Z.of_N (c - 48)) s'
      else None
  end.

Definition int_of_str (s : str) : option Z :=
  match s with
  | [] => None
  | c :: s' =>
      if N.eqb c (chr "-") then
        if Shlex.nonempty s' then option_map Z.opp (digits_value 0 s')
        else None
      else digits_value 0 s
  end.

(** A forwarded line: neither a built-in nor a shell escape. *)
Definition forwarded (raw : str) : Prop :=
  startswith (lit ":") raw = false /\ startswith (lit "!") raw = false.

(** The argument vectors handed to [subprocess.Popen] in a trace. *)
Definition spawned (evs : list event) : list (list str) :=
  flat_map (fun e => match e with Popen argv => [argv] | _ => [] end) evs.

(** Where a text stands with respect to quoting, read from left to right by
    the rules of the POSIX shell: outside any quotation, inside the quotation
    that [q] opened, or right after a backslash that escapes the character
    to come, outside any quotation or inside the one that [q] opened.  A
    quote opens a quotation that the same quote closes; a backslash escapes
    outside quotations and inside double quotes, and is a character like any
    other inside single quotes. *)
Inductive quoting : Type :=
| Outside
| Inside (q : char)
| EscapedOutside
| EscapedInside (q : char).

Definition quoting_step (pos : quoting) (c : char) : quoting :=
  match pos with
  | Outside =>
      if N.eqb c (chr "\") then EscapedOutside
      else if N.eqb c (chr "'") || N.eqb c 34 then Inside c
      else Outside
  | Inside q =>
      if N.eqb c q then Outside
      else if N.eqb c (chr "\") && N.eqb q 34 then EscapedInside q
      else Inside q
  | EscapedOutside => Outside
  | EscapedInside q => Inside q
  end.

Fixpoint quoting_from (pos : quoting) (s : str) : quoting :=
  match s with
  | [] => pos
  | c :: s' => quoting_from (quoting_step pos c) s'
  end.

(** The position at the end of a text.  The quoting of a text is malformed
    when its end is not outside: a quotation is left open, or a backslash
    has nothing to escape. *)
Definition quoting_at_end (s : str) : quoting := quoting_from Outside s.

Definition malformed_quoting (s : str) : Prop := quoting_at_end s <> Outside.

(** What [shlex] has to say of a text that ends in a position. *)
Definition quoting_error (pos : quoting) : option str :=
  match pos with
  | Outside => None
  | Inside _ => Some (lit "No closing quotation")
  | EscapedOutside | EscapedInside _ => Some (lit "No escaped character")
  end.

(** The position that a state of the tokenizer stands for. *)
Definition position (state escapedstate : Shlex.lexstate) : quoting :=
  match state with
  | Shlex.st_space | Shlex.st_word => Outside
  | Shlex.st_quote q => Inside q
  | Shlex.st_escape =>
      match escapedstate with
      | Shlex.st_quote q => EscapedInside q
      | _ => EscapedOutside
      end
  end.

(** A character that neither opens a quotation nor escapes. *)
Definition plain (c : char) : bool :=
  negb (Shlex.in_quotes c) && negb (Shlex.in_escape c).

(** A character that neither closes the quotation opened by [q] nor
    escapes. *)
Definition inside (q c : char) : bool :=
  negb (N.eqb c q) && negb (Shlex.in_escape c).

(** Three more lines with malformed quoting: a single quote opened after a
    closed quotation, a double quotation with an escaped double quote in it,
    and a backslash at the end of the line. *)
Definition quote_after_quotation : str := 97%N :: 32%N :: 34%N :: lit "b"
                                          ++ 34%N :: lit " 'c".
Definition escaped_quote_inside : str := lit "echo " ++ 34%N :: lit "a\"
                                         ++ 34%N :: lit "b".
Definition trailing_backslash : str := lit "commit -m fix\".

(** The line made of [commit -m], a double quote, [fix] and a backslash. *)
Definition double_quoted_fix : str := lit "commit -m " ++ 34%N :: lit "fix\".

(** The line made of [echo], a space, a double quote and [hi]. *)
Definition echo_unterminated : str := lit "echo " ++ Shlex.dquote :: lit "hi".

(** The commands that end the session. *)
Definition exit_family (cmd : str) : Prop :=
  cmd = lit "q" \/ cmd = lit "quit" \/ cmd = lit "exit".

(** The built-in vocabulary as [handle_command] tests it, in its order. *)
Definition recognised (os : OS) (cmd : str) : bool :=
  str_eqb cmd (lit "q") || str_eqb cmd (lit "quit") || str_eqb cmd (lit "exit")
  || str_eqb cmd (lit "help") || startswith (lit "set ") cmd
  || str_eqb cmd (lit "vars") || str_eqb cmd (lit "pwd")
  || startswith (lit "cd ") cmd
  || (str_eqb cmd (lit "history") && HAVE_READLINE os).


(** A line typed with a backslash at its end. *)
Definition continued (s : str) : str := s ++ lit "\".

(** The machine after [input] has returned each of [lines]. *)
Definition lines_read (os : OS) (lines : list str) (m : machine os)
  : machine os :=
  fold_left (fun m' line => line_read os line m') lines m.

(** The prompt [run_repl] passes to [input]. *)
Definition shown_prompt (prompt cont_prompt : str) (line_parts : list str)
  : str :=
  match line_parts with [] => prompt | _ :: _ => cont_prompt end.

(** No whitespace at the head. *)
Definition clean_head (s : str) : Prop :=
  match s with [] => True | c :: _ => isspace c = false end.

(** What every stored key is: trimmed text without an equals sign. *)
Definition trimmed_key (k : str) : Prop :=
  strip k = k /\ contains (chr "=") k = false.

(** The invariant of the variable store. *)
Definition store_ok (vars_map : dict) : Prop :=
  NoDup (keys vars_map) /\ Forall trimmed_key (keys vars_map).


(** A machine for examples: a fixed history, a shell and a child process that
    end as told, and a [chdir] that always succeeds. *)
Definition demo_os (readline : bool) (h : list str) (child : spawn_result)
  : OS :=
  {| machine := unit;
     HAVE_READLINE := readline;
     get_history := fun _ => h;
     getcwd := fun _ => Returns (lit "/");
     chdir := fun _ u => (None, u);
     call_shell := fun _ u => (Returns 0%Z, u);
     popen_wait := fun _ u => (child, u);
     line_read := fun _ u => u;
     startup := fun _ u => u |}.

(** What [os.getcwd] raises once the working directory has been removed. *)
Definition no_such_directory : str :=
  lit "FileNotFoundError: [Errno 2] No such file or directory".

(** The machine of [demo_os] with the working directory removed. *)
Definition removed_cwd_os (h : list str) : OS :=
  {| machine := unit;
     HAVE_READLINE := true;
     get_history := fun _ => h;
     getcwd := fun _ => Throws no_such_directory;
     chdir := fun _ u => (None, u);
     call_shell := fun _ u => (Returns 0%Z, u);
     popen_wait := fun _ u => (Exited 0%Z, u);
     line_read := fun _ u => u;
     startup := fun _ u => u |}.

(** The store in which [x] is bound to [1]. *)
Definition x_is_1 : dict := [(lit "x", lit "1")].

(** The store in which [x] is bound to a reference to [y], and [y] to [1]. *)
Definition x_refers_to_y : dict := [(lit "x", lit "${y}"); (lit "y", lit "1")].

(** Case analysis along the tests of [handle_command]. *)
Ltac split_ifs :=
  repeat match goal with
    | |- context [if ?b then _ else _] => destruct b eqn:?
    | |- context [let (_, _) := ?p in _] => destruct p eqn:?
    | |- context [match ?p with (_, _) => _ end] => destruct p eqn:?
    | |- context [match ?o with Some _ => _ | None => _ end] =>
        destruct o eqn:?
    | |- context [match ?x with
                  | Shlex.Ok _ => _
                  | Shlex.ValueError _ => _
                  end] => destruct x eqn:?
    | |- context [match ?x with
                  | Exited _ => _
                  | FileNotFoundError => _
                  | OtherException _ => _
                  end] => destruct x eqn:?
    | |- context [match ?x with Returns _ => _ | Throws _ => _ end] =>
        destruct x eqn:?
    end.

(* ================================================================== *)
(** ** The entry point: [main] *)


(* ================================================================== *)
(** ** Subcommand discovery: [detect_git_subcommands] *)

(** [s.splitlines()]: the line boundaries are the line feed, the carriage
    return (with a line feed after it, when there is one), the vertical tab,
    the form feed, the file, group and record separators, the next-line
    character and the line and paragraph separators. *)
Definition is_linebreak (c : char) : bool :=
  in_range 10 13 c || in_range 28 30 c || N.eqb c 133 || N.eqb c 8232
  || N.eqb c 8233.

Fixpoint splitlines_from (cur : str) (s : str) : list str :=
  match s with
  | [] => match cur with [] => [] | _ :: _ => [cur] end
  | c :: s' =>
      if is_linebreak c then
        cur :: match s' with
               | d :: s'' =>
                   if N.eqb c 13 && N.eqb d 10 then splitlines_from [] s''
                   else splitlines_from [] s'
               | [] => splitlines_from [] s'
               end
      else splitlines_from (cur ++ [c]) s'
  end.

Definition splitlines (s : str) : list str := splitlines_from [] s.

(** The classes [[a-z0-9]], [[a-z0-9-]] and [[ ,]]. *)
Definition lower_alnum (c : char) : bool :=
  in_range 97 122 c || in_range 48 57 c.
Definition name_char (c : char) : bool := lower_alnum c || N.eqb c (chr "-").
Definition list_sep (c : char) : bool :=
  N.eqb c (chr " ") || N.eqb c (chr ",").

(** [re.match] of the first pattern, anchored at both ends: a character of
    [[a-z0-9]], then characters of [[a-z0-9-]] in which a separator of
    [[ ,]] may stand wherever a character of [[a-z0-9-]] comes before and
    after it.  The closing anchor also matches before a line feed that ends
    the text.  [names_tail] reads what follows the first character,
    [after_sep] telling that the character just read is a separator. *)
Fixpoint names_tail (after_sep : bool) (s : str) : bool :=
  match s with
  | [] => negb after_sep
  | c :: s' =>
      if name_char c then names_tail false s'
      else if list_sep c then negb after_sep && names_tail true s'
      else N.eqb c 10 && negb after_sep
           && match s' with [] => true | _ :: _ => false end
  end.

Definition match_name_list (line : str) : bool :=
  match line with
  | [] => false
  | c :: s => lower_alnum c && names_tail false s
  end.

(** [re.split(pattern, s)] for a pattern that matches the non-empty runs of
    the characters [sep]: the pieces between the runs, empty pieces at the
    ends included.  [cur] is the piece being read and [in_run] tells that
    the character just read belongs to a run. *)
Fixpoint re_split_runs (sep : char -> bool) (cur : str) (in_run : bool)
    (s : str) : list str :=
  match s with
  | [] => [cur]
  | c :: s' =>
      if sep c then
        if in_run then re_split_runs sep [] true s'
        else cur :: re_split_runs sep [] true s'
      else re_split_runs sep (cur ++ [c]) false s'
  end.

(** A Python [set] of strings, as the list of its elements without
    repetition.  The order of the list is not observable: the program only
    tests such a set for emptiness and sorts it.  [set_add] is [s.add(x)]. *)
Definition set_add (x : str) (s : list str) : list str :=
  if existsb (str_eqb x) s then s else s ++ [x].

(** The word characters of [re], which decide where the boundaries of the
    second pattern are: the alphanumeric characters and the underscore.  Below
    128 these are the digits and the letters; above, [unicode_alnum] stands
    for the table behind [str.isalnum]. *)
Definition is_word (unicode_alnum : char -> bool) (c : char) : bool :=
  if N.ltb c 128 then
    in_range 48 57 c || in_range 65 90 c || in_range 97 122 c || N.eqb c 95
  else unicode_alnum c.

(** The group of the second pattern once the leading blanks are read: the
    longest non-empty prefix of the run of [[a-z0-9-]] after which there is
    a word boundary.  The run is given reversed, its last character first,
    with the character that follows it; the matcher gives characters back
    one by one. *)
Fixpoint longest_bounded (unicode_alnum : char -> bool) (rev_run : str)
    (next : option char) : option str :=
  match rev_run with
  | [] => None
  | c :: rev_shorter =>
      if xorb (is_word unicode_alnum c)
              (match next with
               | Some d => is_word unicode_alnum d
               | None => false
               end)
      then Some (rev rev_run)
      else longest_bounded unicode_alnum rev_shorter (Some c)
  end.

(** [re.match] of the second pattern: two whitespace characters or more,
    then the group.  The answer is [m.group(1)]. *)
Definition match_indented (unicode_alnum : char -> bool) (line : str)
  : option str :=
  let (blanks, rest) := span isspace line in
  if Nat.leb 2 (length blanks) then
    let (run, after) := span name_char rest in
    longest_bounded unicode_alnum (rev run) (hd_error after)
  else None.

(** The body of the first loop. *)
Definition scan_list_line (cmds : list str) (line : str) : list str :=
  let line := strip line in
  if negb (Shlex.nonempty line) then cmds
  else if match_name_list line then
    fold_left (fun cmds tok => if Shlex.nonempty tok then set_add tok cmds
                               else cmds)
              (re_split_runs list_sep [] false line) cmds
  else cmds.

(** The body of the second loop. *)
Definition scan_indented_line (unicode_alnum : char -> bool)
    (cmds : list str) (line : str) : list str :=
  match match_indented unicode_alnum line with
  | Some name => set_add name cmds
  | None => cmds
  end.

(** [check_output argv] is what [subprocess.check_output] answers for the
    argument vector: the text the child printed, or [None] when the call
    raises. *)
Definition detect_git_subcommands (unicode_alnum : char -> bool)
    (check_output : list str -> option str) (base_cmd : str) : list str :=
  if negb (str_eqb (basename base_cmd) (lit "git")) then []
  else
    match check_output [base_cmd; lit "help"; lit "-a"] with
    | None => []
    | Some out =>
        let cmds := fold_left scan_list_line (splitlines out) [] in
        fold_left (scan_indented_line unicode_alnum) (splitlines out) cmds
    end.

(* ================================================================== *)
(** ** Tab completion: [completer] *)

(** [a <= b] on strings, by code points. *)
Fixpoint str_leb (a b : str) : bool :=
  match a, b with
  | [], _ => true
  | _ :: _, [] => false
  | x :: a', y :: b' => N.ltb x y || (N.eqb x y && str_leb a' b')
  end.

(** [sorted(s)]: the elements in ascending order. *)
Fixpoint insert_sorted (x : str) (l : list str) : list str :=
  match l with
  | [] => [x]
  | y :: l' => if str_leb x y then x :: l else y :: insert_sorted x l'
  end.

Definition sorted (l : list str) : list str := fold_right insert_sorted [] l.

(** [p.rstrip("/")] *)
Definition rstrip_slashes (p : str) : str :=
  rev (snd (span (fun c => N.eqb c (chr "/")) (rev p))).

(** [os.path.split(p)] on POSIX: the text up to the last slash and the text
    after it; the slashes that end the head are dropped unless the head is
    made of slashes only. *)
Definition path_split (p : str) : str * str :=
  let (rev_tail, rev_head) :=
    span (fun c => negb (N.eqb c (chr "/"))) (rev p) in
  let head := rev rev_head in
  let tail := rev rev_tail in
  (if Shlex.nonempty head && negb (forallb (fun c => N.eqb c (chr "/")) head)
   then rstrip_slashes head else head,
   tail).

(** [os.path.join(a, b)] on POSIX. *)
Definition path_join (a b : str) : str :=
  if startswith (lit "/") b then b
  else if negb (Shlex.nonempty a) || endswith (lit "/") a then a ++ b
  else a ++ lit "/" ++ b.

(** The file system as the completer sees it: [listdir] answers [None] when
    [os.listdir] raises. *)
Record FS : Type := {
  listdir : str -> option (list str);
  isdir : str -> bool
}.

(** What a call of the completer ends with. *)
Inductive completion : Type :=
| Raised (msg : str)         (* [ValueError] out of [shlex.split] *)
| NoCandidate                (* [None] *)
| Candidate (c : str).

(** The candidates among the entries of a directory. *)
Definition file_candidates (fs : FS) (text : str) : list str :=
  let (dirname, partial) := path_split text in
  let dirname := if Shlex.nonempty dirname then dirname else lit "." in
  match listdir fs dirname with
  | None => []
  | Some names =>
      flat_map (fun name =>
                  if startswith partial name then
                    let path := path_join dirname name in
                    if isdir fs path then [path_join dirname name ++ lit "/"]
                    else [path_join dirname name]
                  else [])
               names
  end.

(** [completer(text, state)], for the [subcommands] it was built with, the
    line buffer [buffer] and the index [begin] that readline reports. *)
Definition completer (fs : FS) (subcommands : list str) (buffer : str)
    (begin : nat) (text : str) (state : nat) : completion :=
  let typed := firstn begin buffer in
  match (if Shlex.nonempty typed then Shlex.split typed else Shlex.Ok []) with
  | Shlex.ValueError msg => Raised msg
  | Shlex.Ok tokens =>
      if startswith (lit "!") (strip buffer) then NoCandidate
      else
        let candidates :=
          match tokens with
          | [] =>
              match subcommands with
              | [] => []
              | _ :: _ => filter (startswith text) (sorted subcommands)
              end
          | _ :: _ => file_candidates fs text
          end in
        match nth_error candidates state with
        | Some c => Candidate c
        | None => NoCandidate
        end
  end.

(* ================================================================== *)
(** ** Further vocabulary *)

(** The texts handed to the host shell in a trace. *)
Definition shell_calls (evs : list event) : list str :=
  flat_map (fun e => match e with Shell cmd => [cmd] | _ => [] end) evs.

(** The paths handed to [os.chdir] in a trace. *)
Definition chdirs (evs : list event) : list str :=
  flat_map (fun e => match e with Chdir path => [path] | _ => [] end) evs.


(** The writes of the history file in a trace. *)
Definition history_writes (evs : list event) : nat :=
  length (filter (fun e => match e with WriteHistory => true | _ => false end)
                 evs).

(** The line the [vars] built-in prints for a binding. *)
Definition vars_line (kv : str * str) : event :=
  Stdout (fst kv ++ lit "=" ++ snd kv).

(** A line that the [set] built-in turns into a binding. *)
Definition binds (raw : str) : bool :=
  startswith (lit ":") raw
  && startswith (lit "set ") (strip (skipn 1 raw))
  && contains (chr "=") (strip (skipn 4 (strip (skipn 1 raw)))).

(** A character that the tokenizer and the substitution engine both copy:
    no blank of the tokenizer, no quote, no backslash and no dollar sign. *)
Definition bare_char (c : char) : bool :=
  negb (Shlex.in_whitespace c) && negb (Shlex.in_quotes c)
  && negb (Shlex.in_escape c) && negb (N.eqb c (chr "$")).

(** A non-empty word of such characters. *)
Definition bare_word (w : str) : bool :=
  Shlex.nonempty w && forallb bare_char w.

(** Words written on one line with a single space between them. *)
Fixpoint join_words (words : list str) : str :=
  match words with
  | [] => []
  | [w] => w
  | w :: rest => w ++ chr " " :: join_words rest
  end.

(** The primary prompt of a session. *)
Definition primary_prompt (base_cmd : str) : str :=
  PROMPT_COLOR ++ basename base_cmd ++ lit ">" ++ RESET ++ lit " ".

(** The outer loop of [run_repl] from a given store and machine, with the
    prompts [run_repl] builds. *)
Definition session (os : OS) (base_cmd : str) (base_args : list str)
    (vars_map : dict) (stdin : list str) (m : machine os)
  : list event * dict * machine os * option str :=
  repl_loop (S (length stdin)) os base_cmd base_args (primary_prompt base_cmd)
            (lit "..> ") vars_map stdin m.

(** A line that holds blanks only and does not ask for a continuation. *)
Definition blank_line (line : str) : Prop :=
  endswith (lit "\") line = false /\ strip line = [].

(** A non-empty string of characters of [[a-z0-9-]]. *)
Definition subcommand_name (n : str) : Prop :=
  Shlex.nonempty n = true /\ forallb name_char n = true.

(** A string whose first character is of [[a-z0-9]]. *)
Definition starts_lower_alnum (s : str) : bool :=
  match s with c :: _ => lower_alnum c | [] => false end.

(** A string whose last character is of [[a-z0-9]]. *)
Definition ends_lower_alnum (s : str) : bool := starts_lower_alnum (rev s).

(** No whitespace at the end. *)
Definition clean_tail (s : str) : Prop :=
  forall a c, s = a ++ [c] -> isspace c = false.

(** A help text in the two layouts: names on a line of their own, and names
    at the head of an indented line with their description. *)
Definition sample_help : str :=
  lit "Main Porcelain Commands" ++ [10%N]
  ++ lit "   add                  Add file contents to the index" ++ [10%N]
  ++ lit "   am                   Apply a series of patches" ++ [10%N]
  ++ lit "  bisect branch " ++ [10%N].

(** A [check_output] that answers with the sample help text. *)
Definition sample_check_output (argv : list str) : option str :=
  Some sample_help.

(** A table without alphanumeric characters above 127. *)
Definition no_unicode_alnum (c : char) : bool := false.


(** A list of strings in ascending order. *)
Fixpoint ascending (l : list str) : Prop :=
  match l with
  | [] => True
  | x :: l' => Forall (fun y => str_leb x y = true) l' /\ ascending l'
  end.

(** What [completer] answers for a state, given its list of candidates. *)
Definition pick (candidates : list str) (state : nat) : completion :=
  match nth_error candidates state with
  | Some c => Candidate c
  | None => NoCandidate
  end.

(** A file system with three entries in the current directory, one of them
    a directory. *)
Definition sample_fs : FS :=
  {| listdir := fun d =>
       if str_eqb d (lit ".")
       then Some [lit "src"; lit "setup.py"; lit "README"]
       else None;
     isdir := fun p => str_eqb p (lit "./src") |}.

(** The directory the completer lists for a text, and the beginning that
    the entries must have. *)
Definition listed_directory (text : str) : str :=
  if Shlex.nonempty (fst (path_split text)) then fst (path_split text)
  else lit ".".

Definition entry_prefix (text : str) : str := snd (path_split text).

(** The candidate the completer makes of a directory entry. *)
Definition entry_candidate (fs : FS) (text name : str) : str :=
  path_join (listed_directory text) name
  ++ (if isdir fs (path_join (listed_directory text) name) then lit "/"
      else []).

(* ================================================================== *)
(** * Properties *)

(** ** Facts about strings and dictionaries *)

Lemma str_eqb_eq (a b : str) : str_eqb a b = true <-> a = b.
Proof.
  revert b; induction a as [|x a IH]; intros [|y b]; simpl;
    try (split; [discriminate | congruence]); try tauto.
  rewrite andb_true_iff, N.eqb_eq, IH. split.
  - intros [-> ->]; reflexivity.
  - intros H; injection H; auto.
Qed.

Lemma str_eqb_refl (a : str) : str_eqb a a = true.
Proof. apply str_eqb_eq; reflexivity. Qed.

Lemma str_eqb_neq (a b : str) : str_eqb a b = false <-> a <> b.
Proof.
  rewrite <- str_eqb_eq. destruct (str_eqb a b); split; congruence.
Qed.

Lemma startswith_split (p s : str) :
  startswith p s = true -> s = p ++ skipn (length p) s.
Proof.
  revert s; induction p as [|x p IH]; intros [|y s]; simpl; try congruence.
  rewrite andb_true_iff, N.eqb_eq. intros [-> H]. f_equal; auto.
Qed.

Lemma span_app (p : char -> bool) (a b : str) :
  span p (a ++ b) =
  match span p a with
  | (x, []) => let (x', y') := span p b in (x ++ x', y')
  | (x, y) => (x, y ++ b)
  end.
Proof.
  induction a as [|c a IH]; simpl.
  - destruct (span p b); reflexivity.
  - destruct (p c); [|reflexivity].
    rewrite IH. destruct (span p a) as [x [|d y]]; [|reflexivity].
    destruct (span p b); reflexivity.
Qed.

Lemma span_all (p : char -> bool) (a : str) :
  forallb p a = true -> span p a = (a, []).
Proof.
  induction a as [|c a IH]; simpl; [reflexivity|].
  rewrite andb_true_iff. intros [-> H]. rewrite IH; auto.
Qed.

Lemma span_stop (p : char -> bool) (c : char) (s : str) :
  p c = false -> span p (c :: s) = ([], c :: s).
Proof. simpl. intros ->. reflexivity. Qed.

Lemma span_parts (p : char -> bool) (s : str) :
  s = fst (span p s) ++ snd (span p s).
Proof.
  induction s as [|c s IH]; simpl; [reflexivity|].
  destruct (p c); [|reflexivity].
  destruct (span p s); simpl in *. congruence.
Qed.

Lemma span_prefix_all (p : char -> bool) (s : str) :
  forallb p (fst (span p s)) = true.
Proof.
  induction s as [|c s IH]; simpl; [reflexivity|].
  destruct (p c) eqn:E; [|reflexivity].
  destruct (span p s); simpl in *. rewrite E; auto.
Qed.

(** ** Decimal numerals *)

Lemma lit_String (a : ascii) (s : string) :
  lit (String a s) = N_of_ascii a :: lit s.
Proof. reflexivity. Qed.

Lemma digits_value_acc (d : Decimal.uint) :
  forall p : positive,
    digits_value (Z.pos p) (lit (NilEmpty.string_of_uint d))
    = Some (Z.pos (Pos.of_uint_acc d p)).
Proof.
  induction d as [|d IH|d IH|d IH|d IH|d IH|d IH|d IH|d IH|d IH|d IH];
    intros p; cbn [NilEmpty.string_of_uint Pos.of_uint_acc];
    [reflexivity | ..];
    rewrite lit_String; cbn [digits_value];
    match goal with
    | |- context [in_range 48 57 ?c] =>
        change (in_range 48 57 c) with true; cbv iota
    end;
    rewrite <- IH; f_equal;
    match goal with
    | |- context [Z.of_N ?e] =>
        let v := eval vm_compute in (Z.of_N e) in change (Z.of_N e) with v
    end; lia.
Qed.

Lemma digits_value_uint (d : Decimal.uint) :
  digits_value 0 (lit (NilEmpty.string_of_uint d))
  = Some (Z.of_N (Pos.of_uint d)).
Proof.
  induction d as [|d IH|d IH|d IH|d IH|d IH|d IH|d IH|d IH|d IH|d IH];
    cbn [NilEmpty.string_of_uint Pos.of_uint]; [reflexivity | exact IH | ..];
    rewrite lit_String; cbn [digits_value];
    match goal with
    | |- context [in_range 48 57 ?c] =>
        change (in_range 48 57 c) with true; cbv iota
    end;
    cbn [Z.of_N]; rewrite <- digits_value_acc; reflexivity.
Qed.

Lemma digits_value_numeral (d : Decimal.uint) :
  digits_value 0 (lit (NilZero.string_of_uint d)) = Some (Z.of_uint d).
Proof.
  unfold Z.of_uint. destruct d; try apply digits_value_uint. reflexivity.
Qed.

Lemma numeral_nonempty (d : Decimal.uint) :
  Shlex.nonempty (lit (NilZero.string_of_uint d)) = true.
Proof. destruct d; reflexivity. Qed.

Lemma numeral_no_sign (d : Decimal.uint) :
  exists c s, lit (NilZero.string_of_uint d) = c :: s
              /\ N.eqb c (chr "-") = false.
Proof. destruct d; eexists; eexists; split; reflexivity. Qed.

(** The numeral printed for an integer denotes that integer. *)
Lemma int_of_str_of_int (z : Z) : int_of_str (str_of_int z) = Some z.
Proof.
  unfold str_of_int. rewrite <- (DecimalZ.of_to z) at 2.
  destruct (Z.to_int z) as [d|d]; cbn [NilZero.string_of_int Z.of_int].
  - destruct (numeral_no_sign d) as (c & s & E & Hc).
    pose proof (digits_value_numeral d) as H. rewrite E in *.
    cbn [int_of_str]. rewrite Hc. exact H.
  - rewrite lit_String. cbn [int_of_str].
    change (N.eqb (N_of_ascii "-") (chr "-")) with true. cbv iota.
    rewrite numeral_nonempty, digits_value_numeral. reflexivity.
Qed.

(** ** Substitution *)

Section Substitution.

Variable repl : str -> str.

Lemma match_ref_shape (s key rest : str) :
  match_ref s = Some (key, rest) ->
  s = group0 key ++ rest /\ is_identifier key = true.
Proof.
  destruct s as [|c1 [|c2 [|c s]]]; cbn [match_ref]; try discriminate.
  destruct (N.eqb_spec c1 (chr "$")); [|discriminate].
  destruct (N.eqb_spec c2 (chr "{")); [|discriminate].
  destruct (is_ident_start c) eqn:Hc; cbn [andb]; [|discriminate].
  pose proof (span_parts is_ident_char s) as Hs.
  pose proof (span_prefix_all is_ident_char s) as Ha.
  destruct (span is_ident_char s) as [more [|c3 tl]]; [discriminate|].
  destruct (N.eqb_spec c3 (chr "}")); [|discriminate].
  intros H; injection H as <- <-. cbn [fst snd] in Hs, Ha.
  subst c1 c2 c3. rewrite Hs. split.
  - unfold group0. simpl. rewrite <- app_assoc. reflexivity.
  - cbn [is_identifier]. rewrite Hc, Ha. reflexivity.
Qed.

Lemma match_ref_shorter (s key rest : str) :
  match_ref s = Some (key, rest) -> length rest < length s.
Proof.
  intros H. apply match_ref_shape in H as [-> _].
  unfold group0. rewrite !length_app. simpl. lia.
Qed.

Lemma re_sub_fuel (f1 f2 : nat) (s : str) :
  length s <= f1 -> length s <= f2 -> re_sub f1 repl s = re_sub f2 repl s.
Proof.
  revert f2 s. induction f1 as [|f1 IH]; intros f2 s H1 H2.
  - destruct s; [|simpl in H1; lia]. destruct f2; reflexivity.
  - destruct f2 as [|f2]; [destruct s; [reflexivity | simpl in H2; lia]|].
    simpl. destruct s as [|c s]; [reflexivity|].
    destruct (match_ref (c :: s)) as [[key rest]|] eqn:E.
    + apply match_ref_shorter in E. f_equal. apply IH; lia.
    + f_equal. apply IH; simpl in *; lia.
Qed.

Lemma re_sub_cons (c : char) (s : str) :
  re_sub (length (c :: s)) repl (c :: s) =
  match match_ref (c :: s) with
  | Some (key, rest) => repl key ++ re_sub (length rest) repl rest
  | None => c :: re_sub (length s) repl s
  end.
Proof.
  cbn [length re_sub].
  destruct (match_ref (c :: s)) as [[key rest]|] eqn:E.
  - apply match_ref_shorter in E. f_equal.
    apply re_sub_fuel; simpl in *; lia.
  - reflexivity.
Qed.

End Substitution.

Lemma expand_vars_nil (V : dict) : expand_vars [] V = [].
Proof. reflexivity. Qed.

(** The unfolding of [expand_vars] along the scan. *)
Lemma expand_vars_cons (V : dict) (c : char) (s : str) :
  expand_vars (c :: s) V =
  match match_ref (c :: s) with
  | Some (key, rest) => lookup_or_literal V key ++ expand_vars rest V
  | None => c :: expand_vars s V
  end.
Proof. unfold expand_vars. rewrite re_sub_cons. reflexivity. Qed.

Lemma match_ref_group0 (id post : str) :
  is_identifier id = true -> match_ref (group0 id ++ post) = Some (id, post).
Proof.
  destruct id as [|c id]; simpl; [discriminate|].
  rewrite andb_true_iff. intros [-> Hid]. simpl.
  rewrite <- app_assoc, span_app, (span_all _ _ Hid). simpl.
  rewrite app_nil_r. reflexivity.
Qed.

Lemma match_ref_app_some (pre key rest x : str) :
  match_ref pre = Some (key, rest) ->
  match_ref (pre ++ x) = Some (key, rest ++ x).
Proof.
  intros H. destruct (match_ref_shape _ _ _ H) as [-> Hid].
  rewrite <- app_assoc. apply match_ref_group0, Hid.
Qed.

(** A failed attempt stays failed when the text goes on with a dollar sign. *)
Lemma match_ref_app_none (pre x : str) :
  match_ref pre = None -> pre <> [] ->
  match_ref (pre ++ chr "$" :: x) = None.
Proof.
  destruct pre as [|c1 [|c2 [|c s]]]; intros H Hne.
  - congruence.
  - simpl. destruct x as [|? ?]; [reflexivity|].
    rewrite andb_false_r. reflexivity.
  - cbn [app match_ref].
    replace (is_ident_start (chr "$")) with false by reflexivity.
    rewrite andb_false_r. reflexivity.
  - cbn [app match_ref] in *.
    destruct (N.eqb c1 (chr "$") && N.eqb c2 (chr "{") && is_ident_start c);
      [|reflexivity].
    rewrite span_app.
    destruct (span is_ident_char s) as [more [|c3 tl]].
    + rewrite span_stop by reflexivity. reflexivity.
    + simpl. destruct (N.eqb c3 (chr "}")); [discriminate | reflexivity].
Qed.

Lemma expand_vars_group0 (V : dict) (id post : str) :
  is_identifier id = true ->
  expand_vars (group0 id ++ post) V =
  lookup_or_literal V id ++ expand_vars post V.
Proof.
  intros Hid. pose proof (match_ref_group0 id post Hid) as M.
  change (group0 id ++ post)
    with (chr "$" :: (chr "{" :: id ++ lit "}") ++ post) in *.
  rewrite expand_vars_cons, M. reflexivity.
Qed.

Lemma expand_vars_app_ref (V : dict) (pre id post : str) :
  is_identifier id = true ->
  expand_vars (pre ++ group0 id ++ post) V =
  expand_vars pre V ++ lookup_or_literal V id ++ expand_vars post V.
Proof.
  intros Hid. remember (length pre) as n eqn:Hn.
  revert pre Hn. induction n as [n IH] using lt_wf_ind. intros pre Hn.
  destruct pre as [|c pre].
  - rewrite expand_vars_nil. apply expand_vars_group0, Hid.
  - cbn [app]. rewrite !expand_vars_cons.
    destruct (match_ref (c :: pre)) as [[key rest]|] eqn:E.
    + change (c :: pre ++ group0 id ++ post)
        with ((c :: pre) ++ group0 id ++ post).
      rewrite (match_ref_app_some _ _ _ _ E).
      apply match_ref_shorter in E.
      rewrite (IH (length rest)) by (subst; auto). rewrite <- app_assoc.
      reflexivity.
    + change (c :: pre ++ group0 id ++ post)
        with ((c :: pre) ++ chr "$" :: (chr "{" :: id ++ lit "}") ++ post).
      rewrite match_ref_app_none by (auto; discriminate).
      cbn [app]. f_equal.
      apply (IH (length pre)); subst; simpl; auto.
Qed.

Lemma match_ref_opener (s : str) :
  startswith (lit "${") s = false -> match_ref s = None.
Proof.
  destruct s as [|c1 [|c2 [|c s]]]; try reflexivity.
  change (lit "${") with [chr "$"; chr "{"]. cbn [startswith match_ref].
  rewrite andb_true_r, (N.eqb_sym (chr "$")), (N.eqb_sym (chr "{")).
  intros ->. reflexivity.
Qed.

Lemma expand_vars_no_opener (V : dict) (s : str) :
  has_ref_opener s = false -> expand_vars s V = s.
Proof.
  induction s as [|c s IH]; [reflexivity|].
  cbn [has_ref_opener]. rewrite orb_false_iff. intros [H1 H2].
  rewrite expand_vars_cons, match_ref_opener by exact H1.
  f_equal. auto.
Qed.

(** C1. For every variable map [V]: an occurrence of a reference to an
    identifier [id], wherever it stands in the line, is replaced by the value
    [V] has for [id] when [id] is a key of [V], and is left as it is written
    when [id] is not a key; the text before and the text after the occurrence
    are expanded on their own and the value put in is copied as it is, not
    scanned again; and a line in which no dollar sign is followed by an
    opening brace is returned unchanged. *)
Theorem expand_vars_spec (V : dict) :
  (forall pre id post v,
      is_identifier id = true -> dict_get id V = Some v ->
      expand_vars (pre ++ lit "${" ++ id ++ lit "}" ++ post) V
      = expand_vars pre V ++ v ++ expand_vars post V)
  /\ (forall pre id post,
      is_identifier id = true -> dict_get id V = None ->
      expand_vars (pre ++ lit "${" ++ id ++ lit "}" ++ post) V
      = expand_vars pre V ++ (lit "${" ++ id ++ lit "}") ++ expand_vars post V)
  /\ (forall s, has_ref_opener s = false -> expand_vars s V = s).
Proof.
  split; [|split].
  - intros pre id post v Hid Hv.
    pose proof (expand_vars_app_ref V pre id post Hid) as H.
    unfold group0, lookup_or_literal in H. rewrite Hv in H.
    rewrite <- !app_assoc in H. exact H.
  - intros pre id post Hid Hv.
    pose proof (expand_vars_app_ref V pre id post Hid) as H.
    unfold lookup_or_literal in H. rewrite Hv in H. unfold group0 in H.
    rewrite <- !app_assoc in H. rewrite <- !app_assoc. exact H.
  - intros s. apply expand_vars_no_opener.
Qed.

(** ** The forwarding handler *)

Section Forwarding.

Variable os : OS.
Variables (base_cmd : str) (base_args : list str).
Variables (raw : str) (vars_map : dict) (m : machine os).
Hypothesis Hfwd : forwarded raw.

Lemma handle_forward_parse_error (msg : str) :
  Shlex.split (expand_vars raw vars_map) = Shlex.ValueError msg ->
  handle_command os raw base_cmd base_args vars_map m =
  {| result := Continue; trace := [Stderr (lit "parse error: " ++ msg)];
     vars_after := vars_map; machine_after := m |}.
Proof.
  intros H. destruct Hfwd as [H1 H2].
  unfold handle_command. rewrite H1, H2, H. reflexivity.
Qed.

Lemma handle_forward_exited (args : list str) (rc : Z) (m' : machine os) :
  Shlex.split (expand_vars raw vars_map) = Shlex.Ok args ->
  popen_wait os ([base_cmd] ++ base_args ++ args) m = (Exited rc, m') ->
  handle_command os raw base_cmd base_args vars_map m =
  {| result := Normal;
     trace := Popen ([base_cmd] ++ base_args ++ args) ::
              (if Z.eqb rc 0 then []
               else [Stderr (lit "[" ++ basename base_cmd
                             ++ lit "] exited with code " ++ str_of_int rc)]);
     vars_after := vars_map; machine_after := m' |}.
Proof.
  intros H Hp. destruct Hfwd as [H1 H2].
  unfold handle_command. rewrite H1, H2, H. rewrite Hp. reflexivity.
Qed.

Lemma handle_forward_not_found (args : list str) (m' : machine os) :
  Shlex.split (expand_vars raw vars_map) = Shlex.Ok args ->
  popen_wait os ([base_cmd] ++ base_args ++ args) m = (FileNotFoundError, m') ->
  handle_command os raw base_cmd base_args vars_map m =
  {| result := Break;
     trace := [Popen ([base_cmd] ++ base_args ++ args);
               Stderr (lit "Command not found: " ++ base_cmd)];
     vars_after := vars_map; machine_after := m' |}.
Proof.
  intros H Hp. destruct Hfwd as [H1 H2].
  unfold handle_command. rewrite H1, H2, H. rewrite Hp. reflexivity.
Qed.

Lemma handle_forward_exception (args : list str) (e : str)
    (m' : machine os) :
  Shlex.split (expand_vars raw vars_map) = Shlex.Ok args ->
  popen_wait os ([base_cmd] ++ base_args ++ args) m = (OtherException e, m') ->
  handle_command os raw base_cmd base_args vars_map m =
  {| result := Normal;
     trace := [Popen ([base_cmd] ++ base_args ++ args); Stderr e];
     vars_after := vars_map; machine_after := m' |}.
Proof.
  intros H Hp. destruct Hfwd as [H1 H2].
  unfold handle_command. rewrite H1, H2, H. rewrite Hp. reflexivity.
Qed.

Lemma handle_forward_spawned (args : list str) :
  Shlex.split (expand_vars raw vars_map) = Shlex.Ok args ->
  let r := handle_command os raw base_cmd base_args vars_map m in
  spawned (trace r) = [[base_cmd] ++ base_args ++ args]
  /\ machine_after r = snd (popen_wait os ([base_cmd] ++ base_args ++ args) m).
Proof.
  intros H.
  destruct (popen_wait os ([base_cmd] ++ base_args ++ args) m)
    as [[rc| |e] m'] eqn:Hp.
  - cbv zeta. rewrite (handle_forward_exited _ _ _ H Hp). simpl.
    destruct (Z.eqb rc 0); auto.
  - cbv zeta. rewrite (handle_forward_not_found _ _ H Hp). auto.
  - cbv zeta. rewrite (handle_forward_exception _ _ _ H Hp). auto.
Qed.

End Forwarding.

Lemma forwarded_status : forwarded (lit "status").
Proof. split; reflexivity. Qed.

(** C2. A forwarded line that tokenizes into [args] starts exactly one child
    process, and its argument vector is the base command, then the base
    arguments, then [args]; that vector is the one the process service
    receives.  In particular the line [status] under the base command [git]
    with no base arguments starts [git status]. *)
Theorem forward_spawns_base_then_args (os : OS) (vars_map : dict)
    (m : machine os) :
  (forall raw base_cmd base_args args,
      forwarded raw ->
      Shlex.split (expand_vars raw vars_map) = Shlex.Ok args ->
      let r := handle_command os raw base_cmd base_args vars_map m in
      spawned (trace r) = [[base_cmd] ++ base_args ++ args]
      /\ machine_after r
         = snd (popen_wait os ([base_cmd] ++ base_args ++ args) m))
  /\ spawned (trace (handle_command os (lit "status") (lit "git") []
                                    vars_map m))
     = [[lit "git"; lit "status"]].
Proof.
  split.
  - intros raw base_cmd base_args args Hf Hs.
    apply handle_forward_spawned; assumption.
  - assert (Hs : Shlex.split (expand_vars (lit "status") vars_map)
                 = Shlex.Ok [lit "status"]).
    { rewrite expand_vars_no_opener by reflexivity. reflexivity. }
    apply (handle_forward_spawned os (lit "git") [] _ vars_map m
                                  forwarded_status _ Hs).
Qed.

(** ** One turn of the session loop *)

Section LoopTurn.

Variable os : OS.
Variables (base_cmd : str) (base_args : list str) (prompt cont_prompt : str).
Variables (vars_map : dict) (stdin stdin' : list str) (m m1 : machine os).
Variables (evs : list event) (raw : str).

Hypothesis Hread :
  read_raw os prompt cont_prompt stdin m = (evs, m1, Some (raw, stdin')).
Hypothesis Hraw : raw <> [].

(** After [Break] the loop ends: the lines left in [stdin'] are not read. *)
Lemma repl_loop_break (fuel : nat) :
  let r := handle_command os raw base_cmd base_args vars_map m1 in
  result r = Break ->
  repl_loop (S fuel) os base_cmd base_args prompt cont_prompt vars_map stdin m
  = (evs ++ trace r, vars_after r, machine_after r, None).
Proof.
  intros r Hb. cbn [repl_loop]. rewrite Hread.
  destruct raw as [|c raw']; [congruence|]. cbn [Shlex.nonempty negb].
  fold r. rewrite Hb. reflexivity.
Qed.

(** An exception that leaves [handle_command] leaves the loop. *)
Lemma repl_loop_escapes (fuel : nat) (exc : str) :
  let r := handle_command os raw base_cmd base_args vars_map m1 in
  result r = Escapes exc ->
  repl_loop (S fuel) os base_cmd base_args prompt cont_prompt vars_map stdin m
  = (evs ++ trace r, vars_after r, machine_after r, Some exc).
Proof.
  intros r Hb. cbn [repl_loop]. rewrite Hread.
  destruct raw as [|c raw']; [congruence|]. cbn [Shlex.nonempty negb].
  fold r. rewrite Hb. reflexivity.
Qed.

(** After ["continue"] or [None] the loop goes on with the lines left. *)
Lemma repl_loop_next (fuel : nat) :
  let r := handle_command os raw base_cmd base_args vars_map m1 in
  result r = Continue \/ result r = Normal ->
  repl_loop (S fuel) os base_cmd base_args prompt cont_prompt vars_map stdin m
  = let '(evs', vars', m', exc) :=
      repl_loop fuel os base_cmd base_args prompt cont_prompt
                (vars_after r) stdin' (machine_after r) in
    (evs ++ trace r ++ evs', vars', m', exc).
Proof.
  intros r Hb. cbn [repl_loop]. rewrite Hread.
  destruct raw as [|c raw']; [congruence|]. cbn [Shlex.nonempty negb].
  fold r. destruct Hb as [-> | ->]; reflexivity.
Qed.

(** The turn as a whole: the logical line read is the one dispatched. *)
Lemma repl_loop_turn (fuel : nat) :
  let r := handle_command os raw base_cmd base_args vars_map m1 in
  repl_loop (S fuel) os base_cmd base_args prompt cont_prompt vars_map stdin m
  = match result r with
    | Break => (evs ++ trace r, vars_after r, machine_after r, None)
    | Escapes exc =>
        (evs ++ trace r, vars_after r, machine_after r, Some exc)
    | _ =>
        let '(evs', vars', m', exc) :=
          repl_loop fuel os base_cmd base_args prompt cont_prompt
                    (vars_after r) stdin' (machine_after r) in
        (evs ++ trace r ++ evs', vars', m', exc)
    end.
Proof.
  intros r. cbn [repl_loop]. rewrite Hread.
  destruct raw as [|c raw']; [congruence|]. reflexivity.
Qed.

End LoopTurn.

(** C3. On a forwarded line whose child process is started: when starting it
    raises the not-found error, the handler writes [Command not found] with
    the base command to the error stream and returns [Break], and the session
    loop that read the line ends without reading further; when the child runs
    and exits with a status other than zero, the handler writes that status
    to the error stream, as a decimal numeral that reads back as the status,
    and does not return [Break], and the session loop goes on with the lines
    that follow. *)
Theorem forward_not_found_breaks_nonzero_continues (os : OS)
    (raw base_cmd : str) (base_args args : list str) (vars_map : dict)
    (m m' : machine os) :
  forwarded raw ->
  Shlex.split (expand_vars raw vars_map) = Shlex.Ok args ->
  let r := handle_command os raw base_cmd base_args vars_map m in
  let full := [base_cmd] ++ base_args ++ args in
  (popen_wait os full m = (FileNotFoundError, m') ->
     result r = Break
     /\ trace r = [Popen full; Stderr (lit "Command not found: " ++ base_cmd)]
     /\ forall fuel prompt cont_prompt stdin stdin' m0 evs,
         read_raw os prompt cont_prompt stdin m0
         = (evs, m, Some (raw, stdin')) ->
         raw <> [] ->
         repl_loop (S fuel) os base_cmd base_args prompt cont_prompt
                   vars_map stdin m0
         = (evs ++ trace r, vars_map, m', None))
  /\ (forall rc, popen_wait os full m = (Exited rc, m') -> rc <> 0%Z ->
     result r <> Break /\ result r = Normal
     /\ trace r = [Popen full;
                   Stderr (lit "[" ++ basename base_cmd
                           ++ lit "] exited with code " ++ str_of_int rc)]
     /\ int_of_str (str_of_int rc) = Some rc
     /\ forall fuel prompt cont_prompt stdin stdin' m0 evs,
         read_raw os prompt cont_prompt stdin m0
         = (evs, m, Some (raw, stdin')) ->
         raw <> [] ->
         repl_loop (S fuel) os base_cmd base_args prompt cont_prompt
                   vars_map stdin m0
         = let '(evs', vars', m'', exc) :=
             repl_loop fuel os base_cmd base_args prompt cont_prompt
                       vars_map stdin' m' in
           (evs ++ trace r ++ evs', vars', m'', exc)).
Proof.
  intros Hf Hs r full. split.
  - intros Hp.
    pose proof (handle_forward_not_found os _ _ _ _ _ Hf _ _ Hs Hp) as E.
    fold r full in E. rewrite E. cbn [result trace]. repeat split.
    intros fuel prompt cont_prompt stdin stdin' m0 evs Hr Hne.
    rewrite (repl_loop_break os base_cmd base_args _ _ vars_map _ _ _ _ _ _
                             Hr Hne fuel); fold r; rewrite E; reflexivity.
  - intros rc Hp Hrc.
    pose proof (handle_forward_exited os _ _ _ _ _ Hf _ _ _ Hs Hp) as E.
    apply Z.eqb_neq in Hrc. rewrite Hrc in E.
    fold r full in E. rewrite E. cbn [result trace].
    split; [discriminate|]. split; [reflexivity|]. split; [reflexivity|].
    split; [apply int_of_str_of_int|].
    intros fuel prompt cont_prompt stdin stdin' m0 evs Hr Hne.
    rewrite (repl_loop_next os base_cmd base_args _ _ vars_map _ _ _ _ _ _
                            Hr Hne fuel); fold r; rewrite E;
      [reflexivity | right; reflexivity].
Qed.

(** ** Malformed quoting *)

Module ShlexFacts.
Import Shlex.

Lemma emit_error (token : str) (quoted : bool) (msg : str) :
  nonempty token || quoted = true ->
  emit token quoted (ValueError msg) = ValueError msg.
Proof. unfold emit. destruct (nonempty token), quoted; simpl; congruence. Qed.

Lemma quote_is_not_blank (q : char) :
  in_quotes q = true -> in_whitespace q = false /\ in_escape q = false.
Proof.
  unfold in_quotes. rewrite orb_true_iff, !N.eqb_eq.
  intros [-> | ->]; split; reflexivity.
Qed.

Lemma read_tokens_plain_prefix (pre rest : str) (msg : str) :
  forallb plain pre = true ->
  (forall st es qd tok, st = st_space \/ st = st_word ->
      read_tokens st es qd tok rest = ValueError msg) ->
  forall st es qd tok, st = st_space \/ st = st_word ->
    read_tokens st es qd tok (pre ++ rest) = ValueError msg.
Proof.
  intros Hpre Hrest. induction pre as [|c pre IH]; [exact Hrest|].
  cbn [forallb] in Hpre. apply andb_true_iff in Hpre as [Hc Hpre].
  unfold plain in Hc. apply andb_true_iff in Hc as [Hq He].
  apply negb_true_iff in Hq, He.
  specialize (IH Hpre).
  intros st es qd tok [-> | ->]; cbn [app read_tokens]; rewrite Hq, He;
    destruct (in_whitespace c); try (apply IH; auto);
    destruct (nonempty tok || qd) eqn:E; try (apply IH; auto);
    rewrite IH by auto; apply emit_error, E.
Qed.

Lemma read_tokens_open_quote (q : char) (body : str) :
  forallb (inside q) body = true ->
  forall es qd tok,
    read_tokens (st_quote q) es qd tok body
    = ValueError (lit "No closing quotation").
Proof.
  induction body as [|c body IH]; intros Hb es qd tok; [reflexivity|].
  cbn [forallb] in Hb. apply andb_true_iff in Hb as [Hc Hb].
  unfold inside in Hc. apply andb_true_iff in Hc as [Hq He].
  apply negb_true_iff in Hq, He.
  cbn [read_tokens]. rewrite Hq, He. cbn [andb]. apply IH, Hb.
Qed.

(** A quotation that is opened outside any other and never closed. *)
Lemma split_unterminated_quote (pre : str) (q : char) (body : str) :
  forallb plain pre = true -> in_quotes q = true ->
  forallb (inside q) body = true ->
  split (pre ++ q :: body) = ValueError (lit "No closing quotation").
Proof.
  intros Hpre Hq Hbody. unfold split.
  apply read_tokens_plain_prefix; auto.
  destruct (quote_is_not_blank q Hq) as [Hw He].
  intros st es qd tok [-> | ->]; cbn [read_tokens]; rewrite Hw, ?He, Hq;
    apply read_tokens_open_quote, Hbody.
Qed.

Lemma blank_is_plain (c : char) :
  in_whitespace c = true -> in_escape c = false /\ in_quotes c = false.
Proof.
  unfold in_whitespace. rewrite !orb_true_iff, !N.eqb_eq.
  intros [[[-> | ->] | ->] | ->]; split; reflexivity.
Qed.

Lemma emit_error_iff (token : str) (quoted : bool) (more : result (list str))
    (msg : str) :
  nonempty token || quoted = true ->
  emit token quoted more = ValueError msg <-> more = ValueError msg.
Proof.
  unfold emit. destruct (nonempty token), quoted; simpl; try discriminate;
    intros _; destruct more; split; congruence.
Qed.

Lemma emit_end (token : str) (quoted : bool) (msg : str) :
  emit token quoted (Ok []) <> ValueError msg.
Proof. unfold emit. destruct (negb quoted && negb (nonempty token)); easy. Qed.

Lemma error_message (text msg : str) :
  @ValueError (list str) text = ValueError msg <-> Some text = Some msg.
Proof. split; congruence. Qed.

(** The tokenizer fails exactly on the texts whose end is not outside, with
    the message of the position the end is in. *)
Lemma read_tokens_error (input : str) :
  forall state escapedstate quoted token msg,
    (state = st_escape -> escapedstate <> st_escape) ->
    read_tokens state escapedstate quoted token input = ValueError msg
    <-> quoting_error (quoting_from (position state escapedstate) input)
        = Some msg.
Proof.
  induction input as [|c rest IH]; intros st es qd tok msg Hwf.
  - cbn [read_tokens quoting_from].
    destruct st; cbn [position quoting_error];
      try (split; [intros H; destruct (emit_end _ _ _ H) | discriminate]).
    + apply error_message.
    + destruct es; apply error_message.
  - cbn [read_tokens quoting_from]. destruct st; cbn [position quoting_step].
    + fold backslash. fold squote. fold dquote. fold (in_escape c).
      fold (in_quotes c).
      destruct (in_whitespace c) eqn:Hw.
      * destruct (blank_is_plain c Hw) as [-> ->].
        destruct (nonempty tok || qd) eqn:E.
        -- rewrite emit_error_iff by exact E. apply IH. discriminate.
        -- apply (IH st_space). discriminate.
      * destruct (in_escape c); [apply IH; discriminate|].
        destruct (in_quotes c); [apply IH; discriminate|].
        apply (IH st_word). discriminate.
    + fold backslash. fold squote. fold dquote. fold (in_escape c).
      fold (in_quotes c).
      destruct (in_whitespace c) eqn:Hw.
      * destruct (blank_is_plain c Hw) as [-> ->].
        destruct (nonempty tok || qd) eqn:E.
        -- rewrite emit_error_iff by exact E. apply IH. discriminate.
        -- apply (IH st_space). discriminate.
      * destruct (in_quotes c) eqn:Hq.
        -- destruct (quote_is_not_blank c Hq) as [_ ->]. apply IH.
           discriminate.
        -- destruct (in_escape c); [apply IH; discriminate|].
           apply (IH st_word). discriminate.
    + fold backslash. fold dquote. fold (in_escape c).
      fold (in_escapedquotes q).
      destruct (N.eqb c q); [apply (IH st_word); discriminate|].
      destruct (in_escape c && in_escapedquotes q); apply IH; discriminate.
    + destruct es; try (apply IH; discriminate).
      destruct (Hwf eq_refl eq_refl).
Qed.

Lemma split_error (s msg : str) :
  split s = ValueError msg <-> quoting_error (quoting_at_end s) = Some msg.
Proof. apply read_tokens_error. discriminate. Qed.

Lemma split_malformed (s : str) :
  malformed_quoting s <-> exists msg, split s = ValueError msg.
Proof.
  unfold malformed_quoting. split.
  - intros H. destruct (quoting_error (quoting_at_end s)) as [msg|] eqn:E.
    + exists msg. apply split_error, E.
    + destruct (quoting_at_end s); try discriminate E. congruence.
  - intros [msg H] E. apply split_error in H. rewrite E in H.
    discriminate H.
Qed.

End ShlexFacts.

(** C4. On a forwarded line whose expanded text has malformed quoting, a
    quotation left open or a backslash with nothing to escape, the tokenizer
    fails, and the handler writes the parse error to the error stream,
    returns [Continue], starts no child process and changes neither the
    variables nor the machine.  The tokenizer fails on the texts with
    malformed quoting and on no other, with [No closing quotation] for an
    open quotation and [No escaped character] for the backslash; whatever
    text it fails on, the handler does the same.  The tokenizer rejects
    every text in which a quotation is opened and not closed, among them the
    line [echo_unterminated]. *)
Theorem malformed_quoting_is_reported (os : OS) (base_cmd : str)
    (base_args : list str) (vars_map : dict) (m : machine os) :
  (forall raw msg,
      forwarded raw ->
      Shlex.split (expand_vars raw vars_map) = Shlex.ValueError msg ->
      let r := handle_command os raw base_cmd base_args vars_map m in
      result r = Continue
      /\ trace r = [Stderr (lit "parse error: " ++ msg)]
      /\ spawned (trace r) = []
      /\ vars_after r = vars_map /\ machine_after r = m)
  /\ (forall s,
      (malformed_quoting s <-> exists msg, Shlex.split s = Shlex.ValueError msg)
      /\ forall msg, Shlex.split s = Shlex.ValueError msg
                     <-> quoting_error (quoting_at_end s) = Some msg)
  /\ (forall raw,
      forwarded raw ->
      malformed_quoting (expand_vars raw vars_map) ->
      exists msg,
        quoting_error (quoting_at_end (expand_vars raw vars_map)) = Some msg
        /\ handle_command os raw base_cmd base_args vars_map m
           = {| result := Continue;
                trace := [Stderr (lit "parse error: " ++ msg)];
                vars_after := vars_map; machine_after := m |})
  /\ (forall pre q body,
      forallb plain pre = true -> Shlex.in_quotes q = true ->
      forallb (inside q) body = true ->
      Shlex.split (pre ++ q :: body)
      = Shlex.ValueError (lit "No closing quotation"))
  /\ (forwarded echo_unterminated
      /\ Shlex.split (expand_vars echo_unterminated vars_map)
         = Shlex.ValueError (lit "No closing quotation")
      /\ handle_command os echo_unterminated base_cmd base_args vars_map m
         = {| result := Continue;
              trace := [Stderr (lit "parse error: No closing quotation")];
              vars_after := vars_map; machine_after := m |}).
Proof.
  split; [|split; [|split; [|split]]].
  - intros raw msg Hf Hs r. subst r.
    rewrite (handle_forward_parse_error os _ _ _ _ _ Hf _ Hs).
    repeat split.
  - intros s. split; [apply ShlexFacts.split_malformed|].
    intros msg. apply ShlexFacts.split_error.
  - intros raw Hf Hm. apply ShlexFacts.split_malformed in Hm as [msg Hs].
    exists msg. split; [apply ShlexFacts.split_error, Hs|].
    apply (handle_forward_parse_error os _ _ _ _ _ Hf _ Hs).
  - apply ShlexFacts.split_unterminated_quote.
  - assert (Hf : forwarded echo_unterminated) by (split; reflexivity).
    assert (Hs : Shlex.split (expand_vars echo_unterminated vars_map)
                 = Shlex.ValueError (lit "No closing quotation")).
    { rewrite expand_vars_no_opener by reflexivity. reflexivity. }
    split; [exact Hf | split; [exact Hs|]].
    apply (handle_forward_parse_error os _ _ _ _ _ Hf _ Hs).
Qed.

(** ** The variable store *)

Lemma dict_get_set_same (k v : str) (d : dict) :
  dict_get k (dict_set k v d) = Some v.
Proof.
  induction d as [|[k' v'] d IH]; simpl.
  - rewrite str_eqb_refl. reflexivity.
  - destruct (str_eqb k k') eqn:E; simpl; rewrite E; auto.
Qed.

Lemma dict_get_set_other (k k' v : str) (d : dict) :
  k' <> k -> dict_get k' (dict_set k v d) = dict_get k' d.
Proof.
  intros Hne. induction d as [|[k0 v0] d IH]; simpl.
  - apply str_eqb_neq in Hne. rewrite Hne. reflexivity.
  - destruct (str_eqb k k0) eqn:E; simpl.
    + apply str_eqb_eq in E. subst k0.
      apply str_eqb_neq in Hne. rewrite Hne. reflexivity.
    + rewrite IH. reflexivity.
Qed.

Lemma dict_set_idem (k v : str) (d : dict) :
  dict_set k v (dict_set k v d) = dict_set k v d.
Proof.
  induction d as [|[k' v'] d IH]; simpl.
  - rewrite str_eqb_refl. reflexivity.
  - destruct (str_eqb k k') eqn:E; simpl; rewrite E; congruence.
Qed.

Lemma dict_set_keys (k v : str) (d : dict) :
  keys (dict_set k v d) =
  if existsb (str_eqb k) (keys d) then keys d else keys d ++ [k].
Proof.
  induction d as [|[k' v'] d IH]; simpl; [reflexivity|].
  destruct (str_eqb k k') eqn:E; simpl; [reflexivity|].
  fold (keys d). fold (keys (dict_set k v d)). rewrite IH.
  destruct (existsb (str_eqb k) (keys d)); reflexivity.
Qed.

Lemma contains_false (c : char) (s : str) :
  contains c s = false -> forallb (fun x : char => negb (N.eqb x c)) s = true.
Proof.
  induction s as [|x s IH]; simpl; [reflexivity|].
  rewrite orb_false_iff, (N.eqb_sym c x). intros [-> H]. simpl. auto.
Qed.

Lemma contains_app (c : char) (a b : str) :
  contains c (a ++ b) = contains c a || contains c b.
Proof. apply existsb_app. Qed.

Lemma contains_at (sep : char) (k v : str) :
  contains sep (k ++ sep :: v) = true.
Proof.
  rewrite contains_app. unfold contains at 2. cbn [existsb].
  rewrite N.eqb_refl. apply orb_true_r.
Qed.

(** Splitting at the first occurrence of the separator. *)
Lemma split1_at (sep : char) (k v : str) :
  contains sep k = false -> split1 sep (k ++ sep :: v) = (k, v).
Proof.
  intros H. unfold split1.
  rewrite span_app, (span_all _ _ (contains_false _ _ H)).
  rewrite span_stop by (rewrite N.eqb_refl; reflexivity).
  rewrite app_nil_r. reflexivity.
Qed.

(** ** Built-ins *)

Lemma exit_family_test (cmd : str) :
  str_eqb cmd (lit "q") || str_eqb cmd (lit "quit") || str_eqb cmd (lit "exit")
  = true <-> exit_family cmd.
Proof.
  unfold exit_family. rewrite !orb_true_iff, !str_eqb_eq. tauto.
Qed.

Lemma set_prefix_not_keyword (cmd : str) :
  startswith (lit "set ") cmd = true ->
  str_eqb cmd (lit "q") || str_eqb cmd (lit "quit") || str_eqb cmd (lit "exit")
  = false
  /\ str_eqb cmd (lit "help") = false.
Proof.
  intros H. apply startswith_split in H. rewrite H. split; reflexivity.
Qed.

Lemma handle_set (os : OS) (raw base_cmd : str) (base_args : list str)
    (vars_map : dict) (m : machine os) :
  startswith (lit ":") raw = true ->
  startswith (lit "set ") (strip (skipn 1 raw)) = true ->
  let rest := strip (skipn 4 (strip (skipn 1 raw))) in
  handle_command os raw base_cmd base_args vars_map m =
  if contains (chr "=") rest then
    {| result := Continue; trace := [];
       vars_after := dict_set (strip (fst (split1 (chr "=") rest)))
                              (strip (snd (split1 (chr "=") rest))) vars_map;
       machine_after := m |}
  else
    {| result := Continue; trace := [Stderr (lit "Usage: :set key=value")];
       vars_after := vars_map; machine_after := m |}.
Proof.
  intros H Hset rest. unfold handle_command. rewrite H.
  destruct (set_prefix_not_keyword _ Hset) as [-> ->]. rewrite Hset.
  fold rest. destruct (contains (chr "=") rest); [|reflexivity].
  destruct (split1 (chr "=") rest); reflexivity.
Qed.

(** C6. For a built-in whose command is [set] followed by a space and more
    text, [rest] being that text trimmed: the outcome is [Continue] and the
    machine is untouched; when [rest] is a key [k], an equals sign and a value
    [v], [k] holding no equals sign (so that the sign is the first one of
    [rest]), nothing is printed and the store becomes the old one with
    trimmed [k] bound to trimmed [v]: looking the key up gives that value
    whatever was bound before, the other keys keep their values, and running
    the same line again leaves the store as it is; when [rest] holds no
    equals sign, the usage message goes to the error stream and the store is
    unchanged. *)
Theorem set_builtin_binds (os : OS) (raw base_cmd : str)
    (base_args : list str) (vars_map : dict) (m : machine os) :
  startswith (lit ":") raw = true ->
  startswith (lit "set ") (strip (skipn 1 raw)) = true ->
  let rest := strip (skipn 4 (strip (skipn 1 raw))) in
  let r := handle_command os raw base_cmd base_args vars_map m in
  result r = Continue /\ machine_after r = m
  /\ (forall k v,
        rest = k ++ chr "=" :: v -> contains (chr "=") k = false ->
        let vars' := dict_set (strip k) (strip v) vars_map in
        trace r = [] /\ vars_after r = vars'
        /\ dict_get (strip k) vars' = Some (strip v)
        /\ (forall k',
              k' <> strip k -> dict_get k' vars' = dict_get k' vars_map)
        /\ vars_after (handle_command os raw base_cmd base_args vars' m)
           = vars')
  /\ (contains (chr "=") rest = false ->
        trace r = [Stderr (lit "Usage: :set key=value")]
        /\ vars_after r = vars_map).
Proof.
  intros H Hset rest r.
  pose proof (handle_set os raw base_cmd base_args vars_map m H Hset) as E.
  cbv zeta in E. fold rest r in E.
  split; [|split; [|split]].
  - rewrite E. destruct (contains (chr "=") rest); reflexivity.
  - rewrite E. destruct (contains (chr "=") rest); reflexivity.
  - intros k v Hrest Hk vars'.
    assert (Hc : contains (chr "=") rest = true).
    { rewrite Hrest. apply contains_at. }
    assert (Hsp : split1 (chr "=") rest = (k, v)).
    { rewrite Hrest. apply split1_at, Hk. }
    rewrite Hc, Hsp in E. cbn [fst snd] in E. fold vars' in E.
    rewrite E. cbn [trace vars_after]. repeat split.
    + apply dict_get_set_same.
    + intros k' Hk'. apply dict_get_set_other, Hk'.
    + rewrite (handle_set os raw base_cmd base_args vars' m H Hset).
      fold rest. rewrite Hc, Hsp. cbn [fst snd vars_after].
      apply dict_set_idem.
  - intros Hc. rewrite E, Hc. split; reflexivity.
Qed.

Lemma builtin_result (os : OS) (raw base_cmd : str) (base_args : list str)
    (vars_map : dict) (m : machine os) :
  startswith (lit ":") raw = true ->
  let cmd := strip (skipn 1 raw) in
  let r := handle_command os raw base_cmd base_args vars_map m in
  (exit_family cmd ->
     r = {| result := Break; trace := []; vars_after := vars_map;
            machine_after := m |})
  /\ (~ exit_family cmd ->
      result r = Continue
      \/ exists exc,
           cmd = lit "pwd" /\ getcwd os m = Throws exc
           /\ r = {| result := Escapes exc; trace := [];
                     vars_after := vars_map; machine_after := m |}).
Proof.
  intros H cmd r. subst r. unfold handle_command. rewrite H. fold cmd.
  destruct (str_eqb cmd (lit "q") || str_eqb cmd (lit "quit")
            || str_eqb cmd (lit "exit")) eqn:E.
  - split; [reflexivity|]. intros Hn. apply exit_family_test in E. tauto.
  - split.
    + intros Hx. apply exit_family_test in Hx. congruence.
    + intros _. split_ifs; first
        [ left; reflexivity
        | right; eexists; split;
          [apply str_eqb_eq; eassumption
          | split; reflexivity] ].
Qed.

Lemma builtin_never_breaks_otherwise (os : OS) (raw base_cmd : str)
    (base_args : list str) (vars_map : dict) (m : machine os) :
  startswith (lit ":") raw = true ->
  ~ exit_family (strip (skipn 1 raw)) ->
  result (handle_command os raw base_cmd base_args vars_map m) <> Break.
Proof.
  intros H Hn.
  destruct (proj2 (builtin_result os raw base_cmd base_args vars_map m H) Hn)
    as [E | (exc & _ & _ & E)]; rewrite E; discriminate.
Qed.

Lemma handle_pwd (os : OS) (raw base_cmd : str) (base_args : list str)
    (vars_map : dict) (m : machine os) :
  startswith (lit ":") raw = true ->
  strip (skipn 1 raw) = lit "pwd" ->
  handle_command os raw base_cmd base_args vars_map m =
  {| result := match getcwd os m with
               | Returns _ => Continue
               | Throws exc => Escapes exc
               end;
     trace := match getcwd os m with
              | Returns cwd => [Stdout cwd]
              | Throws _ => []
              end;
     vars_after := vars_map; machine_after := m |}.
Proof.
  intros H Hcmd. unfold handle_command. rewrite H, Hcmd.
  cbn [str_eqb startswith lit list_ascii_of_string map N_of_ascii orb andb].
  destruct (getcwd os m); reflexivity.
Qed.

Lemma builtin_unknown (os : OS) (raw base_cmd : str) (base_args : list str)
    (vars_map : dict) (m : machine os) :
  startswith (lit ":") raw = true ->
  recognised os (strip (skipn 1 raw)) = false ->
  handle_command os raw base_cmd base_args vars_map m =
  {| result := Continue;
     trace := [Stderr (lit "Unknown built-in. Use :help")];
     vars_after := vars_map; machine_after := m |}.
Proof.
  intros H Hr. unfold recognised in Hr.
  repeat (apply orb_false_iff in Hr; destruct Hr as [Hr ?]).
  unfold handle_command. rewrite H.
  repeat match goal with E : _ = false |- _ => rewrite E; clear E end.
  reflexivity.
Qed.

Lemma cd_prefix_not_keyword (cmd : str) :
  startswith (lit "cd ") cmd = true ->
  str_eqb cmd (lit "q") || str_eqb cmd (lit "quit") || str_eqb cmd (lit "exit")
  = false
  /\ str_eqb cmd (lit "help") = false
  /\ startswith (lit "set ") cmd = false
  /\ str_eqb cmd (lit "vars") = false
  /\ str_eqb cmd (lit "pwd") = false.
Proof.
  intros H. apply startswith_split in H. rewrite H. repeat split.
Qed.

Lemma handle_cd (os : OS) (raw base_cmd : str) (base_args : list str)
    (vars_map : dict) (m : machine os) :
  startswith (lit ":") raw = true ->
  startswith (lit "cd ") (strip (skipn 1 raw)) = true ->
  let newdir := strip (skipn 3 (strip (skipn 1 raw))) in
  handle_command os raw base_cmd base_args vars_map m =
  {| result := Continue;
     trace := Chdir newdir ::
              match fst (chdir os newdir m) with
              | None => []
              | Some e => [Stderr (lit "cd: " ++ e)]
              end;
     vars_after := vars_map;
     machine_after := snd (chdir os newdir m) |}.
Proof.
  intros H Hcd newdir. unfold handle_command. rewrite H.
  destruct (cd_prefix_not_keyword _ Hcd) as (-> & -> & -> & -> & ->).
  rewrite Hcd. fold newdir.
  destruct (chdir os newdir m) as [[e|] m']; reflexivity.
Qed.

(** Built-ins and the end of the session.  For a line that starts with a
    colon, the command being the trimmed text after the colon: the handler
    returns
    [Break] exactly when the command is [q], [quit] or [exit]; any other
    command gives [Continue], the command [pwd] under the proviso that the
    working directory can be read; a command outside the vocabulary gets the
    [Unknown built-in] message on the error stream and [Continue].  In the
    session loop, a line of the exit family ends the loop without reading
    further, and any other such line lets it go on with the lines that
    follow. *)
Lemma builtin_outcomes (os : OS) (raw base_cmd : str)
    (base_args : list str) (vars_map : dict) (m : machine os) :
  startswith (lit ":") raw = true ->
  let cmd := strip (skipn 1 raw) in
  let r := handle_command os raw base_cmd base_args vars_map m in
  let pwd_answers := cmd = lit "pwd" -> exists cwd, getcwd os m = Returns cwd in
  (result r = Break <-> exit_family cmd)
  /\ (~ exit_family cmd -> pwd_answers -> result r = Continue)
  /\ (recognised os cmd = false ->
        result r = Continue
        /\ trace r = [Stderr (lit "Unknown built-in. Use :help")])
  /\ (forall fuel prompt cont_prompt stdin stdin' m0 evs,
        read_raw os prompt cont_prompt stdin m0
        = (evs, m, Some (raw, stdin')) ->
        let loop := repl_loop (S fuel) os base_cmd base_args prompt
                              cont_prompt vars_map stdin m0 in
        (exit_family cmd -> loop = (evs, vars_map, m, None))
        /\ (~ exit_family cmd -> pwd_answers ->
            loop = let '(evs', vars', m', exc) :=
                     repl_loop fuel os base_cmd base_args prompt cont_prompt
                               (vars_after r) stdin' (machine_after r) in
                   (evs ++ trace r ++ evs', vars', m', exc))).
Proof.
  intros H cmd r pwd_answers.
  destruct (builtin_result os raw base_cmd base_args vars_map m H)
    as [Hx Hn]. fold cmd r in Hx, Hn.
  assert (Hne : raw <> []) by (intros ->; discriminate).
  assert (Hc : ~ exit_family cmd -> pwd_answers -> result r = Continue).
  { intros Hf Hp. destruct (Hn Hf) as [E | (exc & Hcmd & Hg & _)];
      [exact E|]. destruct (Hp Hcmd) as [cwd Hcwd]. congruence. }
  split; [|split; [|split]].
  - split.
    + intros Hb. destruct (str_eqb cmd (lit "q") || str_eqb cmd (lit "quit")
                           || str_eqb cmd (lit "exit")) eqn:E.
      * apply exit_family_test, E.
      * exfalso.
        apply (builtin_never_breaks_otherwise os raw base_cmd base_args
                                              vars_map m H); [|exact Hb].
        fold cmd. intros Hf. apply exit_family_test in Hf. congruence.
    + intros Hf. rewrite (Hx Hf). reflexivity.
  - exact Hc.
  - intros Hr. subst r.
    rewrite (builtin_unknown os raw base_cmd base_args vars_map m H Hr).
    split; reflexivity.
  - intros fuel prompt cont_prompt stdin stdin' m0 evs Hread loop. split.
    + intros Hf. subst loop.
      rewrite (repl_loop_break os base_cmd base_args _ _ vars_map _ _ _ _ _ _
                               Hread Hne fuel); fold r; rewrite (Hx Hf);
        cbn [result trace vars_after machine_after];
        [rewrite app_nil_r|]; reflexivity.
    + intros Hf Hp. subst loop.
      apply (repl_loop_next os base_cmd base_args _ _ vars_map _ _ _ _ _ _
                            Hread Hne fuel).
      fold r. left. exact (Hc Hf Hp).
Qed.

(** C7, where the code departs from it.  The built-in [pwd] is no exit
    command, and still it can end the session: when reading the working
    directory raises, which it does after the directory has been removed,
    nothing catches the exception.  The handler then returns neither
    [Continue] nor [Break], and the session loop ends at that line with the
    exception, the lines that follow unread.  The sibling built-in [cd]
    catches what changing the directory raises, and continues. *)
Theorem pwd_failure_ends_session (os : OS) (raw base_cmd : str)
    (base_args : list str) (vars_map : dict) (m : machine os) (exc : str) :
  startswith (lit ":") raw = true ->
  strip (skipn 1 raw) = lit "pwd" ->
  getcwd os m = Throws exc ->
  let cmd := strip (skipn 1 raw) in
  let r := handle_command os raw base_cmd base_args vars_map m in
  ~ exit_family cmd
  /\ r = {| result := Escapes exc; trace := [];
            vars_after := vars_map; machine_after := m |}
  /\ result r <> Continue
  /\ (forall fuel prompt cont_prompt stdin stdin' m0 evs,
        read_raw os prompt cont_prompt stdin m0
        = (evs, m, Some (raw, stdin')) ->
        repl_loop (S fuel) os base_cmd base_args prompt cont_prompt
                  vars_map stdin m0
        = (evs, vars_map, m, Some exc))
  /\ (forall raw',
        startswith (lit ":") raw' = true ->
        startswith (lit "cd ") (strip (skipn 1 raw')) = true ->
        result (handle_command os raw' base_cmd base_args vars_map m)
        = Continue).
Proof.
  intros H Hcmd Hg cmd r.
  assert (E : r = {| result := Escapes exc; trace := [];
                     vars_after := vars_map; machine_after := m |}).
  { subst r. rewrite (handle_pwd os raw base_cmd base_args vars_map m H Hcmd).
    rewrite Hg. reflexivity. }
  assert (Hne : raw <> []) by (intros ->; discriminate).
  split; [|split; [exact E | split; [|split]]].
  - subst cmd. rewrite Hcmd. intros [Hq | [Hq | Hq]]; discriminate Hq.
  - rewrite E. discriminate.
  - intros fuel prompt cont_prompt stdin stdin' m0 evs Hread.
    rewrite (repl_loop_escapes os base_cmd base_args _ _ vars_map _ _ _ _ _ _
                               Hread Hne fuel exc); fold r; rewrite E;
      cbn [result trace vars_after machine_after];
      [rewrite app_nil_r|]; reflexivity.
  - intros raw' H' Hcd.
    rewrite (handle_cd os raw' base_cmd base_args vars_map m H' Hcd).
    reflexivity.
Qed.

(** ** The history built-in *)





(** ** Built-ins and shell escapes read the raw text *)

Lemma shell_is_not_builtin (raw : str) :
  startswith (lit "!") raw = true -> startswith (lit ":") raw = false.
Proof.
  destruct raw as [|c raw]; [discriminate|].
  change (lit "!") with [chr "!"]. change (lit ":") with [chr ":"].
  cbn [startswith]. rewrite !andb_true_r, N.eqb_eq. intros <-. reflexivity.
Qed.

Lemma handle_shell (os : OS) (raw base_cmd : str) (base_args : list str)
    (vars_map : dict) (m : machine os) :
  startswith (lit "!") raw = true ->
  let shell_cmd := strip (skipn 1 raw) in
  handle_command os raw base_cmd base_args vars_map m =
  match shell_cmd with
  | [] => {| result := Continue; trace := []; vars_after := vars_map;
             machine_after := m |}
  | _ :: _ =>
      match fst (call_shell os shell_cmd m) with
      | Returns rc =>
          {| result := Continue;
             trace := Shell shell_cmd ::
                      (if Z.eqb rc 0 then []
                       else [Stderr (lit "[shell] exited with code "
                                     ++ str_of_int rc)]);
             vars_after := vars_map;
             machine_after := snd (call_shell os shell_cmd m) |}
      | Throws exc =>
          {| result := Escapes exc; trace := [Shell shell_cmd];
             vars_after := vars_map;
             machine_after := snd (call_shell os shell_cmd m) |}
      end
  end.
Proof.
  intros H shell_cmd. unfold handle_command.
  rewrite (shell_is_not_builtin _ H), H. fold shell_cmd.
  destruct shell_cmd as [|c s]; [reflexivity|]. cbn [Shlex.nonempty negb].
  destruct (call_shell os (c :: s) m) as [[rc|exc] m']; reflexivity.
Qed.

(** Outside the [vars] built-in, which prints the store, what a built-in or
    a shell escape prints, calls and returns does not depend on the store. *)
Lemma unforwarded_ignores_store (os : OS) (raw base_cmd : str)
    (base_args : list str) (vars1 vars2 : dict) (m : machine os) :
  startswith (lit ":") raw = true \/ startswith (lit "!") raw = true ->
  str_eqb (strip (skipn 1 raw)) (lit "vars") = false ->
  let r1 := handle_command os raw base_cmd base_args vars1 m in
  let r2 := handle_command os raw base_cmd base_args vars2 m in
  result r1 = result r2 /\ trace r1 = trace r2
  /\ machine_after r1 = machine_after r2.
Proof.
  intros [H | H] Hv r1 r2; subst r1 r2.
  - unfold handle_command. rewrite H, Hv. split_ifs; repeat split.
  - rewrite !(handle_shell os raw base_cmd base_args _ m H).
    destruct (strip (skipn 1 raw)) as [|c s]; [repeat split|].
    destruct (fst (call_shell os (c :: s) m)); repeat split.
Qed.

(** C10. Substitution is the business of forwarded lines alone.  A shell
    escape hands the host shell the trimmed text after the exclamation mark
    as it was typed, and leaves the store alone.  A built-in works on the
    trimmed text after the colon as it was typed: [set] binds the typed key
    to the typed value and [cd] changes to the typed path.  Whatever the
    store holds, a built-in other than [vars] and a shell escape print, call
    and return the same.  With [x] bound to [1], the escape, the [set] and the
    [cd] that mention [x] by reference keep the reference, where the
    forwarded line that mentions it passes [1] to the child. *)
Theorem substitution_only_when_forwarding (os : OS) (base_cmd : str)
    (base_args : list str) (m : machine os) :
  (forall raw vars_map,
      startswith (lit "!") raw = true ->
      let shell_cmd := strip (skipn 1 raw) in
      let r := handle_command os raw base_cmd base_args vars_map m in
      vars_after r = vars_map
      /\ (shell_cmd = [] -> trace r = [])
      /\ (shell_cmd <> [] ->
          exists report, trace r = Shell shell_cmd :: report
                         /\ forall e, In e report -> exists s, e = Stderr s))
  /\ (forall raw vars_map,
      startswith (lit ":") raw = true ->
      let cmd := strip (skipn 1 raw) in
      let r := handle_command os raw base_cmd base_args vars_map m in
      (startswith (lit "set ") cmd = true ->
         forall k v, strip (skipn 4 cmd) = k ++ chr "=" :: v ->
                     contains (chr "=") k = false ->
                     vars_after r = dict_set (strip k) (strip v) vars_map)
      /\ (startswith (lit "cd ") cmd = true ->
          exists report, trace r = Chdir (strip (skipn 3 cmd)) :: report
                         /\ forall e, In e report -> exists s, e = Stderr s))
  /\ (forall raw vars1 vars2,
      startswith (lit ":") raw = true \/ startswith (lit "!") raw = true ->
      str_eqb (strip (skipn 1 raw)) (lit "vars") = false ->
      let r1 := handle_command os raw base_cmd base_args vars1 m in
      let r2 := handle_command os raw base_cmd base_args vars2 m in
      result r1 = result r2 /\ trace r1 = trace r2
      /\ machine_after r1 = machine_after r2)
  /\ (hd_error (trace (handle_command os (lit "!echo ${x}") base_cmd
                                      base_args x_is_1 m))
      = Some (Shell (lit "echo ${x}"))
      /\ vars_after (handle_command os (lit ":set y=${x}") base_cmd
                                    base_args x_is_1 m)
         = [(lit "x", lit "1"); (lit "y", lit "${x}")]
      /\ hd_error (trace (handle_command os (lit ":cd ${x}") base_cmd
                                         base_args x_is_1 m))
         = Some (Chdir (lit "${x}"))
      /\ spawned (trace (handle_command os (lit "echo ${x}") base_cmd
                                        base_args x_is_1 m))
         = [[base_cmd] ++ base_args ++ [lit "echo"; lit "1"]]).
Proof.
  split; [|split; [|split]].
  - intros raw vars_map H shell_cmd r. subst r.
    rewrite (handle_shell os raw base_cmd base_args vars_map m H).
    fold shell_cmd. destruct shell_cmd as [|c s] eqn:E.
    + repeat split. congruence.
    + destruct (fst (call_shell os (c :: s) m)) as [rc|exc];
        (repeat split; [discriminate|]); intros _; eexists;
        (split; [reflexivity|]); intros e; [|intros []].
      destruct (Z.eqb rc 0); [intros []|].
      intros [<- | []]. eexists; reflexivity.
  - intros raw vars_map H cmd r. split.
    + intros Hset k v Hrest Hk. subst r.
      rewrite (handle_set os raw base_cmd base_args vars_map m H Hset).
      fold cmd. rewrite Hrest, contains_at, split1_at by exact Hk.
      reflexivity.
    + intros Hcd. subst r.
      rewrite (handle_cd os raw base_cmd base_args vars_map m H Hcd).
      fold cmd. eexists. split; [reflexivity|].
      intros e. destruct (fst (chdir os _ m)); [|intros []].
      intros [<- | []]. eexists; reflexivity.
  - intros raw vars1 vars2. apply unforwarded_ignores_store.
  - split; [|split; [|split]].
    + rewrite (handle_shell os (lit "!echo ${x}") base_cmd base_args x_is_1 m
                            eq_refl).
      change (strip (skipn 1 (lit "!echo ${x}"))) with (lit "echo ${x}").
      cbv iota.
      destruct (fst (call_shell os (lit "echo ${x}") m)); reflexivity.
    + rewrite (handle_set os (lit ":set y=${x}") base_cmd base_args x_is_1 m
                          eq_refl eq_refl).
      reflexivity.
    + rewrite (handle_cd os (lit ":cd ${x}") base_cmd base_args x_is_1 m
                         eq_refl eq_refl).
      reflexivity.
    + apply (handle_forward_spawned os base_cmd base_args (lit "echo ${x}")
                                    x_is_1 m).
      * split; reflexivity.
      * reflexivity.
Qed.

(** ** Reading a logical line *)

Lemma endswith_last (c : char) (s : str) : endswith [c] (s ++ [c]) = true.
Proof.
  unfold endswith. rewrite rev_app_distr. cbn [rev app startswith].
  rewrite N.eqb_refl. reflexivity.
Qed.

Section ReadLines.

Variable os : OS.
Variables prompt cont_prompt : str.

Lemma read_line_parts_continued (segs : list str) :
  forall (line_parts : list str) (last : str) (more : list str)
         (m : machine os),
    endswith (lit "\") last = false ->
    read_line_parts os prompt cont_prompt line_parts
      (map continued segs ++ last :: more) m
    = (Prompt (shown_prompt prompt cont_prompt line_parts)
         :: repeat (Prompt cont_prompt) (length segs),
       lines_read os (map continued segs ++ [last]) m,
       Some (line_parts ++ segs ++ [last], more)).
Proof.
  induction segs as [|seg segs IH]; intros line_parts last more m Hlast.
  - cbn [map app read_line_parts]. rewrite Hlast. reflexivity.
  - cbn [map app read_line_parts]. unfold continued at 1 2.
    change (lit "\") with [chr "\"]. rewrite endswith_last, removelast_last.
    change [chr "\"] with (lit "\"). rewrite (IH _ _ _ _ Hlast).
    fold (continued seg).
    rewrite <- app_assoc.
    destruct line_parts; reflexivity.
Qed.

Lemma read_line_parts_shorter (stdin : list str) :
  forall line_parts m evs m' parts stdin',
    read_line_parts os prompt cont_prompt line_parts stdin m
    = (evs, m', Some (parts, stdin')) ->
    length stdin' < length stdin.
Proof.
  induction stdin as [|line stdin IH]; intros line_parts m evs m' parts stdin'.
  - discriminate.
  - cbn [read_line_parts]. destruct (endswith (lit "\") line).
    + destruct (read_line_parts os prompt cont_prompt
                  (line_parts ++ [removelast line]) stdin
                  (line_read os line m)) as [[e1 m1] r1] eqn:E.
      intros H. injection H as _ _ ->. apply IH in E. simpl. lia.
    + intros H. injection H as _ _ _ <-. simpl. lia.
Qed.

Lemma read_raw_shorter (stdin : list str) (m : machine os) evs m' raw stdin' :
  read_raw os prompt cont_prompt stdin m = (evs, m', Some (raw, stdin')) ->
  length stdin' < length stdin.
Proof.
  unfold read_raw.
  destruct (read_line_parts os prompt cont_prompt [] stdin m)
    as [[e1 m1] [[parts rest]|]] eqn:E; [|discriminate].
  intros H. injection H as _ _ _ <-.
  apply (read_line_parts_shorter _ _ _ _ _ _ _ E).
Qed.

(** The loop never runs out of turns. *)
Lemma repl_loop_fuel (base_cmd : str) (base_args : list str) (f1 f2 : nat) :
  forall (vars_map : dict) (stdin : list str) (m : machine os),
    length stdin < f1 -> length stdin < f2 ->
    repl_loop f1 os base_cmd base_args prompt cont_prompt vars_map stdin m
    = repl_loop f2 os base_cmd base_args prompt cont_prompt vars_map stdin m.
Proof.
  revert f2. induction f1 as [|f1 IH]; intros f2 vars_map stdin m H1 H2;
    [lia|].
  destruct f2 as [|f2]; [lia|]. cbn [repl_loop].
  destruct (read_raw os prompt cont_prompt stdin m)
    as [[evs m'] [[raw stdin']|]] eqn:E; [|reflexivity].
  apply read_raw_shorter in E.
  destruct (negb (Shlex.nonempty raw)).
  - rewrite (IH f2) by lia. reflexivity.
  - destruct (result _); try reflexivity; rewrite (IH f2) by lia; reflexivity.
Qed.

End ReadLines.

(** C5. When every line but the last ends with a backslash, the last being
    the line that does not, the loop reads them all as one logical line: the
    backslash that ends each continued line is dropped, the pieces are
    concatenated in order with nothing put between them, and the result is
    trimmed.  The first line is asked for with the primary prompt and every
    further one with the continuation prompt; the lines that follow are left
    unread.  When it is not empty, that logical line is the one handed to
    [handle_command].  In particular [foo] with a backslash followed by [bar]
    is the logical line [foobar]. *)
Theorem continuation_joins_segments (os : OS) (prompt cont_prompt : str)
    (segs : list str) (last : str) (more : list str) (m : machine os) :
  endswith (lit "\") last = false ->
  let lines := map continued segs ++ [last] in
  let raw := strip (concat (segs ++ [last])) in
  let evs := Prompt prompt :: repeat (Prompt cont_prompt) (length segs) in
  read_raw os prompt cont_prompt (lines ++ more) m
  = (evs, lines_read os lines m, Some (raw, more))
  /\ (forall fuel base_cmd base_args vars_map,
        raw <> [] ->
        let r := handle_command os raw base_cmd base_args vars_map
                                (lines_read os lines m) in
        repl_loop (S fuel) os base_cmd base_args prompt cont_prompt vars_map
                  (lines ++ more) m
        = match result r with
          | Break => (evs ++ trace r, vars_after r, machine_after r, None)
          | Escapes exc =>
              (evs ++ trace r, vars_after r, machine_after r, Some exc)
          | _ =>
              let '(evs', vars', m', exc) :=
                repl_loop fuel os base_cmd base_args prompt cont_prompt
                          (vars_after r) more (machine_after r) in
              (evs ++ trace r ++ evs', vars', m', exc)
          end)
  /\ snd (read_raw os prompt cont_prompt [lit "foo\"; lit "bar"] m)
     = Some (lit "foobar", []).
Proof.
  intros Hlast lines raw evs.
  assert (Hread : read_raw os prompt cont_prompt (lines ++ more) m
                  = (evs, lines_read os lines m, Some (raw, more))).
  { subst lines raw evs. unfold read_raw. rewrite <- app_assoc. cbn [app].
    rewrite (read_line_parts_continued os prompt cont_prompt segs [] last
                                       more m Hlast).
    reflexivity. }
  split; [exact Hread | split; [|reflexivity]].
  intros fuel base_cmd base_args vars_map Hraw.
  apply (repl_loop_turn os base_cmd base_args prompt cont_prompt vars_map
                        _ _ _ _ _ _ Hread Hraw fuel).
Qed.

Lemma lstrip_clean (s : str) : clean_head (lstrip s).
Proof.
  induction s as [|c s IH]; simpl; [exact I|].
  destruct (isspace c) eqn:E; [exact IH | exact E].
Qed.

Lemma lstrip_fixed (s : str) : clean_head s -> lstrip s = s.
Proof. destruct s as [|c s]; simpl; [reflexivity | intros ->; reflexivity]. Qed.

Lemma lstrip_suffix (s : str) : exists w, s = w ++ lstrip s.
Proof.
  induction s as [|c s [w IH]]; [exists []; reflexivity|].
  simpl. destruct (isspace c).
  - exists (c :: w). simpl. congruence.
  - exists []. reflexivity.
Qed.

Lemma clean_head_prefix (a b : str) : clean_head (a ++ b) -> clean_head a.
Proof. destruct a; simpl; auto. Qed.

Lemma strip_idem (s : str) : strip (strip s) = strip s.
Proof.
  unfold strip, rstrip.
  set (y := lstrip (rev s)). set (z := lstrip (rev y)).
  assert (Hy : clean_head y) by apply lstrip_clean.
  assert (Hz : clean_head z) by apply lstrip_clean.
  destruct (lstrip_suffix (rev y)) as [w Hw]. fold z in Hw.
  assert (Hrz : clean_head (rev z)).
  { apply (clean_head_prefix _ (rev w)).
    rewrite <- rev_app_distr, <- Hw, rev_involutive. exact Hy. }
  rewrite (lstrip_fixed _ Hrz), rev_involutive. apply lstrip_fixed, Hz.
Qed.

Lemma contains_lstrip (c : char) (s : str) :
  contains c s = false -> contains c (lstrip s) = false.
Proof.
  induction s as [|x s IH]; simpl; [auto|].
  destruct (isspace x); [|auto].
  rewrite orb_false_iff. intros [_ H]. auto.
Qed.

Lemma contains_rev (c : char) (s : str) : contains c (rev s) = contains c s.
Proof.
  induction s as [|x s IH]; [reflexivity|].
  cbn [rev]. rewrite contains_app, IH. simpl. rewrite orb_false_r.
  apply orb_comm.
Qed.

Lemma contains_strip (c : char) (s : str) :
  contains c s = false -> contains c (strip s) = false.
Proof.
  intros H. unfold strip, rstrip.
  apply contains_lstrip. rewrite contains_rev.
  apply contains_lstrip. rewrite contains_rev. exact H.
Qed.

Lemma split1_key (sep : char) (s : str) :
  contains sep (fst (split1 sep s)) = false.
Proof.
  unfold split1.
  pose proof (span_prefix_all (fun c : char => negb (N.eqb c sep)) s) as H.
  destruct (span _ s) as [k tl]. cbn [fst] in *.
  induction k as [|x k IH]; [reflexivity|].
  cbn [forallb] in H. apply andb_true_iff in H as [Hx Hk].
  simpl. rewrite (N.eqb_sym sep x). apply negb_true_iff in Hx. rewrite Hx.
  auto.
Qed.

Lemma in_keys_set (x k v : str) (d : dict) :
  In x (keys (dict_set k v d)) -> x = k \/ In x (keys d).
Proof.
  rewrite dict_set_keys. destruct (existsb _ _); [auto|].
  rewrite in_app_iff. simpl. intuition.
Qed.

Lemma store_ok_set (k v : str) (d : dict) :
  trimmed_key k -> store_ok d -> store_ok (dict_set k v d).
Proof.
  intros Hk [Hnd Hall]. split.
  - rewrite dict_set_keys.
    destruct (existsb (str_eqb k) (keys d)) eqn:E; [exact Hnd|].
    apply NoDup_rev in Hnd. rewrite <- (rev_involutive (keys d ++ [k])).
    apply NoDup_rev. rewrite rev_app_distr. simpl. constructor; [|exact Hnd].
    rewrite <- in_rev. intros Hin.
    assert (existsb (str_eqb k) (keys d) = true); [|congruence].
    apply existsb_exists. exists k. split; [exact Hin | apply str_eqb_refl].
  - apply Forall_forall. intros x Hx.
    apply in_keys_set in Hx as [-> | Hx]; [exact Hk|].
    rewrite Forall_forall in Hall. auto.
Qed.

(** The store after a command: the old one, or the old one with one trimmed
    key bound. *)
Lemma vars_after_cases (os : OS) (raw base_cmd : str) (base_args : list str)
    (vars_map : dict) (m : machine os) :
  let r := handle_command os raw base_cmd base_args vars_map m in
  vars_after r = vars_map
  \/ exists k v, trimmed_key k /\ vars_after r = dict_set k v vars_map.
Proof.
  unfold handle_command.
  destruct (startswith (lit ":") raw).
  - destruct (str_eqb _ (lit "q") || _ || _); [left; reflexivity|].
    destruct (str_eqb _ (lit "help")); [left; reflexivity|].
    destruct (startswith (lit "set ") _).
    + destruct (contains _ _); [|left; reflexivity].
      destruct (split1 _ _) as [k v] eqn:E. right. exists (strip k), (strip v).
      split; [|reflexivity]. split; [apply strip_idem|].
      apply contains_strip. change k with (fst (k, v)). rewrite <- E.
      apply split1_key.
    + left. split_ifs; reflexivity.
  - left. split_ifs; reflexivity.
Qed.

Lemma handle_command_store_ok (os : OS) (raw base_cmd : str)
    (base_args : list str) (vars_map : dict) (m : machine os) :
  store_ok vars_map ->
  store_ok (vars_after (handle_command os raw base_cmd base_args vars_map m)).
Proof.
  intros H.
  destruct (vars_after_cases os raw base_cmd base_args vars_map m)
    as [-> | (k & v & Hk & ->)]; [exact H|].
  apply store_ok_set; assumption.
Qed.

Lemma repl_loop_store_ok (os : OS) (base_cmd : str) (base_args : list str)
    (prompt cont_prompt : str) (fuel : nat) :
  forall (vars_map : dict) (stdin : list str) (m : machine os),
    store_ok vars_map ->
    store_ok (snd (fst (fst (repl_loop fuel os base_cmd base_args prompt
                                       cont_prompt vars_map stdin m)))).
Proof.
  induction fuel as [|fuel IH]; intros vars_map stdin m H; [exact H|].
  cbn [repl_loop].
  destruct (read_raw os prompt cont_prompt stdin m)
    as [[evs m'] [[raw stdin']|]]; [|exact H].
  destruct (negb (Shlex.nonempty raw)).
  - specialize (IH vars_map stdin' m' H).
    destruct (repl_loop fuel _ _ _ _ _ vars_map stdin' m')
      as [[[e v] mm] x].
    exact IH.
  - pose proof (handle_command_store_ok os raw base_cmd base_args vars_map m'
                                        H) as Hr.
    set (r := handle_command os raw base_cmd base_args vars_map m') in *.
    specialize (IH (vars_after r) stdin' (machine_after r) Hr).
    destruct (repl_loop fuel _ _ _ _ _ (vars_after r) stdin' (machine_after r))
      as [[[e v] mm] x].
    destruct (result r); assumption.
Qed.

(** C9, as the code has it. The keys of the store are pairwise distinct, and
    each is trimmed text that holds no equals sign; keys that are not
    identifiers can be stored.  This is so for the empty store a session
    starts with, it is kept by every command whatever the line, the [set]
    built-in among them, and so it holds for the store a session ends
    with. *)
Theorem store_keys_trimmed_and_unique (os : OS) (base_cmd : str)
    (base_args : list str) :
  store_ok []
  /\ (forall raw vars_map m,
        store_ok vars_map ->
        store_ok (vars_after (handle_command os raw base_cmd base_args
                                             vars_map m)))
  /\ (forall stdin m,
        store_ok (snd (fst (fst (run_repl os base_cmd base_args stdin m))))).
Proof.
  assert (H0 : store_ok []) by (split; constructor).
  split; [exact H0 | split].
  - intros raw vars_map m. apply handle_command_store_ok.
  - intros stdin m. unfold run_repl.
    pose proof (repl_loop_store_ok os base_cmd base_args
                  (PROMPT_COLOR ++ basename base_cmd ++ lit ">" ++ RESET
                   ++ lit " ") (lit "..> ") (S (length stdin)) [] stdin
                  (startup os base_cmd m) H0) as H.
    destruct (repl_loop _ _ _ _ _ _ _ _ _) as [[[e v] mm] x]. exact H.
Qed.

(** C9 as it is written fails: the line [:set a b=1] stores the key [a b],
    which is not an identifier. *)
Lemma set_stores_a_key_that_is_no_identifier :
  ~ Forall (fun k => is_identifier k = true)
      (keys (vars_after
               (handle_command (demo_os true [] (Exited 0))
                               (lit ":set a b=1") (lit "git") [] [] tt))).
Proof.
  intros H. inversion H as [|k l Hk Hl E]. discriminate Hk.
Qed.

(* ================================================================== *)
(** * Further properties *)

(** ** Substitution and the store *)

(** The expansion only looks identifiers up. *)
Lemma re_sub_ext (repl1 repl2 : str -> str) :
  (forall key, is_identifier key = true -> repl1 key = repl2 key) ->
  forall fuel s, re_sub fuel repl1 s = re_sub fuel repl2 s.
Proof.
  intros Hext. induction fuel as [|fuel IH]; intros s; [reflexivity|].
  cbn [re_sub]. destruct s as [|c s]; [reflexivity|].
  destruct (match_ref (c :: s)) as [[key rest]|] eqn:E.
  - destruct (match_ref_shape _ _ _ E) as [_ Hid].
    rewrite (Hext key Hid), IH. reflexivity.
  - rewrite IH. reflexivity.
Qed.

Lemma expand_vars_ext (V1 V2 : dict) (s : str) :
  (forall key, is_identifier key = true -> dict_get key V1 = dict_get key V2) ->
  expand_vars s V1 = expand_vars s V2.
Proof.
  intros H. unfold expand_vars. apply re_sub_ext.
  intros key Hid. rewrite (H key Hid). reflexivity.
Qed.

(** Putting back what was matched changes nothing. *)
Lemma re_sub_group0 (fuel : nat) :
  forall s, re_sub fuel group0 s = s.
Proof.
  induction fuel as [|fuel IH]; intros s; [reflexivity|].
  cbn [re_sub]. destruct s as [|c s]; [reflexivity|].
  destruct (match_ref (c :: s)) as [[key rest]|] eqn:E.
  - destruct (match_ref_shape _ _ _ E) as [Hs _].
    rewrite IH, Hs. reflexivity.
  - rewrite IH. reflexivity.
Qed.

(** X1. When no identifier is bound in the store, as in the empty store a
    session starts with, the expansion of any line is the line itself: every
    reference is left as it is written. *)
Theorem expand_vars_nothing_bound (V : dict) (s : str) :
  (forall key, is_identifier key = true -> dict_get key V = None) ->
  expand_vars s V = s.
Proof.
  intros H. unfold expand_vars.
  rewrite (re_sub_ext _ group0); [apply re_sub_group0|].
  intros key Hid. rewrite (H key Hid). reflexivity.
Qed.

Lemma identifier_differs (k key : str) :
  is_identifier k = false -> is_identifier key = true -> key <> k.
Proof. intros Hk Hkey ->. congruence. Qed.

(** X2. A key that is not an identifier is inert: binding it, to whatever
    value, changes the expansion of no line. *)
Theorem non_identifier_key_is_never_expanded (V : dict) (k v s : str) :
  is_identifier k = false ->
  expand_vars s (dict_set k v V) = expand_vars s V.
Proof.
  intros Hk. apply expand_vars_ext. intros key Hkey.
  apply dict_get_set_other, (identifier_differs k key Hk Hkey).
Qed.

(** X3. What [set] binds, a reference gives back.  After a [set] built-in
    whose trimmed key is an identifier, a reference to that key, wherever it
    stands in a line, expands to the trimmed value that was typed. *)
Theorem set_then_reference (os : OS) (raw base_cmd : str)
    (base_args : list str) (vars_map : dict) (m : machine os) (k v : str) :
  startswith (lit ":") raw = true ->
  startswith (lit "set ") (strip (skipn 1 raw)) = true ->
  strip (skipn 4 (strip (skipn 1 raw))) = k ++ chr "=" :: v ->
  contains (chr "=") k = false ->
  is_identifier (strip k) = true ->
  let vars' :=
    vars_after (handle_command os raw base_cmd base_args vars_map m) in
  forall pre post,
    expand_vars (pre ++ lit "${" ++ strip k ++ lit "}" ++ post) vars'
    = expand_vars pre vars' ++ strip v ++ expand_vars post vars'.
Proof.
  intros H Hset Hrest Hk Hid vars' pre post. subst vars'.
  rewrite (handle_set os raw base_cmd base_args vars_map m H Hset).
  rewrite Hrest, contains_at, split1_at by exact Hk. cbn [fst snd vars_after].
  pose proof (expand_vars_app_ref (dict_set (strip k) (strip v) vars_map)
                                  pre (strip k) post Hid) as E.
  unfold lookup_or_literal in E. rewrite dict_get_set_same in E.
  unfold group0 in E. rewrite <- ?app_assoc in E. rewrite <- ?app_assoc.
  exact E.
Qed.

(** ** The store across commands *)

Lemma dict_set_fresh (k v : str) (d : dict) :
  dict_get k d = None -> dict_set k v d = d ++ [(k, v)].
Proof.
  induction d as [|[k' v'] d IH]; simpl; [reflexivity|].
  destruct (str_eqb k k'); [discriminate|]. intros H. rewrite IH; auto.
Qed.

Lemma dict_set_bound (k v : str) (d : dict) :
  dict_get k d <> None -> keys (dict_set k v d) = keys d.
Proof.
  induction d as [|[k' v'] d IH]; simpl; [congruence|].
  destruct (str_eqb k k') eqn:E; simpl; [reflexivity|].
  intros H. fold (keys d). fold (keys (dict_set k v d)). rewrite IH; auto.
Qed.

Lemma in_dict_set (k v : str) (d : dict) : In (k, v) (dict_set k v d).
Proof.
  induction d as [|[k' v'] d IH]; simpl; [auto|].
  destruct (str_eqb k k') eqn:E; simpl; [|auto].
  apply str_eqb_eq in E. subst. auto.
Qed.

Lemma keys_dict_set_incl (x k v : str) (d : dict) :
  In x (keys d) -> In x (keys (dict_set k v d)).
Proof.
  rewrite dict_set_keys. destruct (existsb _ _); [auto|].
  rewrite in_app_iff. auto.
Qed.

Lemma handle_vars (os : OS) (raw base_cmd : str) (base_args : list str)
    (vars_map : dict) (m : machine os) :
  startswith (lit ":") raw = true ->
  strip (skipn 1 raw) = lit "vars" ->
  handle_command os raw base_cmd base_args vars_map m =
  {| result := Continue; trace := map vars_line vars_map;
     vars_after := vars_map; machine_after := m |}.
Proof.
  intros H Hcmd. unfold handle_command. rewrite H, Hcmd. reflexivity.
Qed.

(** X4. What [set] binds, [vars] lists.  After a [set] built-in, the [vars]
    built-in prints a line made of the trimmed key, an equals sign and the
    trimmed value, returns [Continue] and leaves the store as it is.  When
    the key was not bound before, that line comes last, after the lines of
    the older bindings; when it was bound, the keys keep their order. *)
Theorem set_then_vars (os : OS) (raw_set raw_vars base_cmd : str)
    (base_args : list str) (vars_map : dict) (m : machine os) (k v : str) :
  startswith (lit ":") raw_set = true ->
  startswith (lit "set ") (strip (skipn 1 raw_set)) = true ->
  strip (skipn 4 (strip (skipn 1 raw_set))) = k ++ chr "=" :: v ->
  contains (chr "=") k = false ->
  startswith (lit ":") raw_vars = true ->
  strip (skipn 1 raw_vars) = lit "vars" ->
  let r1 := handle_command os raw_set base_cmd base_args vars_map m in
  let r2 := handle_command os raw_vars base_cmd base_args (vars_after r1)
                           (machine_after r1) in
  let line := Stdout (strip k ++ lit "=" ++ strip v) in
  result r2 = Continue /\ vars_after r2 = vars_after r1
  /\ trace r2 = map vars_line (vars_after r1)
  /\ In line (trace r2)
  /\ (dict_get (strip k) vars_map = None ->
      trace r2 = map vars_line vars_map ++ [line])
  /\ (dict_get (strip k) vars_map <> None ->
      keys (vars_after r1) = keys vars_map).
Proof.
  intros H Hset Hrest Hk Hv Hcmd r1 r2 line.
  assert (E1 : vars_after r1 = dict_set (strip k) (strip v) vars_map).
  { subst r1. rewrite (handle_set os raw_set base_cmd base_args vars_map m
                                  H Hset).
    rewrite Hrest, contains_at, split1_at by exact Hk. reflexivity. }
  assert (E2 : r2 = {| result := Continue;
                       trace := map vars_line (vars_after r1);
                       vars_after := vars_after r1;
                       machine_after := machine_after r1 |}).
  { apply handle_vars; assumption. }
  rewrite E2. cbn [result trace vars_after]. rewrite E1.
  repeat split.
  - apply (in_map vars_line _ (strip k, strip v)), in_dict_set.
  - intros Hnone. rewrite (dict_set_fresh _ _ _ Hnone), map_app. reflexivity.
  - intros Hsome. apply dict_set_bound, Hsome.
Qed.

Lemma repl_loop_keys_kept (os : OS) (base_cmd : str) (base_args : list str)
    (prompt cont_prompt : str) (x : str) (fuel : nat) :
  forall (vars_map : dict) (stdin : list str) (m : machine os),
    In x (keys vars_map) ->
    In x (keys (snd (fst (fst (repl_loop fuel os base_cmd base_args prompt
                                         cont_prompt vars_map stdin m))))).
Proof.
  induction fuel as [|fuel IH]; intros vars_map stdin m H; [exact H|].
  cbn [repl_loop].
  destruct (read_raw os prompt cont_prompt stdin m)
    as [[evs m'] [[raw stdin']|]]; [|exact H].
  destruct (negb (Shlex.nonempty raw)).
  - specialize (IH vars_map stdin' m' H).
    destruct (repl_loop fuel _ _ _ _ _ vars_map stdin' m')
      as [[[e v] mm] exc].
    exact IH.
  - assert (Hr : In x (keys (vars_after
                   (handle_command os raw base_cmd base_args vars_map m')))).
    { destruct (vars_after_cases os raw base_cmd base_args vars_map m')
        as [-> | (k & v & _ & ->)]; [exact H|].
      apply keys_dict_set_incl, H. }
    set (r := handle_command os raw base_cmd base_args vars_map m') in *.
    specialize (IH (vars_after r) stdin' (machine_after r) Hr).
    destruct (repl_loop fuel _ _ _ _ _ (vars_after r) stdin' (machine_after r))
      as [[[e v] mm] exc].
    destruct (result r); assumption.
Qed.

(** X5. No command unbinds a variable: a key that is bound before a command
    is bound after it, whatever the line, and a key that is bound at some
    turn of the session loop is bound when the loop ends. *)
Theorem bound_keys_stay_bound (os : OS) (base_cmd : str)
    (base_args : list str) (vars_map : dict) (x : str) :
  In x (keys vars_map) ->
  (forall raw m,
      In x (keys (vars_after (handle_command os raw base_cmd base_args
                                             vars_map m))))
  /\ (forall fuel prompt cont_prompt stdin m,
      In x (keys (snd (fst (fst (repl_loop fuel os base_cmd base_args
                                           prompt cont_prompt vars_map
                                           stdin m)))))).
Proof.
  intros H. split.
  - intros raw m.
    destruct (vars_after_cases os raw base_cmd base_args vars_map m)
      as [-> | (k & v & _ & ->)]; [exact H|].
    apply keys_dict_set_incl, H.
  - intros fuel prompt cont_prompt stdin m.
    apply repl_loop_keys_kept, H.
Qed.

(** X6. The store is written by the [set] built-in with an equals sign and
    by nothing else: on such a line the store gets the one binding typed, and
    on every other line, built-in, shell escape or forwarded, the store after
    the command is the store before it. *)
Theorem store_written_only_by_set (os : OS) (raw base_cmd : str)
    (base_args : list str) (vars_map : dict) (m : machine os) :
  vars_after (handle_command os raw base_cmd base_args vars_map m)
  = if binds raw then
      let rest := strip (skipn 4 (strip (skipn 1 raw))) in
      dict_set (strip (fst (split1 (chr "=") rest)))
               (strip (snd (split1 (chr "=") rest))) vars_map
    else vars_map.
Proof.
  unfold binds. destruct (startswith (lit ":") raw) eqn:H.
  - destruct (startswith (lit "set ") (strip (skipn 1 raw))) eqn:Hset.
    + rewrite (handle_set os raw base_cmd base_args vars_map m H Hset).
      cbn [andb]. destruct (contains _ _); reflexivity.
    + cbn [andb]. unfold handle_command. rewrite H, Hset.
      split_ifs; reflexivity.
  - cbn [andb]. unfold handle_command. rewrite H. split_ifs; reflexivity.
Qed.

Lemma flat_map_map_nil {A B C : Type} (f : B -> list C) (g : A -> B)
    (l : list A) :
  (forall x, f (g x) = []) -> flat_map f (map g l) = [].
Proof.
  intros H. induction l as [|x l IH]; simpl; [reflexivity|].
  rewrite H, IH. reflexivity.
Qed.

(** X7. Each kind of line reaches its own service only.  A built-in makes
    no call of [subprocess.Popen] and none of the host shell.  A shell escape
    makes no call of [subprocess.Popen], so it never starts the base command,
    and changes no directory: the one thing it runs is the host shell, called
    once with the trimmed text after the exclamation mark, and not at all
    when that text is empty.  A forwarded line calls no shell and changes no
    directory. *)
Theorem each_line_kind_keeps_to_its_service (os : OS) (raw base_cmd : str)
    (base_args : list str) (vars_map : dict) (m : machine os) :
  let r := handle_command os raw base_cmd base_args vars_map m in
  (startswith (lit ":") raw = true ->
     spawned (trace r) = [] /\ shell_calls (trace r) = [])
  /\ (startswith (lit "!") raw = true ->
     spawned (trace r) = [] /\ chdirs (trace r) = []
     /\ shell_calls (trace r)
        = match strip (skipn 1 raw) with
          | [] => []
          | shell_cmd => [shell_cmd]
          end)
  /\ (forwarded raw ->
     shell_calls (trace r) = [] /\ chdirs (trace r) = []).
Proof.
  intros r. subst r. split; [|split].
  - intros H. unfold handle_command. rewrite H.
    split_ifs; split; try reflexivity;
      apply flat_map_map_nil; intros; reflexivity.
  - intros H. rewrite (handle_shell os raw base_cmd base_args vars_map m H).
    destruct (strip (skipn 1 raw)) as [|c s]; [repeat split|].
    destruct (fst (call_shell os (c :: s) m)) as [rc|exc]; cbn [trace];
      [destruct (Z.eqb rc 0)|]; repeat split.
  - intros [H1 H2]. unfold handle_command. rewrite H1, H2.
    split_ifs; split; reflexivity.
Qed.

(** X8. The commands that end the session.  [handle_command] returns [Break]
    in two cases and no other: the line is a built-in of the exit family, or
    it is a forwarded line that tokenizes and whose child process cannot be
    started for want of the program. *)
Theorem break_exactly_on_exit_or_missing_program (os : OS)
    (raw base_cmd : str) (base_args : list str) (vars_map : dict)
    (m : machine os) :
  result (handle_command os raw base_cmd base_args vars_map m) = Break
  <-> (startswith (lit ":") raw = true /\ exit_family (strip (skipn 1 raw)))
      \/ (forwarded raw
          /\ exists args,
              Shlex.split (expand_vars raw vars_map) = Shlex.Ok args
              /\ fst (popen_wait os ([base_cmd] ++ base_args ++ args) m)
                 = FileNotFoundError).
Proof.
  split.
  - intros Hb. destruct (startswith (lit ":") raw) eqn:H.
    + left. split; [reflexivity|].
      destruct (str_eqb (strip (skipn 1 raw)) (lit "q")
                || str_eqb (strip (skipn 1 raw)) (lit "quit")
                || str_eqb (strip (skipn 1 raw)) (lit "exit")) eqn:E.
      * apply exit_family_test, E.
      * exfalso.
        apply (builtin_never_breaks_otherwise os raw base_cmd base_args
                                              vars_map m H); [|exact Hb].
        intros Hf. apply exit_family_test in Hf. congruence.
    + destruct (startswith (lit "!") raw) eqn:H2.
      * rewrite (handle_shell os raw base_cmd base_args vars_map m H2) in Hb.
        destruct (strip (skipn 1 raw)) as [|c s]; [discriminate Hb|].
        destruct (fst (call_shell os (c :: s) m)); discriminate Hb.
      * right. split; [split; assumption|].
        unfold handle_command in Hb. rewrite H, H2 in Hb.
        destruct (Shlex.split (expand_vars raw vars_map)) as [args|e];
          [|discriminate Hb].
        exists args. split; [reflexivity|].
        destruct (popen_wait os ([base_cmd] ++ base_args ++ args) m)
          as [[rc| |e] m']; try discriminate Hb. reflexivity.
  - intros [[H Hx] | [Hf (args & Hs & Hp)]].
    + destruct (builtin_result os raw base_cmd base_args vars_map m H)
        as [Hb _].
      rewrite (Hb Hx). reflexivity.
    + destruct (popen_wait os ([base_cmd] ++ base_args ++ args) m)
        as [s m'] eqn:E. cbn [fst] in Hp. subst s.
      rewrite (handle_forward_not_found os _ _ _ _ _ Hf _ _ Hs E).
      reflexivity.
Qed.

(** X9. A built-in named without what it needs is an unknown built-in.  The
    commands [set] and [cd] with nothing after them, and [history] when the
    line-input service is absent, get the [Unknown built-in] message on the
    error stream; the store and the machine are untouched and the outcome is
    [Continue]. *)
Theorem bare_builtins_are_unknown (os : OS) (raw base_cmd : str)
    (base_args : list str) (vars_map : dict) (m : machine os) :
  startswith (lit ":") raw = true ->
  strip (skipn 1 raw) = lit "set" \/ strip (skipn 1 raw) = lit "cd"
  \/ (strip (skipn 1 raw) = lit "history" /\ HAVE_READLINE os = false) ->
  handle_command os raw base_cmd base_args vars_map m
  = {| result := Continue;
       trace := [Stderr (lit "Unknown built-in. Use :help")];
       vars_after := vars_map; machine_after := m |}.
Proof.
  intros H Hcmd. apply builtin_unknown; [exact H|]. unfold recognised.
  destruct Hcmd as [-> | [-> | [-> Hrl]]]; [reflexivity | reflexivity|].
  rewrite Hrl. reflexivity.
Qed.

(** ** Plain words *)

Lemma bare_char_classes (c : char) :
  bare_char c = true ->
  Shlex.in_whitespace c = false /\ Shlex.in_quotes c = false
  /\ Shlex.in_escape c = false /\ N.eqb c (chr "$") = false.
Proof.
  unfold bare_char. rewrite !andb_true_iff, !negb_true_iff. tauto.
Qed.

Lemma read_tokens_in_word (w : str) :
  forallb bare_char w = true ->
  forall es qd tok rest,
    Shlex.read_tokens Shlex.st_word es qd tok (w ++ rest)
    = Shlex.read_tokens Shlex.st_word es qd (tok ++ w) rest.
Proof.
  induction w as [|c w IH]; intros Hw es qd tok rest.
  - rewrite app_nil_r. reflexivity.
  - cbn [forallb] in Hw. apply andb_true_iff in Hw as [Hc Hw].
    destruct (bare_char_classes c Hc) as (H1 & H2 & H3 & _).
    cbn [app Shlex.read_tokens]. rewrite H1, H2, H3, (IH Hw), <- app_assoc.
    reflexivity.
Qed.

Lemma read_tokens_word_start (w : str) :
  bare_word w = true ->
  forall es qd tok rest,
    Shlex.read_tokens Shlex.st_space es qd tok (w ++ rest)
    = Shlex.read_tokens Shlex.st_word es qd w rest.
Proof.
  unfold bare_word. destruct w as [|c w]; [discriminate|].
  cbn [Shlex.nonempty andb forallb]. rewrite andb_true_iff.
  intros [Hc Hw] es qd tok rest.
  destruct (bare_char_classes c Hc) as (H1 & H2 & H3 & _).
  cbn [app Shlex.read_tokens]. rewrite H1, H2, H3.
  apply (read_tokens_in_word w Hw es qd [c] rest).
Qed.

Lemma bare_word_nonempty (w : str) :
  bare_word w = true -> Shlex.nonempty w = true.
Proof. unfold bare_word. rewrite andb_true_iff. tauto. Qed.

Lemma split_join_words (words : list str) :
  Forall (fun w => bare_word w = true) words ->
  Shlex.split (join_words words) = Shlex.Ok words.
Proof.
  unfold Shlex.split. induction 1 as [|w rest Hw Hrest IH]; [reflexivity|].
  pose proof (bare_word_nonempty w Hw) as Hne.
  destruct rest as [|w' rest'].
  - cbn [join_words]. rewrite <- (app_nil_r w) at 1.
    rewrite (read_tokens_word_start w Hw). cbn [Shlex.read_tokens].
    unfold Shlex.emit. rewrite Hne. reflexivity.
  - change (join_words (w :: w' :: rest'))
      with (w ++ chr " " :: join_words (w' :: rest')).
    rewrite (read_tokens_word_start w Hw). cbn [Shlex.read_tokens].
    change (Shlex.in_whitespace (chr " ")) with true. cbv iota.
    rewrite Hne. cbn [orb]. rewrite IH. unfold Shlex.emit. rewrite Hne.
    reflexivity.
Qed.

Lemma no_dollar_no_opener (s : str) :
  contains (chr "$") s = false -> has_ref_opener s = false.
Proof.
  induction s as [|c s IH]; [reflexivity|].
  unfold contains. cbn [existsb]. rewrite orb_false_iff. intros [Hc Hs].
  cbn [has_ref_opener]. rewrite (IH Hs), orb_false_r.
  change (lit "${") with [chr "$"; chr "{"]. cbn [startswith].
  rewrite Hc. reflexivity.
Qed.

Lemma bare_word_no_dollar (w : str) :
  forallb bare_char w = true -> contains (chr "$") w = false.
Proof.
  induction w as [|c w IH]; [reflexivity|].
  cbn [forallb]. rewrite andb_true_iff. intros [Hc Hw].
  destruct (bare_char_classes c Hc) as (_ & _ & _ & H4).
  unfold contains. cbn [existsb]. rewrite (N.eqb_sym (chr "$") c), H4.
  apply IH, Hw.
Qed.

Lemma join_words_no_dollar (words : list str) :
  Forall (fun w => bare_word w = true) words ->
  contains (chr "$") (join_words words) = false.
Proof.
  induction 1 as [|w rest Hw Hrest IH]; [reflexivity|].
  unfold bare_word in Hw. apply andb_true_iff in Hw as [_ Hw].
  destruct rest as [|w' rest']; [apply bare_word_no_dollar, Hw|].
  change (join_words (w :: w' :: rest'))
    with (w ++ chr " " :: join_words (w' :: rest')).
  rewrite contains_app, (bare_word_no_dollar w Hw).
  unfold contains in *. cbn [existsb orb]. rewrite IH. reflexivity.
Qed.

(** X10. Plain words are forwarded word by word.  A forwarded line made of
    words with a single space between them, each word non-empty and free of
    blanks, quotes, backslashes and dollar signs, tokenizes into these very
    words whatever the store holds, and starts exactly one child process: the
    base command, the base arguments, then the words. *)
Theorem plain_words_are_forwarded_as_typed (os : OS) (base_cmd : str)
    (base_args : list str) (vars_map : dict) (m : machine os)
    (words : list str) :
  Forall (fun w => bare_word w = true) words ->
  forwarded (join_words words) ->
  Shlex.split (expand_vars (join_words words) vars_map) = Shlex.Ok words
  /\ spawned (trace (handle_command os (join_words words) base_cmd base_args
                                    vars_map m))
     = [[base_cmd] ++ base_args ++ words].
Proof.
  intros Hw Hf.
  assert (Hs : Shlex.split (expand_vars (join_words words) vars_map)
               = Shlex.Ok words).
  { rewrite expand_vars_no_opener
      by apply no_dollar_no_opener, join_words_no_dollar, Hw.
    apply split_join_words, Hw. }
  split; [exact Hs|].
  apply (handle_forward_spawned os base_cmd base_args _ vars_map m Hf _ Hs).
Qed.

(** ** The session loop at its edges *)

Lemma lines_read_cons (os : OS) (line : str) (lines : list str)
    (m : machine os) :
  lines_read os (line :: lines) m = lines_read os lines (line_read os line m).
Proof. reflexivity. Qed.

Lemma read_line_parts_unfinished (os : OS) (prompt cont_prompt : str)
    (segs : list str) :
  forall (line_parts : list str) (m : machine os),
    read_line_parts os prompt cont_prompt line_parts (map continued segs) m
    = (Prompt (shown_prompt prompt cont_prompt line_parts)
         :: repeat (Prompt cont_prompt) (length segs),
       lines_read os (map continued segs) m, None).
Proof.
  induction segs as [|seg segs IH]; intros line_parts m.
  - destruct line_parts; reflexivity.
  - cbn [map read_line_parts]. unfold continued at 1.
    change (lit "\") with [chr "\"]. rewrite endswith_last.
    fold (continued seg). rewrite IH, lines_read_cons.
    destruct line_parts; reflexivity.
Qed.

(** X11. A continuation that the input never finishes is dropped.  When
    every line of the input ends with a backslash, the empty input among
    them, no command is handled: the session shows the primary prompt, then
    the continuation prompt once for each line read, prints an empty line at
    the end of input, saves the history and ends with an empty store. *)
Theorem unfinished_continuation_is_dropped (os : OS) (base_cmd : str)
    (base_args : list str) (segs : list str) (m : machine os) :
  run_repl os base_cmd base_args (map continued segs) m
  = (Prompt (primary_prompt base_cmd)
       :: repeat (Prompt (lit "..> ")) (length segs)
       ++ [Stdout []] ++ save_history os,
     [],
     lines_read os (map continued segs) (startup os base_cmd m),
     None).
Proof.
  unfold run_repl. cbn [repl_loop]. unfold read_raw.
  rewrite read_line_parts_unfinished. cbn [shown_prompt].
  unfold primary_prompt. cbn [app]. rewrite <- app_assoc. reflexivity.
Qed.

Lemma read_raw_one_line (os : OS) (prompt cont_prompt : str) (line : str)
    (stdin : list str) (m : machine os) :
  endswith (lit "\") line = false ->
  read_raw os prompt cont_prompt (line :: stdin) m
  = ([Prompt prompt], line_read os line m, Some (strip line, stdin)).
Proof.
  intros H. unfold read_raw. cbn [read_line_parts]. rewrite H.
  cbn [app concat]. rewrite app_nil_r. reflexivity.
Qed.

Lemma session_blank_line (os : OS) (base_cmd : str) (base_args : list str)
    (vars_map : dict) (line : str) (stdin : list str) (m : machine os) :
  blank_line line ->
  session os base_cmd base_args vars_map (line :: stdin) m
  = let '(evs, vars', m', exc) :=
      session os base_cmd base_args vars_map stdin (line_read os line m) in
    (Prompt (primary_prompt base_cmd) :: evs, vars', m', exc).
Proof.
  intros [Hc Hb]. unfold session. cbn [length repl_loop].
  rewrite (read_raw_one_line _ _ _ _ _ _ Hc), Hb.
  cbn [Shlex.nonempty negb]. reflexivity.
Qed.

(** X12. Blank lines are skipped.  Lines that hold blanks only, and do not
    end with a backslash, cost a primary prompt each and nothing else: the
    session goes on with the lines that follow, from the same store, as if
    the blank lines had not been typed. *)
Theorem blank_lines_are_skipped (os : OS) (base_cmd : str)
    (base_args : list str) (vars_map : dict) (blanks : list str)
    (stdin : list str) (m : machine os) :
  Forall blank_line blanks ->
  session os base_cmd base_args vars_map (blanks ++ stdin) m
  = let '(evs, vars', m', exc) :=
      session os base_cmd base_args vars_map stdin (lines_read os blanks m) in
    (repeat (Prompt (primary_prompt base_cmd)) (length blanks) ++ evs,
     vars', m', exc).
Proof.
  intros H. revert m. induction H as [|line blanks Hl Hb IH]; intros m.
  - cbn [app length repeat lines_read fold_left].
    destruct (session _ _ _ _ _ _) as [[[evs vars'] m'] exc]. reflexivity.
  - cbn [app]. rewrite (session_blank_line _ _ _ _ _ _ _ Hl), IH.
    rewrite lines_read_cons.
    destruct (session _ _ _ _ _ _) as [[[evs vars'] m'] exc]. reflexivity.
Qed.

(** ** The history file and the entry point *)

Lemma history_writes_app (a b : list event) :
  history_writes (a ++ b) = history_writes a + history_writes b.
Proof. unfold history_writes. rewrite filter_app, length_app. reflexivity. Qed.

Lemma history_writes_map {A : Type} (g : A -> event) (l : list A) :
  (forall x, g x <> WriteHistory) -> history_writes (map g l) = 0.
Proof.
  intros H. induction l as [|x l IH]; [reflexivity|].
  unfold history_writes in *. cbn [map filter].
  destruct (g x) eqn:E; try exact IH. destruct (H x E).
Qed.

Lemma handle_command_no_history_write (os : OS) (raw base_cmd : str)
    (base_args : list str) (vars_map : dict) (m : machine os) :
  history_writes (trace (handle_command os raw base_cmd base_args vars_map m))
  = 0.
Proof.
  unfold handle_command.
  split_ifs; try reflexivity; apply history_writes_map; discriminate.
Qed.

Lemma read_line_parts_no_history_write (os : OS) (prompt cont_prompt : str)
    (stdin : list str) :
  forall line_parts m,
    history_writes
      (fst (fst (read_line_parts os prompt cont_prompt line_parts stdin m)))
    = 0.
Proof.
  induction stdin as [|line stdin IH]; intros line_parts m; [reflexivity|].
  cbn [read_line_parts]. destruct (endswith (lit "\") line); [|reflexivity].
  specialize (IH (line_parts ++ [removelast line]) (line_read os line m)).
  destruct (read_line_parts _ _ _ _ stdin _) as [[evs m'] r]. exact IH.
Qed.

Lemma read_raw_no_history_write (os : OS) (prompt cont_prompt : str)
    (stdin : list str) (m : machine os) :
  history_writes (fst (fst (read_raw os prompt cont_prompt stdin m))) = 0.
Proof.
  unfold read_raw.
  pose proof (read_line_parts_no_history_write os prompt cont_prompt stdin
                                               [] m) as H.
  destruct (read_line_parts _ _ _ _ stdin m) as [[evs m'] [[parts rest]|]];
    exact H.
Qed.

Lemma repl_loop_no_history_write (os : OS) (base_cmd : str)
    (base_args : list str) (prompt cont_prompt : str) (fuel : nat) :
  forall vars_map stdin m,
    history_writes
      (fst (fst (fst (repl_loop fuel os base_cmd base_args prompt cont_prompt
                                vars_map stdin m)))) = 0.
Proof.
  induction fuel as [|fuel IH]; intros vars_map stdin m; [reflexivity|].
  cbn [repl_loop].
  pose proof (read_raw_no_history_write os prompt cont_prompt stdin m) as Hr.
  destruct (read_raw os prompt cont_prompt stdin m)
    as [[evs m'] [[raw stdin']|]]; cbn [fst] in Hr.
  - destruct (negb (Shlex.nonempty raw)).
    + specialize (IH vars_map stdin' m').
      destruct (repl_loop fuel _ _ _ _ _ vars_map stdin' m')
        as [[[e v] mm] exc].
      cbn [fst] in *. rewrite history_writes_app, Hr, IH. reflexivity.
    + pose proof (handle_command_no_history_write os raw base_cmd base_args
                                                  vars_map m') as Hh.
      set (r := handle_command os raw base_cmd base_args vars_map m') in *.
      specialize (IH (vars_after r) stdin' (machine_after r)).
      destruct (repl_loop fuel _ _ _ _ _ (vars_after r) stdin'
                          (machine_after r)) as [[[e v] mm] exc].
      destruct (result r); cbn [fst] in *;
        rewrite ?history_writes_app, Hr, Hh, ?IH; reflexivity.
  - cbn [fst]. rewrite history_writes_app, Hr. reflexivity.
Qed.

Lemma run_repl_session (os : OS) (base_cmd : str) (base_args : list str)
    (stdin : list str) (m : machine os) :
  run_repl os base_cmd base_args stdin m
  = let '(evs, vars_map, m', exc) :=
      session os base_cmd base_args [] stdin (startup os base_cmd m) in
    (evs ++ save_history os, vars_map, m', exc).
Proof. reflexivity. Qed.

(** X13. The history file is written once, when the session ends.  However
    the session goes, an exception that leaves the loop included, its trace
    is the trace of the loop followed by the saving of the history; the loop
    itself never writes the history file, so the file is written exactly
    once, as the last thing done, when the line-input service is present,
    and never when it is absent. *)
Theorem history_is_saved_once_at_the_end (os : OS) (base_cmd : str)
    (base_args : list str) (stdin : list str) (m : machine os) :
  let evs := fst (fst (fst (run_repl os base_cmd base_args stdin m))) in
  (exists loop_evs,
      evs = loop_evs ++ save_history os /\ history_writes loop_evs = 0)
  /\ history_writes evs = (if HAVE_READLINE os then 1 else 0).
Proof.
  intros evs. subst evs. rewrite run_repl_session. unfold session.
  pose proof (repl_loop_no_history_write os base_cmd base_args
                (primary_prompt base_cmd) (lit "..> ") (S (length stdin)) []
                stdin (startup os base_cmd m)) as H.
  destruct (repl_loop _ _ _ _ _ _ _ _ _) as [[[e v] mm] exc].
  cbn [fst] in *. split.
  - exists e. split; [reflexivity | exact H].
  - rewrite history_writes_app, H. unfold save_history.
    destruct (HAVE_READLINE os); reflexivity.
Qed.






(** ** Subcommand discovery *)

Lemma in_set_add (x y : str) (s : list str) :
  In x (set_add y s) <-> x = y \/ In x s.
Proof.
  unfold set_add. destruct (existsb (str_eqb y) s) eqn:E.
  - split; [auto|]. intros [-> | H]; [|exact H].
    apply existsb_exists in E as (z & Hz & Hyz).
    apply str_eqb_eq in Hyz. subst. exact Hz.
  - rewrite in_app_iff. simpl. intuition.
Qed.

Lemma set_add_nodup (y : str) (s : list str) :
  NoDup s -> NoDup (set_add y s).
Proof.
  intros H. unfold set_add. destruct (existsb (str_eqb y) s) eqn:E; [exact H|].
  apply NoDup_rev in H. rewrite <- (rev_involutive (s ++ [y])).
  apply NoDup_rev. rewrite rev_app_distr. simpl. constructor; [|exact H].
  rewrite <- in_rev. intros Hin.
  assert (existsb (str_eqb y) s = true); [|congruence].
  apply existsb_exists. exists y. split; [exact Hin | apply str_eqb_refl].
Qed.

Lemma fold_left_invariant {A B : Type} (P : A -> Prop) (f : A -> B -> A)
    (l : list B) :
  (forall acc x, P acc -> P (f acc x)) ->
  forall init, P init -> P (fold_left f l init).
Proof.
  intros Hf. induction l as [|x l IH]; intros init H; [exact H|].
  cbn [fold_left]. apply IH, Hf, H.
Qed.

(** What an accumulator once holds it holds at the end, when no step drops
    anything. *)
Lemma fold_left_reaches {A B : Type} (P : A -> Prop) (f : A -> B -> A)
    (l : list B) (x : B) :
  (forall acc y, P acc -> P (f acc y)) ->
  (forall acc, P (f acc x)) ->
  In x l -> forall init, P (fold_left f l init).
Proof.
  intros Hkeep Hx. induction l as [|y l IH]; intros Hin init; [destruct Hin|].
  cbn [fold_left]. destruct Hin as [-> | Hin].
  - apply fold_left_invariant; [exact Hkeep | apply Hx].
  - apply IH, Hin.
Qed.

Lemma name_char_not_sep (c : char) : name_char c = true -> list_sep c = false.
Proof.
  unfold name_char, lower_alnum, list_sep, in_range.
  rewrite !orb_true_iff, !andb_true_iff, !N.leb_le, N.eqb_eq.
  intros H. apply orb_false_iff.
  split; apply N.eqb_neq; unfold chr in *; simpl in *; lia.
Qed.

Lemma name_char_not_space (c : char) : name_char c = true -> isspace c = false.
Proof.
  unfold name_char, lower_alnum, isspace, in_range.
  rewrite !orb_true_iff, !andb_true_iff, !N.leb_le, N.eqb_eq.
  intros H. unfold chr in *. simpl in *.
  repeat (apply orb_false_iff; split);
    rewrite ?andb_false_iff, ?N.leb_gt, ?N.eqb_neq; lia.
Qed.

(** The pieces of a text of names and separators are made of names'
    characters. *)
Lemma re_split_runs_pieces (s : str) :
  forall cur in_run,
    forallb name_char cur = true ->
    forallb (fun c => list_sep c || name_char c) s = true ->
    Forall (fun t => forallb name_char t = true)
           (re_split_runs list_sep cur in_run s).
Proof.
  induction s as [|c s IH]; intros cur in_run Hcur Hs.
  - constructor; [exact Hcur | constructor].
  - cbn [forallb] in Hs. apply andb_true_iff in Hs as [Hc Hs].
    cbn [re_split_runs]. destruct (list_sep c) eqn:E.
    + destruct in_run; [|constructor; [exact Hcur|]]; apply IH; auto.
    + apply IH; [|exact Hs]. rewrite forallb_app, Hcur. cbn [forallb].
      cbn [orb] in Hc. rewrite Hc. reflexivity.
Qed.

Lemma strip_clean_tail (s : str) : clean_tail (strip s).
Proof.
  intros a c E.
  assert (H : clean_head (rev (strip s))).
  { unfold strip, rstrip. set (y := lstrip (rev s)).
    destruct (lstrip_suffix (rev y)) as [w Hw].
    apply (clean_head_prefix _ (rev w)).
    rewrite <- rev_app_distr, <- Hw, rev_involutive. apply lstrip_clean. }
  rewrite E, rev_app_distr in H. exact H.
Qed.

Lemma clean_tail_cons (c d : char) (s : str) :
  clean_tail (c :: d :: s) -> clean_tail (d :: s).
Proof. intros H a e E. apply (H (c :: a) e). rewrite E. reflexivity. Qed.

Lemma names_tail_chars (s : str) :
  forall after_sep,
    names_tail after_sep s = true -> clean_tail s ->
    forallb (fun c => list_sep c || name_char c) s = true.
Proof.
  induction s as [|c s IH]; intros after_sep H Hct; [reflexivity|].
  assert (Hs : clean_tail s -> forall b, names_tail b s = true ->
               forallb (fun c => list_sep c || name_char c) s = true).
  { intros Hc b Hb. apply (IH b Hb Hc). }
  assert (Hct' : s <> [] -> clean_tail s).
  { destruct s as [|d s]; [congruence|]. intros _.
    apply (clean_tail_cons c), Hct. }
  cbn [names_tail] in H. cbn [forallb].
  destruct (name_char c) eqn:En.
  - rewrite orb_true_r. cbn [andb].
    destruct s as [|d s]; [reflexivity|].
    apply (Hs (Hct' ltac:(discriminate)) _ H).
  - destruct (list_sep c) eqn:Es.
    + cbn [orb andb]. apply andb_true_iff in H as [_ H].
      destruct s as [|d s]; [reflexivity|].
      apply (Hs (Hct' ltac:(discriminate)) _ H).
    + apply andb_true_iff in H as [H Hnil].
      apply andb_true_iff in H as [Hc _]. apply N.eqb_eq in Hc. subst c.
      destruct s; [|discriminate].
      pose proof (Hct [] 10%N eq_refl) as Hsp. discriminate Hsp.
Qed.

Lemma match_name_list_chars (line : str) :
  match_name_list line = true -> clean_tail line ->
  forallb (fun c => list_sep c || name_char c) line = true.
Proof.
  destruct line as [|c s]; [discriminate|]. cbn [match_name_list].
  rewrite andb_true_iff. intros [Hc Hs] Hct. cbn [forallb].
  unfold name_char. rewrite Hc. rewrite orb_true_r. cbn [andb].
  destruct s as [|d s]; [reflexivity|].
  apply (names_tail_chars _ _ Hs), (clean_tail_cons c), Hct.
Qed.

Lemma set_add_names (y : str) (s : list str) :
  subcommand_name y -> Forall subcommand_name s ->
  Forall subcommand_name (set_add y s).
Proof.
  intros Hy Hs. apply Forall_forall. intros x Hx.
  apply in_set_add in Hx as [-> | Hx]; [exact Hy|].
  rewrite Forall_forall in Hs. auto.
Qed.

Lemma scan_list_line_names (cmds : list str) (line : str) :
  Forall subcommand_name cmds ->
  Forall subcommand_name (scan_list_line cmds line).
Proof.
  intros H. unfold scan_list_line.
  destruct (negb (Shlex.nonempty (strip line))); [exact H|].
  destruct (match_name_list (strip line)) eqn:E; [|exact H].
  pose proof (re_split_runs_pieces (strip line) [] false eq_refl
                (match_name_list_chars _ E (strip_clean_tail line))) as Hp.
  revert cmds H.
  induction Hp as [|tok toks Htok Htoks IH]; intros cmds H; [exact H|].
  cbn [fold_left]. apply IH.
  destruct (Shlex.nonempty tok) eqn:Ene; [|exact H].
  apply set_add_names; [split; assumption | exact H].
Qed.

Lemma longest_bounded_name (ua : char -> bool) (rev_run : str) :
  forallb name_char rev_run = true ->
  forall next g,
    longest_bounded ua rev_run next = Some g -> subcommand_name g.
Proof.
  induction rev_run as [|c r IH]; intros Hr next g; [discriminate|].
  cbn [forallb] in Hr. apply andb_true_iff in Hr as [Hc Hr].
  cbn [longest_bounded]. destruct (xorb _ _).
  - intros E. injection E as <-. split.
    + cbn [rev]. destruct (rev r); reflexivity.
    + apply forallb_forall. intros x Hx. cbn [rev] in Hx.
      apply in_app_or in Hx as [Hx | [<- | []]]; [|exact Hc].
      rewrite <- in_rev in Hx. rewrite forallb_forall in Hr. auto.
  - apply IH, Hr.
Qed.

Lemma forallb_rev {A : Type} (p : A -> bool) (l : list A) :
  forallb p l = true -> forallb p (rev l) = true.
Proof.
  rewrite !forallb_forall. intros H x Hx. apply H, in_rev, Hx.
Qed.

Lemma match_indented_name (ua : char -> bool) (line g : str) :
  match_indented ua line = Some g -> subcommand_name g.
Proof.
  unfold match_indented. destruct (span isspace line) as [blanks rest].
  destruct (Nat.leb 2 (length blanks)); [|discriminate].
  pose proof (span_prefix_all name_char rest) as Hrun.
  destruct (span name_char rest) as [run after]. cbn [fst] in Hrun.
  apply longest_bounded_name, forallb_rev, Hrun.
Qed.

Lemma scan_indented_line_names (ua : char -> bool) (cmds : list str)
    (line : str) :
  Forall subcommand_name cmds ->
  Forall subcommand_name (scan_indented_line ua cmds line).
Proof.
  intros H. unfold scan_indented_line.
  destruct (match_indented ua line) as [g|] eqn:E; [|exact H].
  apply set_add_names; [apply (match_indented_name ua line g E) | exact H].
Qed.

Lemma scan_list_line_nodup (cmds : list str) (line : str) :
  NoDup cmds -> NoDup (scan_list_line cmds line).
Proof.
  intros H. unfold scan_list_line.
  destruct (negb (Shlex.nonempty (strip line))); [exact H|].
  destruct (match_name_list (strip line)); [|exact H].
  apply fold_left_invariant; [|exact H].
  intros acc tok Ha. destruct (Shlex.nonempty tok); [|exact Ha].
  apply set_add_nodup, Ha.
Qed.

Lemma scan_indented_line_nodup (ua : char -> bool) (cmds : list str)
    (line : str) :
  NoDup cmds -> NoDup (scan_indented_line ua cmds line).
Proof.
  intros H. unfold scan_indented_line.
  destruct (match_indented ua line); [apply set_add_nodup, H | exact H].
Qed.

(** X15. What is detected is made of names.  Whatever the help text holds,
    every subcommand that [detect_git_subcommands] returns is a non-empty
    string of lower-case letters, digits and hyphens, and none is returned
    twice.  Nothing is returned for a base command whose last path component
    is not [git], and nothing when the help text cannot be had. *)
Theorem detected_subcommands_are_names (ua : char -> bool)
    (check_output : list str -> option str) (base_cmd : str) :
  let cmds := detect_git_subcommands ua check_output base_cmd in
  Forall subcommand_name cmds /\ NoDup cmds
  /\ (basename base_cmd <> lit "git" -> cmds = [])
  /\ (check_output [base_cmd; lit "help"; lit "-a"] = None -> cmds = []).
Proof.
  intros cmds. subst cmds. unfold detect_git_subcommands.
  destruct (str_eqb (basename base_cmd) (lit "git")) eqn:E; cbn [negb].
  - apply str_eqb_eq in E.
    destruct (check_output [base_cmd; lit "help"; lit "-a"]) as [out|].
    + repeat split; try congruence.
      * apply fold_left_invariant;
          [intros acc x; apply scan_indented_line_names|].
        apply fold_left_invariant;
          [intros acc x; apply scan_list_line_names | constructor].
      * apply fold_left_invariant;
          [intros acc x; apply scan_indented_line_nodup|].
        apply fold_left_invariant;
          [intros acc x; apply scan_list_line_nodup | constructor].
    + repeat split; constructor.
  - repeat split; constructor.
Qed.

Lemma join_words_cons (n : str) (rest : list str) :
  join_words (n :: rest) = n ++ flat_map (fun w => chr " " :: w) rest.
Proof.
  revert n. induction rest as [|w rest IH]; intros n.
  - cbn [join_words flat_map]. rewrite app_nil_r. reflexivity.
  - change (join_words (n :: w :: rest))
      with (n ++ chr " " :: join_words (w :: rest)).
    rewrite IH. reflexivity.
Qed.

Lemma names_tail_name (w : str) (rest : str) :
  forallb name_char w = true ->
  forall after_sep,
    w <> [] \/ after_sep = false ->
    names_tail after_sep (w ++ rest) = names_tail false rest.
Proof.
  induction w as [|c w IH]; intros Hw after_sep Hne.
  - destruct Hne as [Hne | ->]; [congruence | reflexivity].
  - cbn [forallb] in Hw. apply andb_true_iff in Hw as [Hc Hw].
    cbn [app names_tail]. rewrite Hc. apply IH; auto.
Qed.

Lemma names_tail_list (names : list str) :
  Forall subcommand_name names ->
  names_tail false (flat_map (fun w => chr " " :: w) names) = true.
Proof.
  induction 1 as [|n names [Hne Hn] Hnames IH]; [reflexivity|].
  cbn [flat_map app names_tail].
  change (name_char (chr " ")) with false.
  change (list_sep (chr " ")) with true. cbv iota. cbn [negb andb].
  rewrite names_tail_name; [exact IH | exact Hn|].
  left. destruct n; [discriminate Hne | discriminate].
Qed.

Lemma re_split_runs_name (w : str) (rest : str) :
  forallb name_char w = true ->
  forall cur,
    re_split_runs list_sep cur false (w ++ rest)
    = re_split_runs list_sep (cur ++ w) false rest.
Proof.
  induction w as [|c w IH]; intros Hw cur.
  - rewrite app_nil_r. reflexivity.
  - cbn [forallb] in Hw. apply andb_true_iff in Hw as [Hc Hw].
    cbn [app re_split_runs]. rewrite (name_char_not_sep c Hc), (IH Hw).
    rewrite <- app_assoc. reflexivity.
Qed.

Lemma re_split_runs_list (names : list str) :
  Forall subcommand_name names ->
  forall cur,
    re_split_runs list_sep cur false (flat_map (fun w => chr " " :: w) names)
    = cur :: names.
Proof.
  induction 1 as [|n names [Hne Hn] Hnames IH]; intros cur; [reflexivity|].
  cbn [flat_map app re_split_runs].
  change (list_sep (chr " ")) with true. cbv iota. f_equal.
  destruct n as [|c n]; [discriminate Hne|].
  cbn [forallb] in Hn. apply andb_true_iff in Hn as [Hc Hn].
  cbn [app re_split_runs]. rewrite (name_char_not_sep c Hc).
  rewrite (re_split_runs_name n _ Hn), IH. reflexivity.
Qed.

Lemma set_add_keeps (x y : str) (s : list str) :
  In x s -> In x (set_add y s).
Proof. intros H. apply in_set_add. auto. Qed.

Lemma scan_list_line_keeps (x : str) (cmds : list str) (line : str) :
  In x cmds -> In x (scan_list_line cmds line).
Proof.
  intros H. unfold scan_list_line.
  destruct (negb (Shlex.nonempty (strip line))); [exact H|].
  destruct (match_name_list (strip line)); [|exact H].
  apply (fold_left_invariant (fun acc => In x acc)); [|exact H].
  intros acc tok Ha. destruct (Shlex.nonempty tok); [|exact Ha].
  apply set_add_keeps, Ha.
Qed.

Lemma scan_indented_line_keeps (ua : char -> bool) (x : str)
    (cmds : list str) (line : str) :
  In x cmds -> In x (scan_indented_line ua cmds line).
Proof.
  intros H. unfold scan_indented_line.
  destruct (match_indented ua line); [apply set_add_keeps, H | exact H].
Qed.

Lemma scan_list_line_finds (n : str) (names : list str) (cmds : list str)
    (line : str) :
  strip line = join_words names ->
  Forall subcommand_name names ->
  starts_lower_alnum (strip line) = true ->
  In n names ->
  In n (scan_list_line cmds line).
Proof.
  intros Hline Hnames Hstart Hin. unfold scan_list_line.
  destruct names as [|n0 rest]; [destruct Hin|].
  rewrite Hline in *. rewrite join_words_cons in *.
  inversion Hnames as [|? ? [Hne0 Hn0] Hrest]; subst.
  destruct n0 as [|c n0]; [discriminate Hne0|].
  cbn [app Shlex.nonempty negb match_name_list].
  cbn [app starts_lower_alnum] in Hstart. rewrite Hstart. cbn [andb].
  cbn [forallb] in Hn0. apply andb_true_iff in Hn0 as [Hc Hn0].
  rewrite names_tail_name by (auto). rewrite (names_tail_list rest Hrest).
  cbn [re_split_runs]. rewrite (name_char_not_sep c Hc).
  rewrite (re_split_runs_name n0 _ Hn0), (re_split_runs_list rest Hrest).
  cbn [app].
  apply (fold_left_reaches (fun acc => In n acc) _ _ n); [| |exact Hin].
  - intros acc tok Ha. destruct (Shlex.nonempty tok); [|exact Ha].
    apply set_add_keeps, Ha.
  - intros acc.
    assert (Hne : Shlex.nonempty n = true).
    { destruct Hin as [<- | Hin]; [reflexivity|].
      rewrite Forall_forall in Hrest. apply (Hrest n Hin). }
    rewrite Hne. apply in_set_add. auto.
Qed.

(** X16. Names listed on a line are detected.  When the help text of [git]
    has a line that, trimmed, is a list of names with a single space between
    them, the first beginning with a lower-case letter or a digit, each of
    these names is among the subcommands returned. *)
Theorem listed_names_are_detected (ua : char -> bool)
    (check_output : list str -> option str) (base_cmd out line : str)
    (names : list str) (n : str) :
  basename base_cmd = lit "git" ->
  check_output [base_cmd; lit "help"; lit "-a"] = Some out ->
  In line (splitlines out) ->
  strip line = join_words names ->
  Forall subcommand_name names ->
  starts_lower_alnum (strip line) = true ->
  In n names ->
  In n (detect_git_subcommands ua check_output base_cmd).
Proof.
  intros Hgit Hout Hline Hstrip Hnames Hstart Hin.
  unfold detect_git_subcommands. rewrite Hgit, Hout. cbn [str_eqb negb].
  change (str_eqb (lit "git") (lit "git")) with true. cbn [negb].
  apply (fold_left_invariant (fun acc => In n acc));
    [intros acc x; apply scan_indented_line_keeps|].
  apply (fold_left_reaches (fun acc => In n acc) _ _ line);
    [intros acc x; apply scan_list_line_keeps | | exact Hline].
  intros acc. apply (scan_list_line_finds n names); assumption.
Qed.

Lemma span_all_then (p : char -> bool) (a b : str) :
  forallb p a = true ->
  match b with [] => True | d :: _ => p d = false end ->
  span p (a ++ b) = (a, b).
Proof.
  intros Ha Hb. rewrite span_app, (span_all _ _ Ha).
  destruct b as [|d b]; [cbn [span]; rewrite app_nil_r; reflexivity|].
  rewrite span_stop by exact Hb. rewrite app_nil_r. reflexivity.
Qed.

Lemma lower_alnum_is_word (ua : char -> bool) (c : char) :
  lower_alnum c = true -> is_word ua c = true.
Proof.
  unfold lower_alnum, is_word, in_range.
  rewrite !orb_true_iff, !andb_true_iff, !N.leb_le. intros H.
  assert (Hlt : N.ltb c 128 = true) by (apply N.ltb_lt; lia).
  rewrite Hlt. rewrite !orb_true_iff, !andb_true_iff, !N.leb_le. tauto.
Qed.

(** X17. A name at the head of an indented line is detected.  When the help
    text of [git] has a line that begins with two whitespace characters or
    more, followed by a name that ends with a lower-case letter or a digit,
    followed by nothing or by a space, that name is among the subcommands
    returned. *)
Theorem indented_name_is_detected (ua : char -> bool)
    (check_output : list str -> option str) (base_cmd out : str)
    (blanks name rest : str) :
  basename base_cmd = lit "git" ->
  check_output [base_cmd; lit "help"; lit "-a"] = Some out ->
  In (blanks ++ name ++ rest) (splitlines out) ->
  forallb isspace blanks = true -> 2 <= length blanks ->
  subcommand_name name -> ends_lower_alnum name = true ->
  rest = [] \/ (exists rest', rest = chr " " :: rest') ->
  In name (detect_git_subcommands ua check_output base_cmd).
Proof.
  intros Hgit Hout Hline Hblanks Hlen [Hne Hname] Hend Hrest.
  unfold detect_git_subcommands. rewrite Hgit, Hout.
  change (str_eqb (lit "git") (lit "git")) with true. cbn [negb].
  apply (fold_left_reaches (fun acc => In name acc) _ _
                           (blanks ++ name ++ rest));
    [intros acc x; apply scan_indented_line_keeps | | exact Hline].
  intros acc. unfold scan_indented_line, match_indented.
  assert (S1 : span isspace (blanks ++ name ++ rest) = (blanks, name ++ rest)).
  { apply span_all_then; [exact Hblanks|].
    destruct name as [|c name]; [discriminate Hne|]. cbn [app].
    cbn [forallb] in Hname. apply andb_true_iff in Hname as [Hc _].
    apply name_char_not_space, Hc. }
  assert (S2 : span name_char (name ++ rest) = (name, rest)).
  { apply span_all_then; [exact Hname|].
    destruct Hrest as [-> | [rest' ->]]; [exact I | reflexivity]. }
  rewrite S1. apply Nat.leb_le in Hlen. rewrite Hlen, S2.
  unfold ends_lower_alnum in Hend.
  destruct (rev name) as [|c r] eqn:Er; [discriminate Hend|].
  cbn [starts_lower_alnum] in Hend. cbn [longest_bounded].
  rewrite (lower_alnum_is_word ua c Hend).
  assert (Hnext : match hd_error rest with
                  | Some d => is_word ua d
                  | None => false
                  end = false).
  { destruct Hrest as [-> | [rest' ->]]; reflexivity. }
  rewrite Hnext. cbn [xorb]. rewrite <- Er, rev_involutive.
  apply in_set_add. auto.
Qed.

(** ** Tab completion *)

Lemma str_leb_total (a : str) :
  forall b, str_leb a b = false -> str_leb b a = true.
Proof.
  induction a as [|x a IH]; intros [|y b]; cbn [str_leb]; try congruence.
  rewrite orb_false_iff, andb_false_iff, N.ltb_ge, N.eqb_neq.
  intros [Hlt Heq]. destruct (N.eqb_spec y x) as [->|Hne].
  - rewrite N.ltb_irrefl. cbn [orb andb]. apply IH.
    destruct Heq; [congruence | assumption].
  - assert (H : N.ltb y x = true) by (apply N.ltb_lt; lia).
    rewrite H. reflexivity.
Qed.

Lemma str_leb_trans (a : str) :
  forall b c, str_leb a b = true -> str_leb b c = true -> str_leb a c = true.
Proof.
  induction a as [|x a IH]; intros [|y b] [|z c]; cbn [str_leb];
    try congruence.
  rewrite !orb_true_iff, !andb_true_iff, !N.ltb_lt, !N.eqb_eq.
  intros [H1 | [-> H1]] [H2 | [-> H2]].
  - left; lia.
  - left; exact H1.
  - left; exact H2.
  - right. split; [reflexivity | apply (IH b c H1 H2)].
Qed.

Lemma in_insert_sorted (x y : str) (l : list str) :
  In x (insert_sorted y l) <-> x = y \/ In x l.
Proof.
  induction l as [|z l IH]; cbn [insert_sorted].
  - simpl. intuition.
  - destruct (str_leb y z); simpl; [intuition|].
    rewrite IH. intuition.
Qed.

Lemma insert_sorted_ascending (y : str) (l : list str) :
  ascending l -> ascending (insert_sorted y l).
Proof.
  induction l as [|z l IH]; intros H; cbn [insert_sorted].
  - split; [constructor | exact I].
  - destruct H as [Hz Hl]. destruct (str_leb y z) eqn:E.
    + split; [|split; assumption].
      constructor; [exact E|].
      rewrite Forall_forall in *. intros w Hw.
      apply (str_leb_trans y z w E), Hz, Hw.
    + split; [|apply IH, Hl].
      apply Forall_forall. intros w Hw.
      apply in_insert_sorted in Hw as [-> | Hw].
      * apply str_leb_total, E.
      * rewrite Forall_forall in Hz. auto.
Qed.

Lemma insert_sorted_nodup (y : str) (l : list str) :
  ~ In y l -> NoDup l -> NoDup (insert_sorted y l).
Proof.
  induction l as [|z l IH]; intros Hy Hl; cbn [insert_sorted].
  - constructor; [auto | constructor].
  - destruct (str_leb y z); [constructor; assumption|].
    inversion Hl as [|? ? Hz Hl']; subst. constructor.
    + rewrite in_insert_sorted. intros [-> | H]; [|contradiction].
      apply Hy. left. reflexivity.
    + apply IH; [|exact Hl']. intros H. apply Hy. right. exact H.
Qed.

Lemma in_sorted (x : str) (l : list str) : In x (sorted l) <-> In x l.
Proof.
  induction l as [|y l IH]; cbn [sorted fold_right]; [reflexivity|].
  fold (sorted l). rewrite in_insert_sorted, IH. simpl. intuition.
Qed.

Lemma sorted_ascending (l : list str) : ascending (sorted l).
Proof.
  induction l as [|y l IH]; cbn [sorted fold_right]; [exact I|].
  apply insert_sorted_ascending, IH.
Qed.

Lemma sorted_nodup (l : list str) : NoDup l -> NoDup (sorted l).
Proof.
  induction 1 as [|y l Hy Hl IH]; cbn [sorted fold_right]; [constructor|].
  fold (sorted l). apply insert_sorted_nodup; [|exact IH].
  rewrite in_sorted. exact Hy.
Qed.

Lemma filter_ascending (p : str -> bool) (l : list str) :
  ascending l -> ascending (filter p l).
Proof.
  induction l as [|x l IH]; intros H; [exact I|].
  destruct H as [Hx Hl]. cbn [filter]. destruct (p x); [|apply IH, Hl].
  split; [|apply IH, Hl].
  apply Forall_forall. intros y Hy. apply filter_In in Hy as [Hy _].
  rewrite Forall_forall in Hx. auto.
Qed.

Lemma completer_first_token (fs : FS) (subcommands : list str)
    (buffer : str) (begin : nat) (text : str) (state : nat) :
  firstn begin buffer = []
  \/ Shlex.split (firstn begin buffer) = Shlex.Ok [] ->
  startswith (lit "!") (strip buffer) = false ->
  completer fs subcommands buffer begin text state
  = pick (filter (startswith text) (sorted subcommands)) state.
Proof.
  intros Htyped Hbang. unfold completer.
  assert (E : (if Shlex.nonempty (firstn begin buffer)
               then Shlex.split (firstn begin buffer) else Shlex.Ok [])
              = Shlex.Ok []).
  { destruct Htyped as [-> | H]; [reflexivity|].
    rewrite H. destruct (Shlex.nonempty _); reflexivity. }
  rewrite E, Hbang. destruct subcommands; reflexivity.
Qed.

(** X18. Completing the first word.  When nothing has been typed before the
    word being completed, and the line is no shell escape, the completer
    enumerates, state after state, the known subcommands that begin with the
    text, each once and in ascending order, and answers [None] from the
    state that follows the last of them. *)
Theorem first_word_completes_to_subcommands (fs : FS)
    (subcommands : list str) (buffer : str) (begin : nat) (text : str) :
  NoDup subcommands ->
  firstn begin buffer = []
  \/ Shlex.split (firstn begin buffer) = Shlex.Ok [] ->
  startswith (lit "!") (strip buffer) = false ->
  exists candidates,
    (forall state,
        completer fs subcommands buffer begin text state
        = pick candidates state)
    /\ (forall c, In c candidates
                  <-> In c subcommands /\ startswith text c = true)
    /\ ascending candidates /\ NoDup candidates.
Proof.
  intros Hnd Htyped Hbang.
  exists (filter (startswith text) (sorted subcommands)).
  split; [|split; [|split]].
  - intros state. apply completer_first_token; assumption.
  - intros c. rewrite filter_In, in_sorted. reflexivity.
  - apply filter_ascending, sorted_ascending.
  - apply NoDup_filter, sorted_nodup, Hnd.
Qed.

Lemma pick_none_later (candidates : list str) (state state' : nat) :
  state <= state' ->
  pick candidates state = NoCandidate -> pick candidates state' = NoCandidate.
Proof.
  unfold pick. intros Hle H.
  destruct (nth_error candidates state) eqn:E; [discriminate|].
  apply nth_error_None in E.
  assert (E' : nth_error candidates state' = None)
    by (apply nth_error_None; lia).
  rewrite E'. reflexivity.
Qed.

Lemma completer_shape (fs : FS) (subcommands : list str) (buffer : str)
    (begin : nat) (text : str) :
  (exists msg, forall state,
      completer fs subcommands buffer begin text state = Raised msg)
  \/ (exists candidates, forall state,
      completer fs subcommands buffer begin text state
      = pick candidates state).
Proof.
  unfold completer.
  destruct (if Shlex.nonempty (firstn begin buffer)
            then Shlex.split (firstn begin buffer) else Shlex.Ok [])
    as [tokens|msg]; [right | left; exists msg; reflexivity].
  destruct (startswith (lit "!") (strip buffer)).
  - exists []. intros state. destruct state; reflexivity.
  - eexists. intros state. reflexivity.
Qed.

(** X19. The enumeration ends.  Once the completer has answered [None] for
    a state it answers [None] for every later state, and when it raises for
    one state it raises the same for all: for a given line and text the
    candidates are a finite list walked in order. *)
Theorem completion_enumeration_ends (fs : FS) (subcommands : list str)
    (buffer : str) (begin : nat) (text : str) (state : nat) :
  (completer fs subcommands buffer begin text state = NoCandidate ->
   forall state', state <= state' ->
     completer fs subcommands buffer begin text state' = NoCandidate)
  /\ (forall msg,
       completer fs subcommands buffer begin text state = Raised msg ->
       forall state',
         completer fs subcommands buffer begin text state' = Raised msg)
  /\ (exists bound, forall state', bound <= state' ->
       forall c, completer fs subcommands buffer begin text state'
                 <> Candidate c).
Proof.
  destruct (completer_shape fs subcommands buffer begin text)
    as [[msg H] | [candidates H]].
  - split; [|split].
    + rewrite H. discriminate.
    + intros msg' E state'. rewrite H in *. exact E.
    + exists 0. intros state' _ c. rewrite H. discriminate.
  - split; [|split].
    + intros E state' Hle. rewrite H in *.
      apply (pick_none_later candidates state state' Hle E).
    + intros msg. rewrite H. unfold pick.
      destruct (nth_error candidates state); discriminate.
    + exists (length candidates). intros state' Hle c. rewrite H.
      unfold pick.
      assert (E : nth_error candidates state' = None)
        by (apply nth_error_None; exact Hle).
      rewrite E. discriminate.
Qed.

Lemma completer_raises (fs : FS) (subcommands : list str) (buffer : str)
    (begin : nat) (text : str) (state : nat) (msg : str) :
  completer fs subcommands buffer begin text state = Raised msg
  <-> Shlex.split (firstn begin buffer) = Shlex.ValueError msg.
Proof.
  unfold completer.
  assert (E : (if Shlex.nonempty (firstn begin buffer)
               then Shlex.split (firstn begin buffer) else Shlex.Ok [])
              = Shlex.split (firstn begin buffer)).
  { destruct (firstn begin buffer); reflexivity. }
  rewrite E. destruct (Shlex.split (firstn begin buffer)) as [tokens|e].
  - split; [|discriminate].
    destruct (startswith (lit "!") (strip buffer)); [discriminate|].
    destruct (nth_error _ state); discriminate.
  - split; congruence.
Qed.

(** X20. With malformed quoting before the word, the completer raises.  The
    completer raises exactly when the text before the word being completed
    has malformed quoting, and what it raises is the [ValueError] of the
    tokenizer: [No closing quotation] when that text leaves a quotation
    open, [No escaped character] when it ends with a backslash that has
    nothing to escape.  This is so whatever the text and the state, even on
    a line that is a shell escape: the text is tokenized before the escape
    is looked for. *)
Theorem completion_raises_in_open_quotation (fs : FS)
    (subcommands : list str) (buffer : str) (begin : nat) (text : str)
    (state : nat) :
  let typed := firstn begin buffer in
  let answer := completer fs subcommands buffer begin text state in
  (forall msg,
      answer = Raised msg <-> quoting_error (quoting_at_end typed) = Some msg)
  /\ ((exists msg, answer = Raised msg) <-> malformed_quoting typed)
  /\ (forall q, quoting_at_end typed = Inside q ->
                answer = Raised (lit "No closing quotation"))
  /\ (quoting_at_end typed = EscapedOutside
      \/ (exists q, quoting_at_end typed = EscapedInside q) ->
      answer = Raised (lit "No escaped character")).
Proof.
  intros typed answer.
  assert (H : forall msg, answer = Raised msg
                          <-> quoting_error (quoting_at_end typed) = Some msg).
  { intros msg. subst answer typed.
    rewrite completer_raises. apply ShlexFacts.split_error. }
  split; [exact H | split; [|split]].
  - rewrite ShlexFacts.split_malformed. subst answer typed.
    split; intros [msg Hm]; exists msg;
      [apply completer_raises in Hm | apply completer_raises]; exact Hm.
  - intros q Hq. apply H. rewrite Hq. reflexivity.
  - intros [He | [q He]]; apply H; rewrite He; reflexivity.
Qed.

(** X21. A shell escape gets no completion.  When the line, trimmed, begins
    with an exclamation mark and the text before the word being completed
    tokenizes, the completer answers [None] for every text and state. *)
Theorem shell_escape_gets_no_completion (fs : FS) (subcommands : list str)
    (buffer : str) (begin : nat) (text : str) (state : nat)
    (tokens : list str) :
  startswith (lit "!") (strip buffer) = true ->
  Shlex.split (firstn begin buffer) = Shlex.Ok tokens ->
  completer fs subcommands buffer begin text state = NoCandidate.
Proof.
  intros Hbang Hs. unfold completer. rewrite Hs, Hbang.
  destruct (Shlex.nonempty _); reflexivity.
Qed.

Lemma file_candidates_spec (fs : FS) (text c : str) :
  In c (file_candidates fs text)
  <-> exists names name,
      listdir fs (listed_directory text) = Some names
      /\ In name names /\ startswith (entry_prefix text) name = true
      /\ c = entry_candidate fs text name.
Proof.
  unfold entry_candidate, file_candidates, listed_directory, entry_prefix.
  destruct (path_split text) as [dirname partial]. cbn [fst snd].
  set (d := if Shlex.nonempty dirname then dirname else lit ".").
  destruct (listdir fs d) as [names|].
  - rewrite in_flat_map. split.
    + intros (name & Hin & Hc). exists names, name.
      destruct (startswith partial name); [|destruct Hc].
      repeat split; auto.
      destruct (isdir fs (path_join d name)); destruct Hc as [<- | []];
        [reflexivity | rewrite app_nil_r; reflexivity].
    + intros (names' & name & E & Hin & Hp & ->). injection E as <-.
      exists name. split; [exact Hin|]. rewrite Hp.
      destruct (isdir fs (path_join d name)); [left; reflexivity|].
      left. rewrite app_nil_r. reflexivity.
  - split; [intros [] | intros (names & name & E & _); discriminate E].
Qed.

Lemma completer_later_token (fs : FS) (subcommands : list str)
    (buffer : str) (begin : nat) (text : str) (state : nat) (t : str)
    (ts : list str) :
  Shlex.split (firstn begin buffer) = Shlex.Ok (t :: ts) ->
  startswith (lit "!") (strip buffer) = false ->
  completer fs subcommands buffer begin text state
  = pick (file_candidates fs text) state.
Proof.
  intros Hs Hbang. unfold completer.
  destruct (firstn begin buffer) as [|c typed] eqn:E; [discriminate Hs|].
  cbn [Shlex.nonempty]. rewrite Hs, Hbang. reflexivity.
Qed.

(** X22. Completing a later word.  When words have been typed before the
    word being completed, and the line is no shell escape, the candidates
    are the entries of the directory named in the text (the current one when
    the text names none) whose names begin with what follows the last slash
    of the text, each joined to the directory and, when it is a directory
    itself, followed by a slash: every candidate answered is such an entry,
    and every such entry is answered for some state.  A directory that cannot
    be listed gives no candidate and no error.  The known subcommands play
    no part. *)
Theorem later_word_completes_to_directory_entries (fs : FS)
    (subcommands : list str) (buffer : str) (begin : nat) (text : str)
    (t : str) (ts : list str) :
  Shlex.split (firstn begin buffer) = Shlex.Ok (t :: ts) ->
  startswith (lit "!") (strip buffer) = false ->
  (forall c,
      (exists state,
          completer fs subcommands buffer begin text state = Candidate c)
      <-> exists names name,
          listdir fs (listed_directory text) = Some names
          /\ In name names /\ startswith (entry_prefix text) name = true
          /\ c = entry_candidate fs text name)
  /\ (listdir fs (listed_directory text) = None ->
      forall state,
        completer fs subcommands buffer begin text state = NoCandidate)
  /\ (forall subcommands' state,
      completer fs subcommands' buffer begin text state
      = completer fs subcommands buffer begin text state).
Proof.
  intros Hs Hbang. split; [|split].
  - intros c. rewrite <- file_candidates_spec. split.
    + intros [state H].
      rewrite (completer_later_token _ _ _ _ _ _ _ _ Hs Hbang) in H.
      unfold pick in H.
      destruct (nth_error (file_candidates fs text) state) as [c'|] eqn:E;
        [|discriminate H].
      injection H as ->. apply (nth_error_In _ _ E).
    + intros Hin. apply In_nth_error in Hin as [state E]. exists state.
      rewrite (completer_later_token _ _ _ _ _ _ _ _ Hs Hbang).
      unfold pick. rewrite E. reflexivity.
  - intros Hnone state.
    rewrite (completer_later_token _ _ _ _ _ _ _ _ Hs Hbang).
    unfold pick.
    destruct (nth_error (file_candidates fs text) state) as [c|] eqn:E;
      [|reflexivity].
    apply nth_error_In, file_candidates_spec in E
      as (names & name & E & _). congruence.
  - intros subcommands' state.
    rewrite !(completer_later_token _ _ _ _ _ _ _ _ Hs Hbang). reflexivity.
Qed.

(* ================================================================== *)
(** * The theorems at concrete inputs *)

(** A value that is itself a reference, a key that is not bound, and a line
    without any reference. *)
Lemma expand_vars_spec_witness :
  (is_identifier (lit "x") = true
   /\ dict_get (lit "x") x_refers_to_y = Some (lit "${y}")
   /\ expand_vars (lit "a " ++ lit "${" ++ lit "x" ++ lit "}" ++ lit " b")
                  x_refers_to_y
      = expand_vars (lit "a ") x_refers_to_y ++ lit "${y}"
        ++ expand_vars (lit " b") x_refers_to_y)
  /\ (is_identifier (lit "z") = true
      /\ dict_get (lit "z") x_refers_to_y = None
      /\ expand_vars (lit "a " ++ lit "${" ++ lit "z" ++ lit "}" ++ lit " b")
                     x_refers_to_y
         = expand_vars (lit "a ") x_refers_to_y
           ++ (lit "${" ++ lit "z" ++ lit "}")
           ++ expand_vars (lit " b") x_refers_to_y)
  /\ (has_ref_opener (lit "cost: 5$ {x}") = false
      /\ expand_vars (lit "cost: 5$ {x}") x_refers_to_y = lit "cost: 5$ {x}").
Proof.
  destruct (expand_vars_spec x_refers_to_y) as (Hkey & Hnokey & Hplain).
  split; [|split].
  - split; [reflexivity | split; [reflexivity|]].
    apply Hkey; reflexivity.
  - split; [reflexivity | split; [reflexivity|]].
    apply Hnokey; reflexivity.
  - split; [reflexivity|]. apply Hplain; reflexivity.
Defined.

(** A commit message taken from the store, under two base arguments. *)
Lemma forward_spawns_base_then_args_witness :
  forwarded (lit "commit -m ${x}")
  /\ Shlex.split (expand_vars (lit "commit -m ${x}") x_is_1)
     = Shlex.Ok [lit "commit"; lit "-m"; lit "1"]
  /\ spawned (trace (handle_command (demo_os true [] (Exited 0))
                                    (lit "commit -m ${x}") (lit "git")
                                    [lit "-C"; lit "."] x_is_1 tt))
     = [[lit "git"; lit "-C"; lit "."; lit "commit"; lit "-m"; lit "1"]].
Proof.
  split; [split; reflexivity | split; [reflexivity|]].
  apply (proj1 (forward_spawns_base_then_args (demo_os true [] (Exited 0))
                                              x_is_1 tt)
               (lit "commit -m ${x}") (lit "git") [lit "-C"; lit "."]
               [lit "commit"; lit "-m"; lit "1"]).
  - split; reflexivity.
  - reflexivity.
Defined.

(** A base command that does not exist, and a child that exits with 3: the
    lines written, letter by letter. *)
Lemma forward_not_found_breaks_nonzero_continues_witness :
  (forwarded (lit "status")
   /\ Shlex.split (expand_vars (lit "status") []) = Shlex.Ok [lit "status"]
   /\ result (handle_command (demo_os true [] FileNotFoundError)
                             (lit "status") (lit "/nonexistent-binary") []
                             [] tt) = Break
   /\ trace (handle_command (demo_os true [] FileNotFoundError)
                            (lit "status") (lit "/nonexistent-binary") []
                            [] tt)
      = [Popen [lit "/nonexistent-binary"; lit "status"];
         Stderr (lit "Command not found: /nonexistent-binary")])
  /\ (3 <> 0)%Z
  /\ result (handle_command (demo_os true [] (Exited 3)) (lit "status")
                            (lit "/usr/bin/git") [] [] tt) = Normal
  /\ trace (handle_command (demo_os true [] (Exited 3)) (lit "status")
                           (lit "/usr/bin/git") [] [] tt)
     = [Popen [lit "/usr/bin/git"; lit "status"];
        Stderr (lit "[git] exited with code 3")]
  /\ int_of_str (lit "3") = Some 3%Z.
Proof.
  assert (Hf : forwarded (lit "status")) by (split; reflexivity).
  assert (Hs : Shlex.split (expand_vars (lit "status") [])
               = Shlex.Ok [lit "status"]) by reflexivity.
  assert (Hrc : (3 <> 0)%Z) by discriminate.
  destruct (proj1 (forward_not_found_breaks_nonzero_continues
                     (demo_os true [] FileNotFoundError) (lit "status")
                     (lit "/nonexistent-binary") [] [lit "status"] [] tt tt
                     Hf Hs) eq_refl) as (Hb & Ht & _).
  destruct (proj2 (forward_not_found_breaks_nonzero_continues
                     (demo_os true [] (Exited 3)) (lit "status")
                     (lit "/usr/bin/git") [] [lit "status"] [] tt tt Hf Hs)
                  3%Z eq_refl Hrc) as (_ & Hn & Ht3 & Hi & _).
  split; [split; [exact Hf | split; [exact Hs | split; [exact Hb|]]]|].
  - exact Ht.
  - split; [exact Hrc | split; [exact Hn | split; [exact Ht3 | exact Hi]]].
Defined.

(** The unterminated quotation, forwarded to [git], and three more lines
    with malformed quoting: a single quote opened after a closed quotation,
    an escaped double quote inside a double quotation that is not closed,
    and a backslash at the end of the line. *)
Lemma malformed_quoting_is_reported_witness :
  forwarded echo_unterminated
  /\ Shlex.split (expand_vars echo_unterminated x_is_1)
     = Shlex.ValueError (lit "No closing quotation")
  /\ result (handle_command (demo_os true [] (Exited 0)) echo_unterminated
                            (lit "git") [] x_is_1 tt) = Continue
  /\ spawned (trace (handle_command (demo_os true [] (Exited 0))
                                    echo_unterminated (lit "git") [] x_is_1
                                    tt)) = []
  /\ (forwarded quote_after_quotation
      /\ malformed_quoting (expand_vars quote_after_quotation x_is_1)
      /\ trace (handle_command (demo_os true [] (Exited 0))
                               quote_after_quotation (lit "git") [] x_is_1
                               tt)
         = [Stderr (lit "parse error: No closing quotation")])
  /\ (forwarded escaped_quote_inside
      /\ malformed_quoting (expand_vars escaped_quote_inside x_is_1)
      /\ trace (handle_command (demo_os true [] (Exited 0)) escaped_quote_inside
                               (lit "git") [] x_is_1 tt)
         = [Stderr (lit "parse error: No closing quotation")])
  /\ (forwarded trailing_backslash
      /\ malformed_quoting (expand_vars trailing_backslash x_is_1)
      /\ trace (handle_command (demo_os true [] (Exited 0)) trailing_backslash
                               (lit "git") [] x_is_1 tt)
         = [Stderr (lit "parse error: No escaped character")]).
Proof.
  assert (Hf : forwarded echo_unterminated) by (split; reflexivity).
  assert (Hs : Shlex.split (expand_vars echo_unterminated x_is_1)
               = Shlex.ValueError (lit "No closing quotation"))
    by reflexivity.
  destruct (malformed_quoting_is_reported
              (demo_os true [] (Exited 0)) (lit "git") [] x_is_1 tt)
    as (Hany & _ & Hbad & _).
  destruct (Hany echo_unterminated (lit "No closing quotation") Hf Hs)
    as (Hr & _ & Hsp & _).
  split; [exact Hf | split; [exact Hs | split; [exact Hr|]]].
  split; [exact Hsp|].
  assert (Hf1 : forwarded quote_after_quotation) by (split; reflexivity).
  assert (Hm1 : malformed_quoting (expand_vars quote_after_quotation x_is_1))
    by (vm_compute; discriminate).
  assert (Hf2 : forwarded escaped_quote_inside) by (split; reflexivity).
  assert (Hm2 : malformed_quoting (expand_vars escaped_quote_inside x_is_1))
    by (vm_compute; discriminate).
  assert (Hf3 : forwarded trailing_backslash) by (split; reflexivity).
  assert (Hm3 : malformed_quoting (expand_vars trailing_backslash x_is_1))
    by (vm_compute; discriminate).
  split; [|split].
  - split; [exact Hf1 | split; [exact Hm1|]].
    destruct (Hbad quote_after_quotation Hf1 Hm1) as (msg & Hq & Hh).
    injection Hq as <-. exact (f_equal trace Hh).
  - split; [exact Hf2 | split; [exact Hm2|]].
    destruct (Hbad escaped_quote_inside Hf2 Hm2) as (msg & Hq & Hh).
    injection Hq as <-. exact (f_equal trace Hh).
  - split; [exact Hf3 | split; [exact Hm3|]].
    destruct (Hbad trailing_backslash Hf3 Hm3) as (msg & Hq & Hh).
    injection Hq as <-. exact (f_equal trace Hh).
Defined.

(** Two continued lines, a last line and a line that is left unread. *)
Lemma continuation_joins_segments_witness :
  endswith (lit "\") (lit "baz ") = false
  /\ snd (read_raw (demo_os true [] (Exited 0)) (lit "git> ") (lit "..> ")
                   [lit " foo\"; lit " bar\"; lit "baz "; lit "next"] tt)
     = Some (lit "foo barbaz", [lit "next"]).
Proof.
  split; [reflexivity|].
  exact (f_equal snd
           (proj1 (continuation_joins_segments
                     (demo_os true [] (Exited 0)) (lit "git> ") (lit "..> ")
                     [lit " foo"; lit " bar"] (lit "baz ") [lit "next"] tt
                     eq_refl))).
Defined.

(** A binding typed with blanks around the key and a value that holds an
    equals sign, over an older binding of the key. *)
Lemma set_builtin_binds_witness :
  startswith (lit ":") (lit ":set  k = v=1 ") = true
  /\ startswith (lit "set ") (strip (skipn 1 (lit ":set  k = v=1 "))) = true
  /\ vars_after (handle_command (demo_os true [] (Exited 0))
                                (lit ":set  k = v=1 ") (lit "git") []
                                [(lit "k", lit "0")] tt)
     = [(lit "k", lit "v=1")].
Proof.
  split; [reflexivity | split; [reflexivity|]].
  destruct (set_builtin_binds (demo_os true [] (Exited 0))
                              (lit ":set  k = v=1 ") (lit "git") []
                              [(lit "k", lit "0")] tt eq_refl eq_refl)
    as (_ & _ & Hset & _).
  destruct (Hset (lit "k ") (lit " v=1") eq_refl eq_refl) as (_ & -> & _).
  reflexivity.
Defined.

(** The working directory removed: [pwd] ends the session, and the [vars]
    typed after it is not read. *)
Lemma pwd_failure_ends_session_witness :
  startswith (lit ":") (lit ":pwd") = true
  /\ strip (skipn 1 (lit ":pwd")) = lit "pwd"
  /\ getcwd (removed_cwd_os []) tt = Throws no_such_directory
  /\ result (handle_command (removed_cwd_os []) (lit ":pwd") (lit "git") []
                            [] tt) = Escapes no_such_directory
  /\ repl_loop 3 (removed_cwd_os []) (lit "git") [] (lit "git> ")
               (lit "..> ") [] [lit ":pwd"; lit ":vars"] tt
     = ([Prompt (lit "git> ")], [], tt, Some no_such_directory).
Proof.
  destruct (pwd_failure_ends_session (removed_cwd_os []) (lit ":pwd")
              (lit "git") [] [] tt no_such_directory eq_refl eq_refl eq_refl)
    as (_ & Hr & _ & Hloop & _).
  split; [reflexivity | split; [reflexivity | split; [reflexivity|]]].
  split.
  - exact (f_equal result Hr).
  - exact (Hloop 2 (lit "git> ") (lit "..> ") [lit ":pwd"; lit ":vars"]
                 [lit ":vars"] tt [Prompt (lit "git> ")] eq_refl).
Defined.


(** A key with a blank inside, added to a store that holds [x]. *)
Lemma store_keys_trimmed_and_unique_witness :
  store_ok x_is_1
  /\ store_ok (vars_after (handle_command (demo_os true [] (Exited 0))
                                          (lit ":set a b=2") (lit "git") []
                                          x_is_1 tt)).
Proof.
  assert (H : store_ok x_is_1).
  { split.
    - constructor; [intros [] | constructor].
    - constructor; [split; reflexivity | constructor]. }
  split; [exact H|].
  apply (proj1 (proj2 (store_keys_trimmed_and_unique
                         (demo_os true [] (Exited 0)) (lit "git") []))
               (lit ":set a b=2") x_is_1 tt H).
Defined.

(** A shell escape that mentions a bound variable. *)
Lemma substitution_only_when_forwarding_witness :
  startswith (lit "!") (lit "! echo ${x} ") = true
  /\ strip (skipn 1 (lit "! echo ${x} ")) <> []
  /\ exists report,
      trace (handle_command (demo_os true [] (Exited 0))
                            (lit "! echo ${x} ") (lit "git") [] x_is_1 tt)
      = Shell (lit "echo ${x}") :: report.
Proof.
  assert (Hne : strip (skipn 1 (lit "! echo ${x} ")) <> [])
    by discriminate.
  split; [reflexivity | split; [exact Hne|]].
  destruct (proj1 (substitution_only_when_forwarding
                     (demo_os true [] (Exited 0)) (lit "git") [] tt)
                  (lit "! echo ${x} ") x_is_1 eq_refl)
    as (_ & _ & Hsh).
  destruct (Hsh Hne) as (report & Ht & _).
  exists report. exact Ht.
Defined.

(** The empty store and a line with references. *)
Lemma expand_vars_nothing_bound_witness :
  expand_vars (lit "echo ${HOME} ${x}") [] = lit "echo ${HOME} ${x}".
Proof.
  apply (expand_vars_nothing_bound [] (lit "echo ${HOME} ${x}")).
  intros key _. reflexivity.
Defined.

(** The key with a blank inside, bound in a store that holds [x]. *)
Lemma non_identifier_key_is_never_expanded_witness :
  is_identifier (lit "a b") = false
  /\ expand_vars (lit "${a b} ${x}") (dict_set (lit "a b") (lit "2") x_is_1)
     = expand_vars (lit "${a b} ${x}") x_is_1.
Proof.
  split; [reflexivity|].
  apply (non_identifier_key_is_never_expanded x_is_1 (lit "a b") (lit "2")
                                              (lit "${a b} ${x}")).
  reflexivity.
Defined.

(** A name bound with blanks around it, then greeted. *)
Lemma set_then_reference_witness :
  startswith (lit ":") (lit ":set name = World ") = true
  /\ is_identifier (strip (lit "name ")) = true
  /\ expand_vars (lit "echo Hello ${name}!")
       (vars_after (handle_command (demo_os true [] (Exited 0))
                                   (lit ":set name = World ") (lit "git") []
                                   [] tt))
     = lit "echo Hello World!".
Proof.
  split; [reflexivity | split; [reflexivity|]].
  apply (set_then_reference (demo_os true [] (Exited 0))
                            (lit ":set name = World ") (lit "git") [] [] tt
                            (lit "name ") (lit " World")
                            eq_refl eq_refl eq_refl eq_refl eq_refl
                            (lit "echo Hello ") (lit "!")).
Defined.

(** A second variable, then the listing. *)
Lemma set_then_vars_witness :
  startswith (lit ":") (lit ":set y = 2") = true
  /\ strip (skipn 1 (lit ": vars")) = lit "vars"
  /\ trace (handle_command (demo_os true [] (Exited 0)) (lit ": vars")
              (lit "git") []
              (vars_after (handle_command (demo_os true [] (Exited 0))
                                          (lit ":set y = 2") (lit "git") []
                                          x_is_1 tt)) tt)
     = [Stdout (lit "x=1"); Stdout (lit "y=2")].
Proof.
  split; [reflexivity | split; [reflexivity|]].
  destruct (set_then_vars (demo_os true [] (Exited 0)) (lit ":set y = 2")
                          (lit ": vars") (lit "git") [] x_is_1 tt
                          (lit "y ") (lit " 2")
                          eq_refl eq_refl eq_refl eq_refl eq_refl eq_refl)
    as (_ & _ & _ & _ & Hfresh & _).
  apply Hfresh. reflexivity.
Defined.

(** The variable [x] through a [set] of another key. *)
Lemma bound_keys_stay_bound_witness :
  In (lit "x") (keys x_is_1)
  /\ In (lit "x")
        (keys (vars_after (handle_command (demo_os true [] (Exited 0))
                                          (lit ":set y=2") (lit "git") []
                                          x_is_1 tt))).
Proof.
  assert (H : In (lit "x") (keys x_is_1)) by (left; reflexivity).
  split; [exact H|].
  apply (proj1 (bound_keys_stay_bound (demo_os true [] (Exited 0)) (lit "git")
                                      [] x_is_1 (lit "x") H)).
Defined.

(** A help request, a shell escape and a forwarded line. *)
Lemma each_line_kind_keeps_to_its_service_witness :
  startswith (lit ":") (lit ":help") = true
  /\ spawned (trace (handle_command (demo_os true [] (Exited 0)) (lit ":help")
                                    (lit "git") [] [] tt)) = []
  /\ startswith (lit "!") (lit "!ls") = true
  /\ spawned (trace (handle_command (demo_os true [] (Exited 0)) (lit "!ls")
                                    (lit "git") [] [] tt)) = []
  /\ shell_calls (trace (handle_command (demo_os true [] (Exited 0))
                                        (lit "! ls -l ") (lit "git") [] []
                                        tt))
     = [lit "ls -l"]
  /\ forwarded (lit "log")
  /\ shell_calls (trace (handle_command (demo_os true [] (Exited 0))
                                        (lit "log") (lit "git") [] [] tt))
     = [].
Proof.
  assert (Hf : forwarded (lit "log")) by (split; reflexivity).
  split; [reflexivity | split; [|split; [reflexivity | split;
    [|split; [|split; [exact Hf|]]]]]].
  - apply (proj1 (each_line_kind_keeps_to_its_service
                    (demo_os true [] (Exited 0)) (lit ":help") (lit "git")
                    [] [] tt) eq_refl).
  - apply (proj1 (proj2 (each_line_kind_keeps_to_its_service
                           (demo_os true [] (Exited 0)) (lit "!ls") (lit "git")
                           [] [] tt)) eq_refl).
  - exact (proj2 (proj2 (proj1 (proj2 (each_line_kind_keeps_to_its_service
                                         (demo_os true [] (Exited 0))
                                         (lit "! ls -l ") (lit "git")
                                         [] [] tt)) eq_refl))).
  - apply (proj2 (proj2 (each_line_kind_keeps_to_its_service
                           (demo_os true [] (Exited 0)) (lit "log") (lit "git")
                           [] [] tt)) Hf).
Defined.

(** The command [set] alone, typed with blanks around it. *)
Lemma bare_builtins_are_unknown_witness :
  startswith (lit ":") (lit ": set ") = true
  /\ strip (skipn 1 (lit ": set ")) = lit "set"
  /\ trace (handle_command (demo_os true [] (Exited 0)) (lit ": set ")
                           (lit "git") [] [] tt)
     = [Stderr (lit "Unknown built-in. Use :help")].
Proof.
  split; [reflexivity | split; [reflexivity|]].
  rewrite (bare_builtins_are_unknown (demo_os true [] (Exited 0))
             (lit ": set ") (lit "git") [] [] tt eq_refl
             (or_introl eq_refl)).
  reflexivity.
Defined.

(** A program that is missing. *)
Lemma break_exactly_on_exit_or_missing_program_witness :
  result (handle_command (demo_os true [] FileNotFoundError) (lit "status")
                         (lit "/nonexistent-binary") [] [] tt) = Break.
Proof.
  apply (proj2 (break_exactly_on_exit_or_missing_program
                  (demo_os true [] FileNotFoundError) (lit "status")
                  (lit "/nonexistent-binary") [] [] tt)).
  right. split; [split; reflexivity|].
  exists [lit "status"]. split; reflexivity.
Defined.

(** A commit of all changes. *)
Lemma plain_words_are_forwarded_as_typed_witness :
  Forall (fun w => bare_word w = true) [lit "commit"; lit "-a"; lit "--amend"]
  /\ forwarded (join_words [lit "commit"; lit "-a"; lit "--amend"])
  /\ spawned (trace (handle_command (demo_os true [] (Exited 0))
                       (lit "commit -a --amend") (lit "git") [lit "-C"] x_is_1
                       tt))
     = [[lit "git"; lit "-C"; lit "commit"; lit "-a"; lit "--amend"]].
Proof.
  assert (Hf : forwarded (join_words [lit "commit"; lit "-a"; lit "--amend"]))
    by (split; reflexivity).
  assert (Hw : Forall (fun w => bare_word w = true)
                      [lit "commit"; lit "-a"; lit "--amend"]).
  { repeat constructor. }
  split; [exact Hw | split; [exact Hf|]].
  apply (proj2 (plain_words_are_forwarded_as_typed
                  (demo_os true [] (Exited 0)) (lit "git") [lit "-C"] x_is_1
                  tt [lit "commit"; lit "-a"; lit "--amend"] Hw Hf)).
Defined.

(** An empty line and a line of blanks before a listing. *)
Lemma blank_lines_are_skipped_witness :
  Forall blank_line [lit ""; lit "   "]
  /\ session (demo_os true [] (Exited 0)) (lit "git") [] x_is_1
             [lit ""; lit "   "; lit ":vars"] tt
     = ([Prompt (primary_prompt (lit "git"));
         Prompt (primary_prompt (lit "git"));
         Prompt (primary_prompt (lit "git")); Stdout (lit "x=1");
         Prompt (primary_prompt (lit "git")); Stdout []],
        x_is_1, tt, None).
Proof.
  assert (H : Forall blank_line [lit ""; lit "   "]).
  { repeat constructor. }
  split; [exact H|].
  exact (blank_lines_are_skipped (demo_os true [] (Exited 0)) (lit "git") []
           x_is_1 [lit ""; lit "   "] [lit ":vars"] tt H).
Defined.


(** The sample help text of [git], and of another program. *)
Lemma detected_subcommands_are_names_witness :
  detect_git_subcommands no_unicode_alnum sample_check_output
                         (lit "/usr/bin/git")
  = [lit "bisect"; lit "branch"; lit "add"; lit "am"]
  /\ Forall subcommand_name
            (detect_git_subcommands no_unicode_alnum sample_check_output
                                    (lit "/usr/bin/git"))
  /\ basename (lit "/usr/bin/hg") <> lit "git"
  /\ detect_git_subcommands no_unicode_alnum sample_check_output
                            (lit "/usr/bin/hg") = [].
Proof.
  assert (H : basename (lit "/usr/bin/hg") <> lit "git") by discriminate.
  split; [reflexivity | split; [|split; [exact H|]]].
  - apply (proj1 (detected_subcommands_are_names
                    no_unicode_alnum sample_check_output (lit "/usr/bin/git"))).
  - apply (proj1 (proj2 (proj2 (detected_subcommands_are_names
                                  no_unicode_alnum sample_check_output
                                  (lit "/usr/bin/hg")))) H).
Defined.

Lemma listed_names_are_detected_witness :
  In (lit "  bisect branch ") (splitlines sample_help)
  /\ strip (lit "  bisect branch ") = join_words [lit "bisect"; lit "branch"]
  /\ In (lit "branch")
        (detect_git_subcommands no_unicode_alnum sample_check_output
                                (lit "git")).
Proof.
  assert (Hl : In (lit "  bisect branch ") (splitlines sample_help)).
  { right; right; right; left; reflexivity. }
  assert (Hn : Forall subcommand_name [lit "bisect"; lit "branch"]).
  { repeat constructor. }
  split; [exact Hl | split; [reflexivity|]].
  apply (listed_names_are_detected no_unicode_alnum sample_check_output
           (lit "git") sample_help (lit "  bisect branch ")
           [lit "bisect"; lit "branch"] (lit "branch")
           eq_refl eq_refl Hl eq_refl Hn eq_refl).
  right; left; reflexivity.
Defined.

Lemma indented_name_is_detected_witness :
  In (lit "   " ++ lit "am"
      ++ lit "                   Apply a series of patches")
     (splitlines sample_help)
  /\ In (lit "am")
        (detect_git_subcommands no_unicode_alnum sample_check_output
                                (lit "git")).
Proof.
  assert (Hl : In (lit "   " ++ lit "am"
                   ++ lit "                   Apply a series of patches")
                  (splitlines sample_help)).
  { right; right; left; reflexivity. }
  split; [exact Hl|].
  apply (indented_name_is_detected no_unicode_alnum sample_check_output
           (lit "git") sample_help (lit "   ") (lit "am")
           (lit "                   Apply a series of patches")
           eq_refl eq_refl Hl eq_refl).
  - simpl. lia.
  - split; reflexivity.
  - reflexivity.
  - right. eexists. reflexivity.
Defined.

(** Two of three subcommands begin with the letters typed. *)
Lemma first_word_completes_to_subcommands_witness :
  NoDup [lit "status"; lit "add"; lit "stash"]
  /\ map (completer sample_fs [lit "status"; lit "add"; lit "stash"]
                    (lit "st") 0 (lit "st")) [0; 1; 2]
     = [Candidate (lit "stash"); Candidate (lit "status"); NoCandidate]
  /\ exists candidates,
      forall state,
        completer sample_fs [lit "status"; lit "add"; lit "stash"]
                  (lit "st") 0 (lit "st") state
        = pick candidates state.
Proof.
  assert (Hnd : NoDup [lit "status"; lit "add"; lit "stash"]).
  { repeat constructor; simpl; intros H;
      repeat (destruct H as [H | H]; [discriminate H|]); exact H. }
  split; [exact Hnd | split; [reflexivity|]].
  destruct (first_word_completes_to_subcommands
              sample_fs [lit "status"; lit "add"; lit "stash"] (lit "st") 0
              (lit "st") Hnd (or_introl eq_refl) eq_refl)
    as (candidates & H & _).
  exists candidates. exact H.
Defined.

(** The third state after two candidates, and a later one. *)
Lemma completion_enumeration_ends_witness :
  completer sample_fs [lit "status"; lit "add"; lit "stash"] (lit "st") 0
            (lit "st") 2 = NoCandidate
  /\ 2 <= 7
  /\ completer sample_fs [lit "status"; lit "add"; lit "stash"] (lit "st") 0
               (lit "st") 7 = NoCandidate.
Proof.
  assert (Hle : 2 <= 7) by lia.
  split; [reflexivity | split; [exact Hle|]].
  apply (proj1 (completion_enumeration_ends
                  sample_fs [lit "status"; lit "add"; lit "stash"] (lit "st")
                  0 (lit "st") 2) eq_refl 7 Hle).
Defined.

(** A commit message being typed: after a closed quotation and inside a
    second one that is open; inside a double quotation, right after a
    backslash; and on a shell escape. *)
Lemma completion_raises_in_open_quotation_witness :
  quoting_at_end (firstn 19 (lit "commit -m 'a' -m 'b c"))
  = Inside Shlex.squote
  /\ completer sample_fs [lit "commit"] (lit "commit -m 'a' -m 'b c") 19
               (lit "c") 0
     = Raised (lit "No closing quotation")
  /\ quoting_at_end (firstn 15 double_quoted_fix)
     = EscapedInside Shlex.dquote
  /\ completer sample_fs [lit "commit"] double_quoted_fix 15 (lit "") 0
     = Raised (lit "No escaped character")
  /\ malformed_quoting (firstn 9 (lit "!echo 'a b"))
  /\ completer sample_fs [lit "commit"] (lit "!echo 'a b") 9 (lit "b") 0
     = Raised (lit "No closing quotation").
Proof.
  destruct (completion_raises_in_open_quotation
              sample_fs [lit "commit"] (lit "commit -m 'a' -m 'b c") 19
              (lit "c") 0) as (_ & _ & Hopen & _).
  destruct (completion_raises_in_open_quotation
              sample_fs [lit "commit"] double_quoted_fix 15 (lit "") 0)
    as (_ & _ & _ & Hesc).
  destruct (completion_raises_in_open_quotation
              sample_fs [lit "commit"] (lit "!echo 'a b") 9 (lit "b") 0)
    as (Hmsg & _).
  split; [reflexivity | split; [exact (Hopen Shlex.squote eq_refl)|]].
  split; [reflexivity|].
  split; [apply Hesc; right; exists Shlex.dquote; reflexivity|].
  split; [vm_compute; discriminate|].
  apply (proj2 (Hmsg (lit "No closing quotation"))). reflexivity.
Defined.

(** A listing asked of the shell. *)
Lemma shell_escape_gets_no_completion_witness :
  startswith (lit "!") (strip (lit " !ls s")) = true
  /\ Shlex.split (firstn 5 (lit " !ls s")) = Shlex.Ok [lit "!ls"]
  /\ completer sample_fs [lit "status"] (lit " !ls s") 5 (lit "s") 0
     = NoCandidate.
Proof.
  split; [reflexivity | split; [reflexivity|]].
  apply (shell_escape_gets_no_completion
           sample_fs [lit "status"] (lit " !ls s") 5 (lit "s") 0
           [lit "!ls"] eq_refl eq_refl).
Defined.

(** A file to add, in the current directory. *)
Lemma later_word_completes_to_directory_entries_witness :
  Shlex.split (firstn 4 (lit "add s")) = Shlex.Ok [lit "add"]
  /\ startswith (lit "!") (strip (lit "add s")) = false
  /\ map (completer sample_fs [lit "status"] (lit "add s") 4 (lit "s"))
         [0; 1; 2]
     = [Candidate (lit "./src/"); Candidate (lit "./setup.py"); NoCandidate]
  /\ exists state,
      completer sample_fs [lit "status"] (lit "add s") 4 (lit "s") state
      = Candidate (lit "./src/").
Proof.
  split; [reflexivity | split; [reflexivity | split; [reflexivity|]]].
  apply (proj2 (proj1 (later_word_completes_to_directory_entries
                         sample_fs [lit "status"] (lit "add s") 4 (lit "s")
                         (lit "add") [] eq_refl eq_refl)
                      (lit "./src/"))).
  exists [lit "src"; lit "setup.py"; lit "README"], (lit "src").
  repeat split. left. reflexivity.
Defined.
